(** * agentvm control plane: pool manager, registry, log streams, dispatcher

    A shallow embedding of the coordination engine of the agentvm daemon
    (Go packages [pool], [registry], [ws] and [orchestrator]) together with
    the properties its specification states about it.

    Conventions of the embedding.
    - A Go [int] is a [Z] in the 64-bit signed range; [+] and [-] wrap
      ([Go.add], [Go.sub]).
    - A Go [string] is a [string]; the typed string [SlotState] stays a
      string, because [json.Unmarshal] accepts any text for it.
    - A slice is a [list]; [for i := range s] with an update of [s[i]] is a
      search for the index followed by a list insert at that index.
    - A Go map is a [gmap]; a set written [map[K]bool] is a [gset].
    - A mutex-protected method is one atomic function on the protected
      state.  What a method obtains from outside the process (the clock, the
      VM driver, the file system) is an explicit argument of the function.
    - An [error] is a value of the inductive type [error]; a method that
      returns [(T, error)] returns a [result T]. *)

From stdpp Require Import gmap strings list fin_maps pretty sorting.

Set Warnings "-register-all".

Open Scope string_scope.
Open Scope list_scope.
Open Scope Z_scope.

(** ** Go base types *)

Module Go.

Definition min_int : Z := - 2 ^ 63.
Definition max_int : Z := 2 ^ 63 - 1.

(** Two's complement wrap-around of a 64-bit [int]. *)
Definition wrap (z : Z) : Z := (z + 2 ^ 63) `mod` 2 ^ 64 - 2 ^ 63.

Definition add (a b : Z) : Z := wrap (a + b).
Definition sub (a b : Z) : Z := wrap (a - b).

Definition in_range (z : Z) : Prop := min_int ≤ z ≤ max_int.

Global Instance in_range_dec z : Decision (in_range z).
Proof. unfold in_range. apply _. Defined.

(** [len(s)] as an [int]. *)
Definition len {A} (l : list A) : Z := Z.of_nat (length l).

(** [time.Time], as an instant; [0] is the zero value [time.Time{}]. *)
Definition Time : Type := Z.

(** Error values.  Each constructor stands for one [fmt.Errorf] /
    [errors.New] site of the sources, or for an error produced outside
    the process. *)
Inductive error : Type :=
| ErrNoWarmVMs                       (* "no warm VMs available. ..." *)
| ErrVMNotFound (name : string)      (* "VM %q not found in pool" *)
| ErrNotRegistered (id : string)     (* "agent %q not registered" *)
| ErrRequired (field : string)       (* "<field> is required" *)
| ErrInvalidTool (tool : string)     (* "invalid tool %q (valid: ...)" *)
| ErrJSON (msg : string)             (* an encoding/json error *)
| ErrExternal (msg : string)         (* an os / VM driver error *)
| ErrWrap (ctx : string) (e : error) (* fmt.Errorf("<ctx>: %w", e) *).

Inductive result (A : Type) : Type :=
| Ok (a : A)
| Err (e : error).
Global Arguments Ok {A} a.
Global Arguments Err {A} e.

Definition is_err {A} (r : result A) : bool :=
  match r with Ok _ => false | Err _ => true end.

Global Instance result_ret : MRet result := λ A a, Ok a.
Global Instance result_bind : MBind result := λ A B f r,
  match r with Ok a => f a | Err e => Err e end.
Global Instance result_fmap : FMap result := λ A B f r,
  match r with Ok a => Ok (f a) | Err e => Err e end.

(** [fmt.Errorf("<ctx>: %w", err)] on the error branch of a call. *)
Definition wrapErr {A} (ctx : string) (r : result A) : result A :=
  match r with Ok a => Ok a | Err e => Err (ErrWrap ctx e) end.

(** A JSON document, as [encoding/json] reads and writes it.  Numbers are
    the integers (the documents of this program hold no other number);
    the text layer (indentation, escapes) is below this type. *)
Inductive json : Type :=
| JNull
| JBool (b : bool)
| JNum (z : Z)
| JStr (s : string)
| JArr (l : list json)
| JObj (o : list (string * json)).

(** The content of a file: a JSON document, or bytes that do not parse. *)
Inductive file : Type :=
| FileJSON (doc : json)
| FileGarbage.

(** What [os.MkdirAll] followed by [os.WriteFile] does to one path:
    both succeed; the directory cannot be made (nothing is written); or
    the write fails and leaves [after] at the path. *)
Inductive io_outcome : Type :=
| IoOk
| IoMkdirErr (e : error)
| IoWriteErr (e : error) (after : option file).

(** [encoding/json] and [time] are taken at their interface.
    [utf8] is the coercion of a string to valid UTF-8 that [json.Marshal]
    applies; [MarshalTime] is [Time.MarshalJSON] (it fails outside years
    0..9999) and [UnmarshalTime] is [Time.UnmarshalJSON], both on the
    string between the quotes. *)
Class Codec : Type := {
  utf8 : string → string;
  MarshalTime : Time → option string;
  UnmarshalTime : string → option Time
}.

Section json.

Context `{Codec}.

(** A string field tagged [omitempty]: absent when empty. *)
Definition omitempty (key v : string) : list (string * json) :=
  if decide (v = "") then [] else [(key, JStr (utf8 v))].

(** Decoding one JSON value into a field that currently holds [cur]:
    [null] leaves the field as it is, a value of another JSON type is an
    [UnmarshalTypeError]. *)
Definition unmarshalString (cur : string) (j : json) : result string :=
  match j with
  | JNull => Ok cur
  | JStr s => Ok s
  | _ => Err (ErrJSON "cannot unmarshal into Go value of type string")
  end.

Definition unmarshalInt (cur : Z) (j : json) : result Z :=
  match j with
  | JNull => Ok cur
  | JNum z =>
      if decide (in_range z) then Ok z
      else Err (ErrJSON "cannot unmarshal number into Go value of type int")
  | _ => Err (ErrJSON "cannot unmarshal into Go value of type int")
  end.

Definition unmarshalTime (cur : Time) (j : json) : result Time :=
  match j with
  | JNull => Ok cur
  | JStr s =>
      match UnmarshalTime s with
      | Some t => Ok t
      | None => Err (ErrJSON "parsing time")
      end
  | _ => Err (ErrJSON "Time.UnmarshalJSON: input is not a JSON string")
  end.

(** Keys are decoded in document order, each into the struct built so
    far (a repeated key overwrites). *)
Fixpoint unmarshalFields {A} (step : A → string * json → result A)
    (acc : A) (o : list (string * json)) : result A :=
  match o with
  | [] => Ok acc
  | kv :: rest => acc' ← step acc kv; unmarshalFields step acc' rest
  end.

End json.

(** A codec to evaluate the functions with: strings that are valid UTF-8
    as they stand, and the zero instant in its RFC 3339 form. *)
Definition zeroTimeText : string := "0001-01-01T00:00:00Z".
Definition evalCodec : Codec := {|
  utf8 := λ s, s;
  MarshalTime := λ t, if decide (t = 0) then Some zeroTimeText else None;
  UnmarshalTime := λ s, if decide (s = zeroTimeText) then Some 0 else None
|}.

End Go.

Export Go.

(** ** Package [pool]: slot table, state store, manager *)

Module pool.

(** [type SlotState string] with its four constants. *)
Definition SlotState : Type := string.
Definition SlotIdle : SlotState := "idle".
Definition SlotActive : SlotState := "active".
Definition SlotCold : SlotState := "cold".
Definition SlotCreating : SlotState := "creating".

Record VMSlot : Type := mkVMSlot {
  Name : string;
  State : SlotState;
  AgentID : string;
  Project : string;
  Tool : string;
  Branch : string;
  Issue : string;
  VMIP : string;
  CreatedAt : Time;
  ClaimedAt : Time
}.

Global Instance VMSlot_eq_dec : EqDecision VMSlot.
Proof. solve_decision. Defined.

(** The zero value [VMSlot{}]. *)
Definition zeroSlot : VMSlot := mkVMSlot "" "" "" "" "" "" "" "" 0 0.

(** Field assignments [s.F = v]. *)
Definition set_State (v : SlotState) (s : VMSlot) : VMSlot :=
  mkVMSlot (Name s) v (AgentID s) (Project s) (Tool s) (Branch s) (Issue s)
           (VMIP s) (CreatedAt s) (ClaimedAt s).
Definition set_AgentID (v : string) (s : VMSlot) : VMSlot :=
  mkVMSlot (Name s) (State s) v (Project s) (Tool s) (Branch s) (Issue s)
           (VMIP s) (CreatedAt s) (ClaimedAt s).
Definition set_Project (v : string) (s : VMSlot) : VMSlot :=
  mkVMSlot (Name s) (State s) (AgentID s) v (Tool s) (Branch s) (Issue s)
           (VMIP s) (CreatedAt s) (ClaimedAt s).
Definition set_VMIP (v : string) (s : VMSlot) : VMSlot :=
  mkVMSlot (Name s) (State s) (AgentID s) (Project s) (Tool s) (Branch s)
           (Issue s) v (CreatedAt s) (ClaimedAt s).
Definition set_ClaimedAt (v : Time) (s : VMSlot) : VMSlot :=
  mkVMSlot (Name s) (State s) (AgentID s) (Project s) (Tool s) (Branch s)
           (Issue s) (VMIP s) (CreatedAt s) v.

Record PoolConfig : Type := mkPoolConfig {
  WarmSize : Z;
  MaxVMs : Z;
  MasterName : string
}.

Record PersistentState : Type := mkPersistentState {
  Slots : list VMSlot;
  Counter : Z
}.


(** *** The state store ([stateStore], file pool-state.json) *)

Section stateStore.

Context `{Codec}.

(** [json.Marshal] of a [VMSlot], field by field in declaration order.
    [omitempty] has no effect on the struct-typed [claimedAt]. *)
Definition marshalSlot (s : VMSlot) : option json :=
  created ← MarshalTime (CreatedAt s);
  claimed ← MarshalTime (ClaimedAt s);
  Some (JObj ([("name", JStr (utf8 (Name s)));
               ("state", JStr (utf8 (State s)))]
              ++ omitempty "agentID" (AgentID s)
              ++ omitempty "project" (Project s)
              ++ omitempty "tool" (Tool s)
              ++ omitempty "branch" (Branch s)
              ++ omitempty "issue" (Issue s)
              ++ omitempty "vmIP" (VMIP s)
              ++ [("createdAt", JStr created);
                  ("claimedAt", JStr claimed)])).

(** [json.Marshal] of a [PersistentState].  (A nil slice is written as
    [null] and read back as nil; the list [[]] stands for both.) *)
Definition marshalState (st : PersistentState) : option json :=
  slots ← mapM marshalSlot (Slots st);
  Some (JObj [("slots", JArr slots); ("counter", JNum (Counter st))]).

(** One key of an object decoded into a [VMSlot]; unknown keys are
    skipped.  Keys are matched exactly. *)
Definition unmarshalSlotField (s : VMSlot) (kv : string * json) : result VMSlot :=
  let '(k, j) := kv in
  if decide (k = "name") then
    v ← unmarshalString (Name s) j;
    Ok (mkVMSlot v (State s) (AgentID s) (Project s) (Tool s) (Branch s)
                 (Issue s) (VMIP s) (CreatedAt s) (ClaimedAt s))
  else if decide (k = "state") then
    v ← unmarshalString (State s) j; Ok (set_State v s)
  else if decide (k = "agentID") then
    v ← unmarshalString (AgentID s) j; Ok (set_AgentID v s)
  else if decide (k = "project") then
    v ← unmarshalString (Project s) j; Ok (set_Project v s)
  else if decide (k = "tool") then
    v ← unmarshalString (Tool s) j;
    Ok (mkVMSlot (Name s) (State s) (AgentID s) (Project s) v (Branch s)
                 (Issue s) (VMIP s) (CreatedAt s) (ClaimedAt s))
  else if decide (k = "branch") then
    v ← unmarshalString (Branch s) j;
    Ok (mkVMSlot (Name s) (State s) (AgentID s) (Project s) (Tool s) v
                 (Issue s) (VMIP s) (CreatedAt s) (ClaimedAt s))
  else if decide (k = "issue") then
    v ← unmarshalString (Issue s) j;
    Ok (mkVMSlot (Name s) (State s) (AgentID s) (Project s) (Tool s)
                 (Branch s) v (VMIP s) (CreatedAt s) (ClaimedAt s))
  else if decide (k = "vmIP") then
    v ← unmarshalString (VMIP s) j; Ok (set_VMIP v s)
  else if decide (k = "createdAt") then
    v ← unmarshalTime (CreatedAt s) j;
    Ok (mkVMSlot (Name s) (State s) (AgentID s) (Project s) (Tool s)
                 (Branch s) (Issue s) (VMIP s) v (ClaimedAt s))
  else if decide (k = "claimedAt") then
    v ← unmarshalTime (ClaimedAt s) j; Ok (set_ClaimedAt v s)
  else Ok s.

Definition unmarshalSlot (j : json) : result VMSlot :=
  match j with
  | JNull => Ok zeroSlot
  | JObj o => unmarshalFields unmarshalSlotField zeroSlot o
  | _ => Err (ErrJSON "cannot unmarshal into Go value of type pool.VMSlot")
  end.

Definition unmarshalStateField (st : PersistentState) (kv : string * json)
    : result PersistentState :=
  let '(k, j) := kv in
  if decide (k = "slots") then
    match j with
    | JNull => Ok st
    | JArr l =>
        slots ← mapM unmarshalSlot l; Ok (mkPersistentState slots (Counter st))
    | _ => Err (ErrJSON "cannot unmarshal into Go value of type []pool.VMSlot")
    end
  else if decide (k = "counter") then
    c ← unmarshalInt (Counter st) j; Ok (mkPersistentState (Slots st) c)
  else Ok st.

(** [json.Unmarshal(data, &state)] with [state] the zero value. *)
Definition unmarshalState (f : file) : result PersistentState :=
  match f with
  | FileGarbage => Err (ErrJSON "invalid character")
  | FileJSON JNull => Ok (mkPersistentState [] 0)
  | FileJSON (JObj o) =>
      unmarshalFields unmarshalStateField (mkPersistentState [] 0) o
  | FileJSON _ =>
      Err (ErrJSON "cannot unmarshal into Go value of type pool.PersistentState")
  end.

(** [stateStore.Load].  [disk] is the content of the store's path ([None]:
    no such file); [rd] is a read failure other than absence. *)
Definition Load (rd : option error) (disk : option file) : result PersistentState :=
  match rd with
  | Some e => Err (ErrWrap "reading pool state" e)
  | None =>
      match disk with
      | None => Ok (mkPersistentState [] 0)
      | Some f => wrapErr "parsing pool state" (unmarshalState f)
      end
  end.

(** [stateStore.Save]: the returned error and the new content of the path. *)
Definition Save (io : io_outcome) (state : PersistentState) (disk : option file)
    : option error * option file :=
  match io with
  | IoMkdirErr e => (Some e, disk)
  | _ =>
      match marshalState state with
      | None => (Some (ErrJSON "Time.MarshalJSON: year outside of range [0,9999]"), disk)
      | Some doc =>
          match io with
          | IoWriteErr e after => (Some e, after)
          | _ => (None, Some (FileJSON doc))
          end
      end
  end.

(** A well-formed snapshot: its strings are valid UTF-8, its instants can
    be written as JSON, its counter is an [int]. *)
Definition wfSlot (s : VMSlot) : Prop :=
  utf8 (Name s) = Name s ∧ utf8 (State s) = State s ∧
  utf8 (AgentID s) = AgentID s ∧ utf8 (Project s) = Project s ∧
  utf8 (Tool s) = Tool s ∧ utf8 (Branch s) = Branch s ∧
  utf8 (Issue s) = Issue s ∧ utf8 (VMIP s) = VMIP s ∧
  is_Some (MarshalTime (CreatedAt s)) ∧ is_Some (MarshalTime (ClaimedAt s)).

Definition wfState (st : PersistentState) : Prop :=
  Forall wfSlot (Slots st) ∧ in_range (Counter st).

(** [Time.UnmarshalJSON] reads back what [Time.MarshalJSON] wrote. *)
Definition timeRoundTrip : Prop :=
  ∀ t text, MarshalTime t = Some text → UnmarshalTime text = Some t.

End stateStore.

(** *** The manager *)

(** [Manager]: configuration, slot table, name counter; [disk] is the
    content of the store's file and [stopped] tells whether [stopCh] is
    closed.  The mutex is the atomicity of the functions below. *)
Record Manager : Type := mkManager {
  cfg : PoolConfig;
  slots : list VMSlot;
  counter : Z;
  disk : option file;
  stopped : bool
}.

Definition set_slots (l : list VMSlot) (m : Manager) : Manager :=
  mkManager (cfg m) l (counter m) (disk m) (stopped m).
Definition set_counter (c : Z) (m : Manager) : Manager :=
  mkManager (cfg m) (slots m) c (disk m) (stopped m).
Definition set_disk (d : option file) (m : Manager) : Manager :=
  mkManager (cfg m) (slots m) (counter m) d (stopped m).

Section Manager.

Context `{Codec}.


Definition Stop (m : Manager) : Manager :=
  mkManager (cfg m) (slots m) (counter m) (disk m) true.

(** [m.persist()]: save the table and the counter. *)
Definition persist (io : io_outcome) (m : Manager) : option error * Manager :=
  let '(err, d) := Save io (mkPersistentState (slots m) (counter m)) (disk m) in
  (err, set_disk d m).

(** [Claim].  [now] is [time.Now()], [getVMIP name] the result of
    [lima.GetVMIP] for that VM.  A failed IP lookup and a failed persist
    are logged only.  (The [go m.Replenish] that a successful claim
    starts is a separate run of [Replenish].) *)
Definition Claim (now : Time) (getVMIP : string → result string)
    (io : io_outcome) (agentID project : string) (m : Manager)
    : result VMSlot * Manager :=
  match list_find (λ s, State s = SlotIdle) (slots m) with
  | Some (i, s) =>
      let s1 := set_ClaimedAt now
                  (set_Project project (set_AgentID agentID (set_State SlotActive s))) in
      let s2 := match getVMIP (Name s1) with
                | Err _ => s1
                | Ok ip => set_VMIP ip s1
                end in
      let m1 := set_slots (<[i := s2]> (slots m)) m in
      (Ok s2, (persist io m1).2)
  | None => (Err ErrNoWarmVMs, m)
  end.

(** [Release]: the first slot of that name goes cold; the result is the
    result of the persist. *)
Definition Release (io : io_outcome) (name : string) (m : Manager)
    : option error * Manager :=
  match list_find (λ s, Name s = name) (slots m) with
  | Some (i, s) =>
      let s' := set_Project "" (set_AgentID "" (set_State SlotCold s)) in
      persist io (set_slots (<[i := s']> (slots m)) m)
  | None => (Some (ErrVMNotFound name), m)
  end.

(** [Destroy]: the record goes first, then the VM; [del] is the result
    of [client.Delete(ctx, name, true)]. *)
Definition Destroy (io : io_outcome) (del : option error) (name : string)
    (m : Manager) : option error * Manager :=
  match list_find (λ s, Name s = name) (slots m) with
  | None => (Some (ErrVMNotFound name), m)
  | Some (idx, _) =>
      let m1 := (persist io (set_slots (delete idx (slots m)) m)).2 in
      match del with
      | Some e => (Some (ErrWrap ("deleting VM " +:+ name) e), m1)
      | None => (None, m1)
      end
  end.

(** The first critical section of [Replenish]: how many VMs to create,
    [None] when the run returns at once. *)
Definition replenishNeeded (m : Manager) : option Z :=
  let warmCount := len (filter (λ s, State s = SlotIdle) (slots m)) in
  let total := len (slots m) in
  let needed := Go.sub (WarmSize (cfg m)) warmCount in
  if decide (needed ≤ 0 ∨ Go.add total needed > MaxVMs (cfg m)) then
    let needed :=
      if decide (Go.add total needed > MaxVMs (cfg m))
      then Go.sub (MaxVMs (cfg m)) total else needed in
    if decide (needed ≤ 0) then None else Some needed
  else Some needed.

(** [fmt.Sprintf("warm-%d", counter)]. *)
Definition warmName (counter : Z) : string := "warm-" +:+ pretty counter.

(** The second critical section: count up, insert a slot in state
    creating under the new name, persist. *)
Definition replenishReserve (now : Time) (io : io_outcome) (m : Manager)
    : string * Manager :=
  let c := Go.add (counter m) 1 in
  let name := warmName c in
  let slot := mkVMSlot name SlotCreating "" "" "" "" "" "" now 0 in
  (name, (persist io (set_counter c (set_slots (slots m ++ [slot]) m))).2).

(** The third critical section, after the clone returned [clone]: on an
    error remove the first slot of that name, otherwise make it idle;
    persist. *)
Definition replenishResolve (clone : option error) (name : string)
    (io : io_outcome) (m : Manager) : Manager :=
  let l :=
    match list_find (λ s, Name s = name) (slots m) with
    | None => slots m
    | Some (j, s) =>
        match clone with
        | Some _ => delete j (slots m)
        | None => <[j := set_State SlotIdle s]> (slots m)
        end
    end in
  (persist io (set_slots l m)).2.

(** What one round of the loop of [Replenish] meets: whether [ctx] is
    done, the clock, the result of [client.Clone] and of the two
    persists. *)
Record ReplenishTick : Type := mkTick {
  tick_done : bool;
  tick_now : Time;
  tick_clone : option error;
  tick_io_insert : io_outcome;
  tick_io_resolve : io_outcome
}.

(** The loop [for i := 0; i < needed; i++], from round [i] with [n]
    rounds to go.  It yields the manager after each critical section, in
    order. *)
Fixpoint replenishRounds (n i : nat) (env : nat → ReplenishTick) (m : Manager)
    : list Manager :=
  match n with
  | O => []
  | S n' =>
      let t := env i in
      if tick_done t || stopped m then []
      else
        let '(name, m1) := replenishReserve (tick_now t) (tick_io_insert t) m in
        let m2 := replenishResolve (tick_clone t) name (tick_io_resolve t) m1 in
        m1 :: m2 :: replenishRounds n' (S i) env m2
  end.

Definition ReplenishHistory (env : nat → ReplenishTick) (m : Manager)
    : list Manager :=
  match replenishNeeded m with
  | None => []
  | Some needed => replenishRounds (Z.to_nat needed) 0 env m
  end.

(** [Replenish]: the manager when the run returns. *)
Definition Replenish (env : nat → ReplenishTick) (m : Manager) : Manager :=
  default m (last (ReplenishHistory env m)).

(** [Drain]: destroy every slot that was idle when the table was read;
    [env k] holds the file and driver results of the [k]-th destroy. *)
Fixpoint destroyAll (k : nat) (env : nat → io_outcome * option error)
    (names : list string) (m : Manager) : Manager :=
  match names with
  | [] => m
  | name :: rest =>
      destroyAll (S k) env rest (Destroy (env k).1 (env k).2 name m).2
  end.

Definition Drain (env : nat → io_outcome * option error) (m : Manager)
    : option error * Manager :=
  let toDestroy := Name <$> filter (λ s, State s = SlotIdle) (slots m) in
  (None, destroyAll 0 env toDestroy m).

Definition Resize (warmSize : Z) (m : Manager) : Manager :=
  mkManager (mkPoolConfig warmSize (MaxVMs (cfg m)) (MasterName (cfg m)))
            (slots m) (counter m) (disk m) (stopped m).

Definition Status (m : Manager) : Z * Z * Z :=
  (len (filter (λ s, State s = SlotIdle) (slots m)),
   len (filter (λ s, State s = SlotActive) (slots m)),
   len (filter (λ s, State s = SlotCold) (slots m))).

Definition ActiveSlots (m : Manager) : list VMSlot :=
  filter (λ s, State s = SlotActive) (slots m).

(** [GetSlot]: the first slot whose name or agent ID is [name]. *)
Definition GetSlot (name : string) (m : Manager) : option VMSlot :=
  snd <$> list_find (λ s, Name s = name ∨ AgentID s = name) (slots m).

(** [reconcile]: [listing] is the result of [client.List], as the names
    of the instances; slots of VMs that are not listed go. *)
Definition reconcile (listing : result (list string)) (io : io_outcome)
    (m : Manager) : Manager :=
  match listing with
  | Err _ => m
  | Ok instances =>
      let kept := filter (λ s, Name s ∈ instances) (slots m) in
      (persist io (set_slots kept m)).2
  end.

(** The operations of the manager, each with what it meets outside. *)
Inductive Op : Type :=
| OpClaim (now : Time) (getVMIP : string → result string) (io : io_outcome)
          (agentID project : string)
| OpRelease (io : io_outcome) (name : string)
| OpDestroy (io : io_outcome) (del : option error) (name : string)
| OpReplenish (env : nat → ReplenishTick)
| OpDrain (env : nat → io_outcome * option error)
| OpResize (warmSize : Z)
| OpReconcile (listing : result (list string)) (io : io_outcome).

Definition applyOp (op : Op) (m : Manager) : Manager :=
  match op with
  | OpClaim now getVMIP io agentID project =>
      (Claim now getVMIP io agentID project m).2
  | OpRelease io name => (Release io name m).2
  | OpDestroy io del name => (Destroy io del name m).2
  | OpReplenish env => Replenish env m
  | OpDrain env => (Drain env m).2
  | OpResize n => Resize n m
  | OpReconcile listing io => reconcile listing io m
  end.

End Manager.

(** *** Predicates on the manager's state *)

(** A slot is active exactly when it carries an agent ID. *)
Definition slotOk (s : VMSlot) : Prop := State s = SlotActive ↔ AgentID s ≠ "".
Definition activeIffAgent (m : Manager) : Prop := ∀ s, s ∈ slots m → slotOk s.

(** No slot has a name that the counter has yet to hand out. *)
Definition namesFresh (m : Manager) : Prop :=
  ∀ k, counter m < k → warmName k ∉ Name <$> slots m.

(** No two slots have the same name. *)
Definition namesUnique (m : Manager) : Prop := NoDup (Name <$> slots m).

(** Sizes and counter far from the ends of the [int] range, so that the
    arithmetic of [Replenish] does not wrap. *)
Definition saneSizes (m : Manager) : Prop :=
  - 2 ^ 62 < WarmSize (cfg m) < 2 ^ 62 ∧
  - 2 ^ 62 < MaxVMs (cfg m) < 2 ^ 62 ∧
  - 2 ^ 62 < counter m < 2 ^ 62 ∧
  len (slots m) < 2 ^ 62.

(** One round of [Replenish] met [t], started from [before], inserted a
    slot in state creating ([m1]) and then settled it ([m2]): idle when
    the clone succeeded, removed when it failed. *)
Definition isRound (t : ReplenishTick) (before m1 m2 : Manager) : Prop :=
  let new := mkVMSlot (warmName (counter before + 1)) SlotCreating
                      "" "" "" "" "" "" (tick_now t) 0 in
  slots m1 = slots before ++ [new] ∧
  counter m1 = counter before + 1 ∧
  slots m2 = match tick_clone t with
             | None => slots before ++ [set_State SlotIdle new]
             | Some _ => slots before
             end ∧
  counter m2 = counter before + 1.

(** How many of [n] rounds, from round [i] on, pass before [ctx] is
    done. *)
Fixpoint roundsRun (n i : nat) (env : nat → ReplenishTick) : nat :=
  match n with
  | O => O
  | S n' => if tick_done (env i) then O else S (roundsRun n' (S i) env)
  end.

(** The state that round [k] of a history starts from. *)
Definition roundStart (m : Manager) (hist : list Manager) (k : nat)
    : option Manager :=
  match k with
  | O => Some m
  | S k' => hist !! (2 * k' + 1)%nat
  end.

(** An operation that claims does so for an agent with an ID. *)
Definition opNamesAgent (op : Op) : Prop :=
  match op with
  | OpClaim _ _ _ agentID _ => agentID ≠ ""
  | _ => True
  end.

(** [Replenish] is the operation that relies on fresh names. *)
Definition opReplenishes (op : Op) : Prop :=
  match op with
  | OpReplenish _ => True
  | _ => False
  end.

(** The states of a manager that starts with an empty table and a zero
    counter (its first boot), under the operations above; claims are for
    agents with an ID, and [Replenish] runs with sizes that do not wrap. *)
Inductive reachable `{Codec} : Manager → Prop :=
| reachable_boot cfg d : reachable (mkManager cfg [] 0 d false)
| reachable_op op m :
    reachable m → opNamesAgent op → (opReplenishes op → saneSizes m) →
    reachable (applyOp op m).

(** The slots that [n] full rounds of [Replenish], from round [i] on and
    with the counter at [c], leave at the end of the table: one idle slot
    for each clone that succeeded, named after the counter value of its
    round. *)
Fixpoint settled (n i : nat) (env : nat → ReplenishTick) (c : Z)
    : list VMSlot :=
  match n with
  | O => []
  | S n' =>
      match tick_clone (env i) with
      | None => [mkVMSlot (warmName (c + 1)) SlotIdle "" "" "" "" "" ""
                          (tick_now (env i)) 0]
      | Some _ => []
      end ++ settled n' (S i) env (c + 1)
  end.




(** A slot after [Release]. *)
Definition released (s : VMSlot) : VMSlot :=
  mkVMSlot (Name s) SlotCold "" "" (Tool s) (Branch s)
                (Issue s) (VMIP s) (CreatedAt s) (ClaimedAt s).

End pool.

(** ** Package [registry]: agent store, event fan-out, HTTP endpoint *)

Module registry.

Record AgentRegistration : Type := mkAgentRegistration {
  AgentID : string;
  VMName : string;
  VMIP : string;
  Project : string;
  Tool : string;
  Branch : string;
  Message : string;
  Ports : list Z;
  State : string;
  RegisteredAt : Time;
  LastHeartbeat : Time
}.

(** [type StoreEventType string] with its three constants. *)
Definition StoreEventType : Type := string.
Definition EventAgentRegistered : StoreEventType := "agent.registered".
Definition EventAgentDeregistered : StoreEventType := "agent.deregistered".
Definition EventAgentUpdated : StoreEventType := "agent.updated".

(** [StoreEvent]; the field [Type] is [EventType] here.  The
    [*AgentRegistration] of an event is the registration as it is when
    the event is sent ([None] for nil). *)
Record StoreEvent : Type := mkStoreEvent {
  EventType : StoreEventType;
  EventAgentID : string;
  Agent : option AgentRegistration
}.

(** A [chan StoreEvent]: its identity, its capacity and the events
    queued in it, oldest first. *)
Record chan : Type := mkChan {
  chan_id : nat;
  chan_cap : nat;
  chan_buf : list StoreEvent
}.

(** [Store]: the agents (a [*AgentRegistration] is the record it points
    to), the subscribers in subscription order, the content of
    registry.json, and the identity of the next channel made. *)
Record Store : Type := mkStore {
  agents : gmap string AgentRegistration;
  subscribers : list chan;
  disk : option file;
  next_chan : nat
}.

Definition set_agents (a : gmap string AgentRegistration) (s : Store) : Store :=
  mkStore a (subscribers s) (disk s) (next_chan s).
Definition set_subscribers (l : list chan) (s : Store) : Store :=
  mkStore (agents s) l (disk s) (next_chan s).

Section Store.

Context `{Codec}.

(** [NewStore] where registry.json does not exist. *)
Definition NewStore : Store := mkStore ∅ [] None 0.

(** [Subscribe]: a new channel of capacity 64, appended. *)
Definition Subscribe (s : Store) : chan * Store :=
  let ch := mkChan (next_chan s) 64 [] in
  (ch, mkStore (agents s) (subscribers s ++ [ch]) (disk s) (S (next_chan s))).

(** [Unsubscribe]: the first subscriber that is this channel goes (and
    is closed). *)
Definition Unsubscribe (ch : nat) (s : Store) : Store :=
  match list_find (λ sub, chan_id sub = ch) (subscribers s) with
  | Some (i, _) => set_subscribers (delete i (subscribers s)) s
  | None => s
  end.

(** [select { case ch <- event: default: }]: queue the event if there is
    room, drop it otherwise. *)
Definition trySend (event : StoreEvent) (ch : chan) : chan :=
  if decide (length (chan_buf ch) < chan_cap ch)%nat
  then mkChan (chan_id ch) (chan_cap ch) (chan_buf ch ++ [event])
  else ch.

(** [notify]: offer the event to every subscriber, in order. *)
Definition notify (event : StoreEvent) (s : Store) : Store :=
  set_subscribers (trySend event <$> subscribers s) s.

(** [json.Marshal] of an [AgentRegistration]. *)
Definition marshalRegistration (r : AgentRegistration) : option json :=
  registered ← MarshalTime (RegisteredAt r);
  heartbeat ← MarshalTime (LastHeartbeat r);
  Some (JObj ([("agentID", JStr (utf8 (AgentID r)));
               ("vmName", JStr (utf8 (VMName r)));
               ("vmIP", JStr (utf8 (VMIP r)));
               ("project", JStr (utf8 (Project r)));
               ("tool", JStr (utf8 (Tool r)))]
              ++ omitempty "branch" (Branch r)
              ++ omitempty "message" (Message r)
              ++ match Ports r with
                 | [] => []
                 | ports => [("ports", JArr (JNum <$> ports))]
                 end
              ++ [("state", JStr (utf8 (State r)));
                  ("registeredAt", JStr registered);
                  ("lastHeartbeat", JStr heartbeat)])).

(** [json.MarshalIndent(s.agents, ...)]: one key per agent (the order
    of the keys is the order of the map's listing). *)
Definition marshalAgents (a : gmap string AgentRegistration) : option json :=
  kvs ← mapM (λ kv, j ← marshalRegistration kv.2; Some (utf8 kv.1, j))
             (map_to_list a);
  Some (JObj kvs).

(** [persist]: every failure is dropped.  When the directory cannot be
    made the write has nowhere to go. *)
Definition persist (io : io_outcome) (s : Store) : Store :=
  match marshalAgents (agents s) with
  | None => s
  | Some doc =>
      match io with
      | IoOk => mkStore (agents s) (subscribers s) (Some (FileJSON doc)) (next_chan s)
      | IoMkdirErr _ => s
      | IoWriteErr _ after => mkStore (agents s) (subscribers s) after (next_chan s)
      end
  end.

Definition Register (io : io_outcome) (reg : AgentRegistration) (s : Store)
    : Store :=
  let s1 := persist io (set_agents (<[AgentID reg := reg]> (agents s)) s) in
  notify (mkStoreEvent EventAgentRegistered (AgentID reg) (Some reg)) s1.

Definition Deregister (io : io_outcome) (agentID : string) (s : Store) : Store :=
  let agent := agents s !! agentID in
  let s1 := persist io (set_agents (delete agentID (agents s)) s) in
  notify (mkStoreEvent EventAgentDeregistered agentID agent) s1.

Definition Get (agentID : string) (s : Store) : option AgentRegistration :=
  agents s !! agentID.

(** [List], in the order of the map's listing. *)
Definition List (s : Store) : list AgentRegistration :=
  snd <$> map_to_list (agents s).

(** [UpdateState(agentID, state, message, branch)]: the state and the
    heartbeat are set, the message and the branch when they are not
    empty. *)
Definition UpdateState (now : Time) (io : io_outcome)
    (agentID state message branch : string) (s : Store) : option error * Store :=
  match agents s !! agentID with
  | None => (Some (ErrNotRegistered agentID), s)
  | Some reg =>
      let reg' :=
        mkAgentRegistration (AgentID reg) (VMName reg) (VMIP reg) (Project reg)
          (Tool reg)
          (if decide (branch ≠ "") then branch else Branch reg)
          (if decide (message ≠ "") then message else Message reg)
          (Ports reg) state (RegisteredAt reg) now in
      let s1 := persist io (set_agents (<[agentID := reg']> (agents s)) s) in
      (None, notify (mkStoreEvent EventAgentUpdated agentID (Some reg')) s1)
  end.

(** [UpdateState(agentID, state)], the two-argument method of
    internal/registry/store.go, which is the one that server.go calls:
    the state is set, nothing else, and no event is sent. *)
Definition UpdateState2 (io : io_outcome) (agentID state : string) (s : Store)
    : option error * Store :=
  match agents s !! agentID with
  | None => (Some (ErrNotRegistered agentID), s)
  | Some reg =>
      let reg' :=
        mkAgentRegistration (AgentID reg) (VMName reg) (VMIP reg) (Project reg)
          (Tool reg) (Branch reg) (Message reg) (Ports reg) state
          (RegisteredAt reg) (LastHeartbeat reg) in
      (None, persist io (set_agents (<[agentID := reg']> (agents s)) s))
  end.

(** *** The HTTP endpoint *)

(** The body of a response, by the value that [writeJSON] encodes. *)
Inductive ResponseBody : Type :=
| BodyRegister (ok : bool) (message : option error) (* RegisterResponse *)
| BodyError (e : error)                             (* {"error": e.Error()} *)
| BodyOk                                            (* {"ok": "true"} *)
| BodyAgents (l : list AgentRegistration)
| BodyHealth.                                       (* {"status": "ok"} *)

Record Response : Type := mkResponse {
  status : Z;
  body : ResponseBody
}.

Definition StatusOK : Z := 200.
Definition StatusBadRequest : Z := 400.
Definition StatusNotFound : Z := 404.

(** The anonymous struct that [handleStatus] decodes: agentID, state and
    message; any other key of the body, such as branch, is skipped. *)
Record statusReport : Type := mkStatusReport {
  report_AgentID : string;
  report_State : string;
  report_Message : string
}.

Definition unmarshalReportField (r : statusReport) (kv : string * json)
    : result statusReport :=
  let '(k, j) := kv in
  if decide (k = "agentID") then
    v ← unmarshalString (report_AgentID r) j;
    Ok (mkStatusReport v (report_State r) (report_Message r))
  else if decide (k = "state") then
    v ← unmarshalString (report_State r) j;
    Ok (mkStatusReport (report_AgentID r) v (report_Message r))
  else if decide (k = "message") then
    v ← unmarshalString (report_Message r) j;
    Ok (mkStatusReport (report_AgentID r) (report_State r) v)
  else Ok r.

(** [json.NewDecoder(r.Body).Decode(&report)]. *)
Definition decodeReport (reqBody : file) : result statusReport :=
  match reqBody with
  | FileGarbage => Err (ErrJSON "invalid character")
  | FileJSON JNull => Ok (mkStatusReport "" "" "")
  | FileJSON (JObj o) =>
      unmarshalFields unmarshalReportField (mkStatusReport "" "" "") o
  | FileJSON _ => Err (ErrJSON "cannot unmarshal into Go value of type struct")
  end.

(** [handleStatus] (POST /status).  The message is written to the log
    only. *)
Definition handleStatus (io : io_outcome) (reqBody : file) (s : Store)
    : Response * Store :=
  match decodeReport reqBody with
  | Err e => (mkResponse StatusBadRequest (BodyError e), s)
  | Ok report =>
      match UpdateState2 io (report_AgentID report) (report_State report) s with
      | (Some e, s') => (mkResponse StatusNotFound (BodyError e), s')
      | (None, s') => (mkResponse StatusOK BodyOk, s')
      end
  end.

End Store.

(** *** Reading registry.json back *)

(** The zero value [AgentRegistration{}]. *)
Definition zeroRegistration : AgentRegistration :=
  mkAgentRegistration "" "" "" "" "" "" "" [] "" 0 0.

Section load.

Context `{Codec}.

(** Decoding into a [[]int]: [null] makes it nil, an array replaces it
    element by element. *)
Definition unmarshalPorts (j : json) : result (list Z) :=
  match j with
  | JNull => Ok []
  | JArr l => mapM (unmarshalInt 0) l
  | _ => Err (ErrJSON "cannot unmarshal into Go value of type []int")
  end.

(** One key of an object decoded into an [AgentRegistration]; unknown
    keys are skipped.  Keys are matched exactly. *)
Definition unmarshalRegistrationField (r : AgentRegistration)
    (kv : string * json) : result AgentRegistration :=
  let '(k, j) := kv in
  if decide (k = "agentID") then
    v ← unmarshalString (AgentID r) j;
    Ok (mkAgentRegistration v (VMName r) (VMIP r) (Project r) (Tool r)
          (Branch r) (Message r) (Ports r) (State r) (RegisteredAt r)
          (LastHeartbeat r))
  else if decide (k = "vmName") then
    v ← unmarshalString (VMName r) j;
    Ok (mkAgentRegistration (AgentID r) v (VMIP r) (Project r) (Tool r)
          (Branch r) (Message r) (Ports r) (State r) (RegisteredAt r)
          (LastHeartbeat r))
  else if decide (k = "vmIP") then
    v ← unmarshalString (VMIP r) j;
    Ok (mkAgentRegistration (AgentID r) (VMName r) v (Project r) (Tool r)
          (Branch r) (Message r) (Ports r) (State r) (RegisteredAt r)
          (LastHeartbeat r))
  else if decide (k = "project") then
    v ← unmarshalString (Project r) j;
    Ok (mkAgentRegistration (AgentID r) (VMName r) (VMIP r) v (Tool r)
          (Branch r) (Message r) (Ports r) (State r) (RegisteredAt r)
          (LastHeartbeat r))
  else if decide (k = "tool") then
    v ← unmarshalString (Tool r) j;
    Ok (mkAgentRegistration (AgentID r) (VMName r) (VMIP r) (Project r) v
          (Branch r) (Message r) (Ports r) (State r) (RegisteredAt r)
          (LastHeartbeat r))
  else if decide (k = "branch") then
    v ← unmarshalString (Branch r) j;
    Ok (mkAgentRegistration (AgentID r) (VMName r) (VMIP r) (Project r) (Tool r)
          v (Message r) (Ports r) (State r) (RegisteredAt r)
          (LastHeartbeat r))
  else if decide (k = "message") then
    v ← unmarshalString (Message r) j;
    Ok (mkAgentRegistration (AgentID r) (VMName r) (VMIP r) (Project r) (Tool r)
          (Branch r) v (Ports r) (State r) (RegisteredAt r)
          (LastHeartbeat r))
  else if decide (k = "ports") then
    v ← unmarshalPorts j;
    Ok (mkAgentRegistration (AgentID r) (VMName r) (VMIP r) (Project r) (Tool r)
          (Branch r) (Message r) v (State r) (RegisteredAt r)
          (LastHeartbeat r))
  else if decide (k = "state") then
    v ← unmarshalString (State r) j;
    Ok (mkAgentRegistration (AgentID r) (VMName r) (VMIP r) (Project r) (Tool r)
          (Branch r) (Message r) (Ports r) v (RegisteredAt r)
          (LastHeartbeat r))
  else if decide (k = "registeredAt") then
    v ← unmarshalTime (RegisteredAt r) j;
    Ok (mkAgentRegistration (AgentID r) (VMName r) (VMIP r) (Project r) (Tool r)
          (Branch r) (Message r) (Ports r) (State r) v (LastHeartbeat r))
  else if decide (k = "lastHeartbeat") then
    v ← unmarshalTime (LastHeartbeat r) j;
    Ok (mkAgentRegistration (AgentID r) (VMName r) (VMIP r) (Project r) (Tool r)
          (Branch r) (Message r) (Ports r) (State r) (RegisteredAt r) v)
  else Ok r.

(** Decoding a value of the map, a [*AgentRegistration]: [null] is the
    nil pointer ([None]), an object a new registration. *)
Definition unmarshalRegistration (j : json) : result (option AgentRegistration) :=
  match j with
  | JNull => Ok None
  | JObj o => Some <$> unmarshalFields unmarshalRegistrationField zeroRegistration o
  | _ =>
      Err (ErrJSON "cannot unmarshal into Go value of type registry.AgentRegistration")
  end.

(** [json.Unmarshal(data, &agents)] with [agents] a nil map: the keys
    are set in document order. *)
Definition unmarshalAgents (f : file)
    : result (gmap string (option AgentRegistration)) :=
  match f with
  | FileGarbage => Err (ErrJSON "invalid character")
  | FileJSON JNull => Ok ∅
  | FileJSON (JObj o) =>
      unmarshalFields
        (λ (acc : gmap string (option AgentRegistration)) kv,
           v ← unmarshalRegistration kv.2; Ok (<[kv.1 := v]> acc)) ∅ o
  | FileJSON _ =>
      Err (ErrJSON "cannot unmarshal into Go value of type map[string]*registry.AgentRegistration")
  end.

(** [load]: the agents that [NewStore] starts with, by their pointers.
    [disk] is the content of registry.json ([None]: no such file, and
    the map stays empty); [rd] is a read failure other than absence. *)
Definition load (rd : option error) (disk : option file)
    : result (gmap string (option AgentRegistration)) :=
  match rd with
  | Some e => Err e
  | None =>
      match disk with
      | None => Ok ∅
      | Some f => unmarshalAgents f
      end
  end.

(** A registration, and a map of agents, that JSON can carry. *)
Definition wfRegistration (r : AgentRegistration) : Prop :=
  utf8 (AgentID r) = AgentID r ∧ utf8 (VMName r) = VMName r ∧
  utf8 (VMIP r) = VMIP r ∧ utf8 (Project r) = Project r ∧
  utf8 (Tool r) = Tool r ∧ utf8 (Branch r) = Branch r ∧
  utf8 (Message r) = Message r ∧ utf8 (State r) = State r ∧
  Forall in_range (Ports r) ∧
  is_Some (MarshalTime (RegisteredAt r)) ∧
  is_Some (MarshalTime (LastHeartbeat r)).

Definition wfAgents (a : gmap string AgentRegistration) : Prop :=
  ∀ k r, a !! k = Some r → utf8 k = k ∧ wfRegistration r.

End load.

(** *** The other HTTP endpoints *)

Record RegisterRequest : Type := mkRegisterRequest {
  req_AgentID : string;
  req_VMName : string;
  req_VMIP : string;
  req_Project : string;
  req_Tool : string;
  req_Ports : list Z
}.

Section Server.

Context `{Codec}.

Definition unmarshalRegisterField (r : RegisterRequest) (kv : string * json)
    : result RegisterRequest :=
  let '(k, j) := kv in
  if decide (k = "agentID") then
    v ← unmarshalString (req_AgentID r) j;
    Ok (mkRegisterRequest v (req_VMName r) (req_VMIP r) (req_Project r)
          (req_Tool r) (req_Ports r))
  else if decide (k = "vmName") then
    v ← unmarshalString (req_VMName r) j;
    Ok (mkRegisterRequest (req_AgentID r) v (req_VMIP r) (req_Project r)
          (req_Tool r) (req_Ports r))
  else if decide (k = "vmIP") then
    v ← unmarshalString (req_VMIP r) j;
    Ok (mkRegisterRequest (req_AgentID r) (req_VMName r) v (req_Project r)
          (req_Tool r) (req_Ports r))
  else if decide (k = "project") then
    v ← unmarshalString (req_Project r) j;
    Ok (mkRegisterRequest (req_AgentID r) (req_VMName r) (req_VMIP r) v
          (req_Tool r) (req_Ports r))
  else if decide (k = "tool") then
    v ← unmarshalString (req_Tool r) j;
    Ok (mkRegisterRequest (req_AgentID r) (req_VMName r) (req_VMIP r)
          (req_Project r) v (req_Ports r))
  else if decide (k = "ports") then
    v ← unmarshalPorts j;
    Ok (mkRegisterRequest (req_AgentID r) (req_VMName r) (req_VMIP r)
          (req_Project r) (req_Tool r) v)
  else Ok r.

(** [json.NewDecoder(r.Body).Decode(&req)] for the two request types. *)
Definition decodeRegisterRequest (reqBody : file) : result RegisterRequest :=
  match reqBody with
  | FileGarbage => Err (ErrJSON "invalid character")
  | FileJSON JNull => Ok (mkRegisterRequest "" "" "" "" "" [])
  | FileJSON (JObj o) =>
      unmarshalFields unmarshalRegisterField
        (mkRegisterRequest "" "" "" "" "" []) o
  | FileJSON _ =>
      Err (ErrJSON "cannot unmarshal into Go value of type registry.RegisterRequest")
  end.

Definition decodeDeregisterRequest (reqBody : file) : result string :=
  match reqBody with
  | FileGarbage => Err (ErrJSON "invalid character")
  | FileJSON JNull => Ok ""
  | FileJSON (JObj o) =>
      unmarshalFields
        (λ (id : string) kv,
           if decide (kv.1 = "agentID") then unmarshalString id kv.2 else Ok id)
        "" o
  | FileJSON _ =>
      Err (ErrJSON "cannot unmarshal into Go value of type registry.DeregisterRequest")
  end.

(** [handleRegister] (POST /register).  [now1] and [now2] are the two
    readings of the clock; the third component is the registration that
    [onRegister] is called with, when the server has such a callback. *)
Definition handleRegister (hasCallback : bool) (now1 now2 : Time)
    (io : io_outcome) (reqBody : file) (s : Store)
    : Response * Store * option AgentRegistration :=
  match decodeRegisterRequest reqBody with
  | Err e => (mkResponse StatusBadRequest (BodyRegister false (Some e)), s, None)
  | Ok req =>
      let reg :=
        mkAgentRegistration (req_AgentID req) (req_VMName req) (req_VMIP req)
          (req_Project req) (req_Tool req) "" "" (req_Ports req) "registered"
          now1 now2 in
      (mkResponse StatusOK (BodyRegister true None), Register io reg s,
       if hasCallback then Some reg else None)
  end.

(** [handleDeregister] (POST /deregister). *)
Definition handleDeregister (io : io_outcome) (reqBody : file) (s : Store)
    : Response * Store :=
  match decodeDeregisterRequest reqBody with
  | Err e => (mkResponse StatusBadRequest (BodyRegister false (Some e)), s)
  | Ok agentID =>
      (mkResponse StatusOK (BodyRegister true None), Deregister io agentID s)
  end.

(** [handleListAgents] (GET /agents) and [handleHealth] (GET /health). *)
Definition handleListAgents (s : Store) : Response :=
  mkResponse StatusOK (BodyAgents (List s)).

Definition handleHealth : Response := mkResponse StatusOK BodyHealth.

End Server.

(** The subscriber channels are distinct, and older than the next one
    to be made. *)
Definition subsOk (s : Store) : Prop :=
  NoDup (chan_id <$> subscribers s) ∧
  ∀ ch, ch ∈ subscribers s → (chan_id ch < next_chan s)%nat.

End registry.

(** ** Package [network]: the route files *)

Module network.

(** [strings.ReplaceAll(s, old, new)] for one-byte [old] and [new]. *)
Fixpoint replaceByte (old new : Ascii.ascii) (s : string) : string :=
  match s with
  | EmptyString => EmptyString
  | String c rest =>
      String (if decide (c = old) then new else c) (replaceByte old new rest)
  end.

Definition dot : Ascii.ascii := Ascii.ascii_of_nat 46.
Definition slash : Ascii.ascii := Ascii.ascii_of_nat 47.
Definition dash : Ascii.ascii := Ascii.ascii_of_nat 45.

(** [sanitize]: dots, then slashes, become dashes. *)
Definition sanitize (s : string) : string :=
  replaceByte slash dash (replaceByte dot dash s).

Record TraefikWriter : Type := mkTraefikWriter {
  dynamicDir : string;
  domain : string;
  httpOnly : bool
}.

Definition newline : string := String (Ascii.ascii_of_nat 10) "".
Definition quote : string := String (Ascii.ascii_of_nat 34) "".
Definition backtick : string := String (Ascii.ascii_of_nat 96) "".

(** [SubdomainFor]. *)
Definition SubdomainFor (tw : TraefikWriter) (agentID project : string) : string :=
  agentID +:+ "." +:+ project +:+ "." +:+ domain tw.

(** The name, inside [dynamicDir], of the route file of an agent. *)
Definition routeFile (agentID : string) : string := sanitize agentID +:+ ".yaml".

(** The content that [WriteRoute] writes. *)
Definition routeConfig (tw : TraefikWriter) (reg : registry.AgentRegistration)
    : string :=
  let routerName := sanitize (registry.AgentID reg) in
  let serviceName := sanitize (registry.AgentID reg) +:+ "-svc" in
  let host := registry.AgentID reg +:+ "." +:+ registry.Project reg +:+ "."
              +:+ domain tw in
  let port := match registry.Ports reg with
              | [] => 8080
              | p :: _ => p
              end in
  let entryPoint := if httpOnly tw then "web" else "websecure" in
  let tlsLine := if httpOnly tw then "" else newline +:+ "      tls: {}" in
  "# Auto-generated route for agent " +:+ registry.AgentID reg +:+ newline +:+
  "http:" +:+ newline +:+
  "  routers:" +:+ newline +:+
  "    " +:+ routerName +:+ ":" +:+ newline +:+
  "      rule: " +:+ quote +:+ "Host(" +:+ backtick +:+ host +:+ backtick +:+ ")"
    +:+ quote +:+ newline +:+
  "      service: " +:+ serviceName +:+ newline +:+
  "      entryPoints:" +:+ newline +:+
  "        - " +:+ entryPoint +:+ tlsLine +:+ newline +:+
  newline +:+
  "  services:" +:+ newline +:+
  "    " +:+ serviceName +:+ ":" +:+ newline +:+
  "      loadBalancer:" +:+ newline +:+
  "        servers:" +:+ newline +:+
  "          - url: " +:+ quote +:+ "http://" +:+ registry.VMIP reg +:+ ":"
    +:+ pretty port +:+ quote +:+ newline.

(** [WriteRoute], on the files of [dynamicDir] by name.  [mk] is the
    failure of [os.MkdirAll], [wr] that of [os.WriteFile] with what it
    leaves under the name. *)
Definition WriteRoute (tw : TraefikWriter) (mk : option error)
    (wr : option (error * option string)) (reg : registry.AgentRegistration)
    (dir : gmap string string) : option error * gmap string string :=
  match mk with
  | Some e => (Some e, dir)
  | None =>
      let filename := routeFile (registry.AgentID reg) in
      match wr with
      | Some (e, after) => (Some e, partial_alter (λ _, after) filename dir)
      | None => (None, <[filename := routeConfig tw reg]> dir)
      end
  end.

(** [RemoveRoute].  [rm] is a failure of [os.Remove] other than the
    absence of the file, which is no error. *)
Definition RemoveRoute (rm : option error) (agentID : string)
    (dir : gmap string string) : option error * gmap string string :=
  match rm with
  | Some e => (Some e, dir)
  | None => (None, delete (routeFile agentID) dir)
  end.

End network.

(** ** Package [ws]: the log stream manager *)

Module ws.

(** [logStream]: [cancel] is the stream's cancellation token, [clients]
    the set [map[*Client]bool] (a client is its identity). *)
Record logStream : Type := mkLogStream {
  agentID : string;
  vmName : string;
  cancel : nat;
  clients : gset nat
}.

(** [LogStreamManager]: the streams by agent ID.  [started] lists, in
    order, the [runStream] tasks that were launched, each with its token
    and its agent; [cancelled] holds the tokens whose [cancel] was called;
    [next_token] is the token of the next [context.WithCancel]. *)
Record LogStreamManager : Type := mkLogStreamManager {
  streams : gmap string logStream;
  started : list (nat * string);
  cancelled : gset nat;
  next_token : nat
}.

Definition NewLogStreamManager : LogStreamManager :=
  mkLogStreamManager ∅ [] ∅ 0.

Definition addClient (client : nat) (st : logStream) : logStream :=
  mkLogStream (agentID st) (vmName st) (cancel st) ({[client]} ∪ clients st).

Definition removeClient (client : nat) (st : logStream) : logStream :=
  mkLogStream (agentID st) (vmName st) (cancel st) (clients st ∖ {[client]}).

(** [Subscribe]: start the agent's stream if there is none (and the pool
    has a slot for the agent), then add the client. *)
Definition Subscribe (pm : pool.Manager) (agentID : string) (client : nat)
    (m : LogStreamManager) : LogStreamManager :=
  match streams m !! agentID with
  | Some stream =>
      mkLogStreamManager (<[agentID := addClient client stream]> (streams m))
                         (started m) (cancelled m) (next_token m)
  | None =>
      match pool.GetSlot agentID pm with
      | None => m
      | Some slot =>
          let stream := mkLogStream agentID (pool.Name slot) (next_token m) ∅ in
          mkLogStreamManager (<[agentID := addClient client stream]> (streams m))
                             (started m ++ [(next_token m, agentID)])
                             (cancelled m) (S (next_token m))
      end
  end.

(** [Unsubscribe]: remove the client; with no client left, cancel the
    token and delete the record. *)
Definition Unsubscribe (agentID : string) (client : nat)
    (m : LogStreamManager) : LogStreamManager :=
  match streams m !! agentID with
  | None => m
  | Some stream =>
      let stream' := removeClient client stream in
      let remaining := size (clients stream') in
      if decide (remaining = 0%nat) then
        mkLogStreamManager (delete agentID (streams m)) (started m)
                           ({[cancel stream]} ∪ cancelled m) (next_token m)
      else
        mkLogStreamManager (<[agentID := stream']> (streams m)) (started m)
                           (cancelled m) (next_token m)
  end.

(** [UnsubscribeAll]: the loop over the streams; its body is that of
    [Unsubscribe] for the agent at hand.  (The order of a Go map range is
    not fixed; the streams are visited in the order of the map's
    listing.) *)
Definition UnsubscribeAll (client : nat) (m : LogStreamManager)
    : LogStreamManager :=
  foldl (λ acc kv, Unsubscribe kv.1 client acc) m (map_to_list (streams m)).

(** [StopAll]: cancel every token and start from an empty map. *)
Definition StopAll (m : LogStreamManager) : LogStreamManager :=
  mkLogStreamManager ∅ (started m)
    (list_to_set (cancel <$> (snd <$> map_to_list (streams m))) ∪ cancelled m)
    (next_token m).

(** The log-tail tasks of an agent whose token is not cancelled. *)
Definition liveStreams (m : LogStreamManager) (agent : string)
    : list (nat * string) :=
  filter (λ p, p.2 = agent ∧ p.1 ∉ cancelled m) (started m).

Inductive Op : Type :=
| OpSubscribe (pm : pool.Manager) (agentID : string) (client : nat)
| OpUnsubscribe (agentID : string) (client : nat)
| OpUnsubscribeAll (client : nat)
| OpStopAll.

Definition applyOp (op : Op) (m : LogStreamManager) : LogStreamManager :=
  match op with
  | OpSubscribe pm agentID client => Subscribe pm agentID client m
  | OpUnsubscribe agentID client => Unsubscribe agentID client m
  | OpUnsubscribeAll client => UnsubscribeAll client m
  | OpStopAll => StopAll m
  end.

(** The manager after a sequence of calls, first call first. *)
Definition run (ops : list Op) : LogStreamManager :=
  foldl (λ m op, applyOp op m) NewLogStreamManager ops.

(** The invariant of the manager: a stream on record is filed under its
    agent, has a client, and its token is not cancelled and belongs to a
    task that was started for that agent; a started task is cancelled or
    is the one on record for its agent; tokens are handed out once, in
    increasing order. *)
Definition streamsInv (m : LogStreamManager) : Prop :=
  (∀ a st, streams m !! a = Some st →
     agentID st = a ∧ clients st ≠ ∅ ∧ (cancel st ∉ cancelled m) ∧
     (cancel st, a) ∈ started m) ∧
  (∀ tok a, (tok, a) ∈ started m →
     (tok < next_token m)%nat ∧
     (tok ∈ cancelled m ∨ ∃ st, streams m !! a = Some st ∧ cancel st = tok)) ∧
  (∀ tok, tok ∈ cancelled m → (tok < next_token m)%nat) ∧
  NoDup (fst <$> started m).

(** From [m] to [m']: the stream that [m] had for an agent is still on
    record, with the same token and a client, or its token is cancelled. *)
Definition emptiedAreCancelled (m m' : LogStreamManager) : Prop :=
  ∀ a st, streams m !! a = Some st →
    match streams m' !! a with
    | Some st' => cancel st' = cancel st ∧ clients st' ≠ ∅
    | None => cancel st ∈ cancelled m'
    end.

(** From [m] to [m']: no token is un-cancelled, no stream appears, and
    the stream of an agent keeps its token or has it cancelled. *)
Definition tokensKept (m m' : LogStreamManager) : Prop :=
  cancelled m ⊆ cancelled m' ∧
  ∀ a, match streams m !! a with
       | None => streams m' !! a = None
       | Some st =>
           match streams m' !! a with
           | Some st' => cancel st' = cancel st
           | None => cancel st ∈ cancelled m'
           end
       end.

(** What [Unsubscribe] and the body of the loop of [UnsubscribeAll] do
    to one stream. *)
Definition afterLeave (c : nat) (st : logStream) : option logStream :=
  if decide (clients st ∖ {[c]} = ∅) then None else Some (removeClient c st).

End ws.

(** ** Package [lima]: the VM driver *)

Module lima.

(** [type InstanceStatus string] with its three constants. *)
Definition InstanceStatus : Type := string.
Definition StatusRunning : InstanceStatus := "Running".
Definition StatusStopped : InstanceStatus := "Stopped".
Definition StatusUnknown : InstanceStatus := "".

End lima.

(** ** Package [orchestrator]: task configuration and dispatch *)

Module orchestrator.

Record TaskConfig : Type := mkTaskConfig {
  AgentID : string;
  Project : string;
  RepoURL : string;
  Issue : string;
  Tool : string;
  Prompt : string;
  Branch : string;
  MaxTime : Z;
  MaxTokens : Z;
  EnvVars : gmap string string;
  HostAddr : string;
  DispatchedAt : Time
}.

Definition validTools : gmap string bool :=
  list_to_map [("claude-code", true); ("opencode", true);
               ("amp", true); ("cline", true)].

(** [ValidateTask]: the error, or the task with its defaults filled in
    (the Go function fills them into [*tc]). *)
Definition ValidateTask (tc : TaskConfig) : result TaskConfig :=
  if decide (Project tc = "") then Err (ErrRequired "project")
  else if decide (RepoURL tc = "") then Err (ErrRequired "repoURL")
  else if decide (Prompt tc = "") then Err (ErrRequired "prompt")
  else if negb (default false (validTools !! Tool tc))
  then Err (ErrInvalidTool (Tool tc))
  else
    let maxTime := if decide (MaxTime tc ≤ 0) then 30 else MaxTime tc in
    let branch :=
      if decide (Branch tc = "")
      then "agent/" +:+ Project tc +:+ "/" +:+ AgentID tc
      else Branch tc in
    Ok (mkTaskConfig (AgentID tc) (Project tc) (RepoURL tc) (Issue tc)
          (Tool tc) (Prompt tc) branch maxTime (MaxTokens tc) (EnvVars tc)
          (HostAddr tc) (DispatchedAt tc)).

Record DispatchRequest : Type := mkDispatchRequest {
  req_Project : string;
  req_RepoURL : string;
  req_Issue : string;
  req_Tool : string;
  req_Prompt : string;
  req_Branch : string;
  req_MaxTime : Z;
  req_MaxTokens : Z;
  req_EnvVars : gmap string string
}.

Record DispatchResult : Type := mkDispatchResult {
  res_AgentID : string;
  res_VMName : string;
  res_VMIP : string
}.

(** What one [Dispatch] meets outside: the clock (for the agent ID, for
    the task and inside [Claim]), the IP lookup and the persist of
    [Claim], the results of writing the task file, copying it into the
    VM, writing the env file, copying it, and restarting the runner, and
    the persist of a [Release]. *)
Record DispatchEnv : Type := mkDispatchEnv {
  unixNano : Z;
  dispatchedAt : Time;
  claimedAt : Time;
  getVMIP : string → result string;
  claimIO : io_outcome;
  writeTask : TaskConfig → option error;
  copyTask : option error;
  writeEnv : string → option error;
  copyEnv : option error;
  restart : option error;
  releaseIO : io_outcome
}.

Section Dispatch.

Context `{Codec}.

Definition newline : string := String (Ascii.ascii_of_nat 10) "".

(** [fmt.Sprintf("agent-%d", time.Now().UnixNano()%100000)]. *)
Definition newAgentID (env : DispatchEnv) : string :=
  "agent-" +:+ pretty (Z.rem (unixNano env) 100000).

(** The task that [Dispatch] builds from the request. *)
Definition newTask (env : DispatchEnv) (hostAddr : string)
    (req : DispatchRequest) : TaskConfig :=
  mkTaskConfig (newAgentID env) (req_Project req) (req_RepoURL req)
    (req_Issue req) (req_Tool req) (req_Prompt req) (req_Branch req)
    (req_MaxTime req) (req_MaxTokens req) (req_EnvVars req) hostAddr
    (dispatchedAt env).

(** The content of the env file (the request's variables in the order of
    the map's listing). *)
Definition envContent (agentID project hostAddr : string)
    (vars : gmap string string) : string :=
  foldl (λ acc kv, acc +:+ kv.1 +:+ "=" +:+ kv.2 +:+ newline)
        ("AGENT_ID=" +:+ agentID +:+ newline +:+
         "AGENT_PROJECT=" +:+ project +:+ newline +:+
         "AGENT_HOST=" +:+ hostAddr +:+ newline)
        (map_to_list vars).

(** The rollback of a failed step: release the slot, return the error
    with its context. *)
Definition failAfterClaim (env : DispatchEnv) (slot : pool.VMSlot)
    (ctx : string) (e : error) (pm : pool.Manager)
    : result DispatchResult * pool.Manager :=
  (Err (ErrWrap ctx e), (pool.Release (releaseIO env) (pool.Name slot) pm).2).

(** [Orchestrator.Dispatch], on the pool manager it holds. *)
Definition Dispatch (env : DispatchEnv) (hostAddr : string)
    (req : DispatchRequest) (pm : pool.Manager)
    : result DispatchResult * pool.Manager :=
  let agentID := newAgentID env in
  match ValidateTask (newTask env hostAddr req) with
  | Err e => (Err (ErrWrap "invalid task" e), pm)
  | Ok task =>
      match pool.Claim (claimedAt env) (getVMIP env) (claimIO env)
                       agentID (req_Project req) pm with
      | (Err e, pm1) => (Err (ErrWrap "claiming VM" e), pm1)
      | (Ok slot, pm1) =>
          match writeTask env task with
          | Some e => failAfterClaim env slot "writing task config" e pm1
          | None =>
          match copyTask env with
          | Some e => failAfterClaim env slot "injecting task config" e pm1
          | None =>
          match writeEnv env (envContent agentID (req_Project req) hostAddr
                                         (req_EnvVars req)) with
          | Some e => failAfterClaim env slot "writing env file" e pm1
          | None =>
          match copyEnv env with
          | Some e => failAfterClaim env slot "injecting env config" e pm1
          | None =>
          match restart env with
          | Some e => failAfterClaim env slot "restarting harness" e pm1
          | None =>
              (Ok (mkDispatchResult agentID (pool.Name slot) (pool.VMIP slot)),
               pm1)
          end end end end end
      end
  end.

End Dispatch.

(** *** The monitor *)

(** What [checkAgents] meets at one active slot: the result of
    [limaClient.Get], as the status of the instance it returns, and the
    persist of a [Release].  (The answer of [systemctl is-active] for a
    running VM goes to the log only.) *)
Record CheckTick : Type := mkCheckTick {
  check_get : result lima.InstanceStatus;
  check_releaseIO : io_outcome
}.

(** The VM is not there or not running. *)
Definition vmGone (t : CheckTick) : bool :=
  match check_get t with
  | Err _ => true
  | Ok status => bool_decide (status ≠ lima.StatusRunning)
  end.

Section Monitor.

Context `{Codec}.

(** The loop of [checkAgents] over the active slots, from its [k]-th
    round on. *)
Fixpoint checkEach (k : nat) (env : nat → CheckTick)
    (active : list pool.VMSlot) (pm : pool.Manager) : pool.Manager :=
  match active with
  | [] => pm
  | slot :: rest =>
      let released :=
        (pool.Release (check_releaseIO (env k)) (pool.Name slot) pm).2 in
      let pm' :=
        match check_get (env k) with
        | Err _ => released
        | Ok status =>
            if decide (status ≠ lima.StatusRunning) then released else pm
        end in
      checkEach (S k) env rest pm'
  end.

(** [Monitor.checkAgents], on the pool manager it holds. *)
Definition checkAgents (env : nat → CheckTick) (pm : pool.Manager)
    : pool.Manager :=
  checkEach 0 env (pool.ActiveSlots pm) pm.

End Monitor.

(** *** The task file *)

(** The zero value [TaskConfig{}]. *)
Definition zeroTask : TaskConfig :=
  mkTaskConfig "" "" "" "" "" "" "" 0 0 ∅ "" 0.

(** The order in which [encoding/json] writes the keys of a map: by the
    bytes of the key. *)
Definition keyLe (a b : string * string) : Prop := String.leb a.1 b.1 = true.

Global Instance keyLe_dec a b : Decision (keyLe a b).
Proof. unfold keyLe. apply _. Defined.

Section taskFile.

Context `{Codec}.

(** [json.Marshal] of a [map[string]string]. *)
Definition marshalStringMap (m : gmap string string) : json :=
  JObj ((λ kv, (utf8 kv.1, JStr (utf8 kv.2)))
          <$> merge_sort keyLe (map_to_list m)).

(** Decoding into a [map[string]string] that holds [cur]: [null] makes
    it nil; an object keeps the entries there are and sets each of its
    keys, in document order, to the string decoded into a zero
    element. *)
Definition unmarshalStringMap (cur : gmap string string) (j : json)
    : result (gmap string string) :=
  match j with
  | JNull => Ok ∅
  | JObj o =>
      unmarshalFields
        (λ acc kv, v ← unmarshalString "" kv.2; Ok (<[kv.1 := v]> acc)) cur o
  | _ => Err (ErrJSON "cannot unmarshal into Go value of type map[string]string")
  end.

(** [json.MarshalIndent] of a [TaskConfig], field by field in
    declaration order; [omitempty] drops an empty issue, a zero
    [maxTokens] and an empty [envVars]. *)
Definition marshalTask (tc : TaskConfig) : option json :=
  dispatched ← MarshalTime (DispatchedAt tc);
  Some (JObj ([("agentID", JStr (utf8 (AgentID tc)));
               ("project", JStr (utf8 (Project tc)));
               ("repoURL", JStr (utf8 (RepoURL tc)))]
              ++ omitempty "issue" (Issue tc)
              ++ [("tool", JStr (utf8 (Tool tc)));
                  ("prompt", JStr (utf8 (Prompt tc)));
                  ("branch", JStr (utf8 (Branch tc)));
                  ("maxTime", JNum (MaxTime tc))]
              ++ (if decide (MaxTokens tc = 0) then []
                  else [("maxTokens", JNum (MaxTokens tc))])
              ++ (if decide (EnvVars tc = ∅) then []
                  else [("envVars", marshalStringMap (EnvVars tc))])
              ++ [("hostAddr", JStr (utf8 (HostAddr tc)));
                  ("dispatchedAt", JStr dispatched)])).

(** One key of an object decoded into a [TaskConfig]; unknown keys are
    skipped.  Keys are matched exactly. *)
Definition unmarshalTaskField (tc : TaskConfig) (kv : string * json)
    : result TaskConfig :=
  let '(k, j) := kv in
  if decide (k = "agentID") then
    v ← unmarshalString (AgentID tc) j;
    Ok (mkTaskConfig v (Project tc) (RepoURL tc) (Issue tc) (Tool tc)
          (Prompt tc) (Branch tc) (MaxTime tc) (MaxTokens tc) (EnvVars tc)
          (HostAddr tc) (DispatchedAt tc))
  else if decide (k = "project") then
    v ← unmarshalString (Project tc) j;
    Ok (mkTaskConfig (AgentID tc) v (RepoURL tc) (Issue tc) (Tool tc)
          (Prompt tc) (Branch tc) (MaxTime tc) (MaxTokens tc) (EnvVars tc)
          (HostAddr tc) (DispatchedAt tc))
  else if decide (k = "repoURL") then
    v ← unmarshalString (RepoURL tc) j;
    Ok (mkTaskConfig (AgentID tc) (Project tc) v (Issue tc) (Tool tc)
          (Prompt tc) (Branch tc) (MaxTime tc) (MaxTokens tc) (EnvVars tc)
          (HostAddr tc) (DispatchedAt tc))
  else if decide (k = "issue") then
    v ← unmarshalString (Issue tc) j;
    Ok (mkTaskConfig (AgentID tc) (Project tc) (RepoURL tc) v (Tool tc)
          (Prompt tc) (Branch tc) (MaxTime tc) (MaxTokens tc) (EnvVars tc)
          (HostAddr tc) (DispatchedAt tc))
  else if decide (k = "tool") then
    v ← unmarshalString (Tool tc) j;
    Ok (mkTaskConfig (AgentID tc) (Project tc) (RepoURL tc) (Issue tc) v
          (Prompt tc) (Branch tc) (MaxTime tc) (MaxTokens tc) (EnvVars tc)
          (HostAddr tc) (DispatchedAt tc))
  else if decide (k = "prompt") then
    v ← unmarshalString (Prompt tc) j;
    Ok (mkTaskConfig (AgentID tc) (Project tc) (RepoURL tc) (Issue tc) (Tool tc)
          v (Branch tc) (MaxTime tc) (MaxTokens tc) (EnvVars tc)
          (HostAddr tc) (DispatchedAt tc))
  else if decide (k = "branch") then
    v ← unmarshalString (Branch tc) j;
    Ok (mkTaskConfig (AgentID tc) (Project tc) (RepoURL tc) (Issue tc) (Tool tc)
          (Prompt tc) v (MaxTime tc) (MaxTokens tc) (EnvVars tc)
          (HostAddr tc) (DispatchedAt tc))
  else if decide (k = "maxTime") then
    v ← unmarshalInt (MaxTime tc) j;
    Ok (mkTaskConfig (AgentID tc) (Project tc) (RepoURL tc) (Issue tc) (Tool tc)
          (Prompt tc) (Branch tc) v (MaxTokens tc) (EnvVars tc)
          (HostAddr tc) (DispatchedAt tc))
  else if decide (k = "maxTokens") then
    v ← unmarshalInt (MaxTokens tc) j;
    Ok (mkTaskConfig (AgentID tc) (Project tc) (RepoURL tc) (Issue tc) (Tool tc)
          (Prompt tc) (Branch tc) (MaxTime tc) v (EnvVars tc)
          (HostAddr tc) (DispatchedAt tc))
  else if decide (k = "envVars") then
    v ← unmarshalStringMap (EnvVars tc) j;
    Ok (mkTaskConfig (AgentID tc) (Project tc) (RepoURL tc) (Issue tc) (Tool tc)
          (Prompt tc) (Branch tc) (MaxTime tc) (MaxTokens tc) v
          (HostAddr tc) (DispatchedAt tc))
  else if decide (k = "hostAddr") then
    v ← unmarshalString (HostAddr tc) j;
    Ok (mkTaskConfig (AgentID tc) (Project tc) (RepoURL tc) (Issue tc) (Tool tc)
          (Prompt tc) (Branch tc) (MaxTime tc) (MaxTokens tc) (EnvVars tc)
          v (DispatchedAt tc))
  else if decide (k = "dispatchedAt") then
    v ← unmarshalTime (DispatchedAt tc) j;
    Ok (mkTaskConfig (AgentID tc) (Project tc) (RepoURL tc) (Issue tc) (Tool tc)
          (Prompt tc) (Branch tc) (MaxTime tc) (MaxTokens tc) (EnvVars tc)
          (HostAddr tc) v)
  else Ok tc.

(** [json.Unmarshal(data, &tc)] with [tc] the zero value. *)
Definition unmarshalTask (f : file) : result TaskConfig :=
  match f with
  | FileGarbage => Err (ErrJSON "invalid character")
  | FileJSON JNull => Ok zeroTask
  | FileJSON (JObj o) => unmarshalFields unmarshalTaskField zeroTask o
  | FileJSON _ =>
      Err (ErrJSON "cannot unmarshal into Go value of type orchestrator.TaskConfig")
  end.

(** [WriteTaskConfig]: the returned error and the new content of the
    path.  [wr] is the failure of [os.WriteFile], if any, with what it
    leaves at the path. *)
Definition WriteTaskConfig (wr : option (error * option file))
    (tc : TaskConfig) (cur : option file) : option error * option file :=
  match marshalTask tc with
  | None =>
      (Some (ErrWrap "marshaling task config"
               (ErrJSON "Time.MarshalJSON: year outside of range [0,9999]")),
       cur)
  | Some doc =>
      match wr with
      | Some (e, after) => (Some e, after)
      | None => (None, Some (FileJSON doc))
      end
  end.

(** [ReadTaskConfig].  [cur] is the content of the path ([None]: no such
    file), [rd] a read failure other than absence. *)
Definition ReadTaskConfig (rd : option error) (cur : option file)
    : result TaskConfig :=
  match rd, cur with
  | Some e, _ => Err (ErrWrap "reading task config" e)
  | None, None =>
      Err (ErrWrap "reading task config"
             (ErrExternal "no such file or directory"))
  | None, Some f => wrapErr "parsing task config" (unmarshalTask f)
  end.

(** A task that JSON can carry: valid UTF-8 strings, numbers that are
    [int]s, an instant that can be written. *)
Definition wfTask (tc : TaskConfig) : Prop :=
  utf8 (AgentID tc) = AgentID tc ∧ utf8 (Project tc) = Project tc ∧
  utf8 (RepoURL tc) = RepoURL tc ∧ utf8 (Issue tc) = Issue tc ∧
  utf8 (Tool tc) = Tool tc ∧ utf8 (Prompt tc) = Prompt tc ∧
  utf8 (Branch tc) = Branch tc ∧ utf8 (HostAddr tc) = HostAddr tc ∧
  in_range (MaxTime tc) ∧ in_range (MaxTokens tc) ∧
  (∀ k v, EnvVars tc !! k = Some v → utf8 k = k ∧ utf8 v = v) ∧
  is_Some (MarshalTime (DispatchedAt tc)).

End taskFile.

End orchestrator.

(** ** Package [harness]: the runner inside the VM *)

Module harness.

(** [buildCommand]: the command line of a tool, [[]] for nil. *)
Definition buildCommand (tool prompt : string) : list string :=
  if decide (tool = "claude-code")
  then ["claude"; "--dangerously-skip-permissions"; "-p"; prompt]
  else if decide (tool = "opencode") then ["opencode"; "run"; "--prompt"; prompt]
  else if decide (tool = "amp") then ["amp"; "run"; prompt]
  else if decide (tool = "cline") then ["cline"; "--task"; prompt]
  else [].

(** [NewConstrainer]: the [maxMinutes] that the constrainer holds. *)
Definition NewConstrainer (maxMinutes : Z) : Z :=
  if decide (maxMinutes ≤ 0) then 30 else maxMinutes.

(** [time.Minute], a [time.Duration]: nanoseconds in an [int64]. *)
Definition Minute : Z := 60000000000.

(** [Deadline]: [time.Duration(c.maxMinutes) * time.Minute], a product
    of [int64]s, which wraps. *)
Definition Deadline (maxMinutes : Z) : Z := Go.wrap (maxMinutes * Minute).

(** [WithContext]: [context.WithTimeout] with that duration.  A duration
    that is not positive gives a context that is done from the start. *)
Definition expiredAtStart (maxMinutes : Z) : bool :=
  bool_decide (Deadline maxMinutes ≤ 0).

(** *** The reporter *)

Section Reporter.

Context `{Codec}.

(** [json.Marshal] of a [[]int]: [null] for the nil slice ([None]). *)
Definition marshalPorts (ports : option (list Z)) : json :=
  match ports with
  | None => JNull
  | Some l => JArr (JNum <$> l)
  end.

(** The body that [Reporter.Report] posts to /status: a
    [map[string]string], which [json.Marshal] writes with its keys in
    sorted order. *)
Definition reportPayload (agentID state message : string) : json :=
  JObj [("agentID", JStr (utf8 agentID));
        ("message", JStr (utf8 message));
        ("state", JStr (utf8 state))].

(** The body that [Reporter.Register] posts to /register, keys sorted. *)
Definition registerPayload (agentID vmName vmIP project tool : string)
    (ports : option (list Z)) : json :=
  JObj [("agentID", JStr (utf8 agentID));
        ("ports", marshalPorts ports);
        ("project", JStr (utf8 project));
        ("tool", JStr (utf8 tool));
        ("vmIP", JStr (utf8 vmIP));
        ("vmName", JStr (utf8 vmName))].

(** [Reporter.Register].  [post] is [client.Post] to /register: the
    status code of the response, or the failure of the request. *)
Definition Register (post : json → result Z)
    (agentID vmName vmIP project tool : string) (ports : option (list Z))
    : option error :=
  match post (registerPayload agentID vmName vmIP project tool ports) with
  | Err e => Some (ErrWrap "register request failed" e)
  | Ok code =>
      if decide (code = registry.StatusOK) then None
      else Some (ErrExternal ("register returned HTTP " +:+ pretty code))
  end.

End Reporter.

(** *** The daemon *)

(** [ExecuteResult]; the duration by its [String]. *)
Record ExecuteResult : Type := mkExecuteResult {
  ExitCode : Z;
  Duration : string
}.

(** What the outside does during one run: [os.MkdirAll] of the
    workspace, the git commands, and [cmd.Run] of the tool ([None]: nil;
    [inl code]: an [*exec.ExitError] with this exit code; [inr e]:
    another error) with the time it took. *)
Record RunEnv : Type := mkRunEnv {
  mkdirAll : option error;
  gitClone : option error;
  gitCreateBranch : option error;
  cmdRun : option (Z + error);
  elapsed : string;
  gitAddAll : option error;
  gitCommit : option error;
  gitPush : option error
}.

(** [Executor.Execute]. *)
Definition Execute (env : RunEnv) (tool prompt : string)
    : result ExecuteResult :=
  match buildCommand tool prompt with
  | [] => Err (ErrExternal ("unsupported tool: " +:+ tool))
  | _ :: _ =>
      match cmdRun env with
      | None => Ok (mkExecuteResult 0 (elapsed env))
      | Some (inl exitCode) => Ok (mkExecuteResult exitCode (elapsed env))
      | Some (inr e) => Err (ErrWrap "execution error" e)
      end
  end.

(** The message of a report, by its parts: a text, [what] followed by
    the text of an error, or the exit code and the duration. *)
Inductive reportMessage : Type :=
| Text (s : string)
| Failure (what : string) (e : error) (* "<what>: %v" *)
| Exit (exitCode : Z) (duration : string). (* "Exit code: %d, Duration: %s" *)

(** One call of [Reporter.Report]. *)
Record report : Type := mkReport {
  rep_agentID : string;
  rep_state : string;
  rep_message : reportMessage
}.

(** The content that [writeReport] hands to [os.WriteFile] for
    report.json: a map, so with its keys in sorted order. *)
Definition writeReport `{Codec} (task : orchestrator.TaskConfig)
    (result : ExecuteResult) : json :=
  JObj [("agentID", JStr (utf8 (orchestrator.AgentID task)));
        ("branch", JStr (utf8 (orchestrator.Branch task)));
        ("duration", JStr (utf8 (Duration result)));
        ("exitCode", JNum (ExitCode result));
        ("project", JStr (utf8 (orchestrator.Project task)));
        ("tool", JStr (utf8 (orchestrator.Tool task)))].

(** [setupWorkspace]: its report, and its error if any. *)
Definition setupWorkspace (env : RunEnv) (task : orchestrator.TaskConfig)
    : list report * option error :=
  ([mkReport (orchestrator.AgentID task) "cloning"
      (Text ("Cloning " +:+ orchestrator.RepoURL task))],
   match mkdirAll env with
   | Some e => Some e
   | None =>
       match gitClone env with
       | Some e => Some (ErrWrap "cloning repo" e)
       | None => None
       end
   end).

(** What one [Daemon.Run] leaves: the reports posted, in order, what was
    written to report.json if anything was, and the error returned. *)
Record RunResult : Type := mkRunResult {
  reports : list report;
  reportFile : option json;
  runErr : option error
}.

(** [Daemon.Run].  The results of [git add] and [git commit] are logged
    only; a shutdown signal cancels the context of the tool's command,
    which shows in the result of [cmd.Run]. *)
Definition Run `{Codec} (env : RunEnv) (task : orchestrator.TaskConfig)
    : RunResult :=
  let say := mkReport (orchestrator.AgentID task) in
  let r0 := [say "starting" (Text "Harness initializing")] in
  let '(cloning, setupErr) := setupWorkspace env task in
  let r1 := r0 ++ cloning in
  match setupErr with
  | Some e =>
      mkRunResult (r1 ++ [say "failed" (Failure "Workspace setup failed" e)])
        None (Some e)
  | None =>
      match gitCreateBranch env with
      | Some e =>
          mkRunResult (r1 ++ [say "failed" (Failure "Branch creation failed" e)])
            None (Some e)
      | None =>
          let r2 :=
            r1 ++ [say "executing"
                     (Text ("Running " +:+ orchestrator.Tool task))] in
          match Execute env (orchestrator.Tool task)
                  (orchestrator.Prompt task) with
          | Err e =>
              mkRunResult (r2 ++ [say "failed" (Failure "Execution failed" e)])
                None (Some e)
          | Ok result =>
              let r3 := r2 ++ [say "pushing" (Text "Pushing branch")] in
              match gitPush env with
              | Some e =>
                  mkRunResult (r3 ++ [say "failed" (Failure "Push failed" e)])
                    None (Some e)
              | None =>
                  let state :=
                    if decide (ExitCode result = 0) then "completed"
                    else "failed" in
                  mkRunResult
                    (r3 ++ [say state
                              (Exit (ExitCode result) (Duration result))])
                    (Some (writeReport task result)) None
              end
          end
      end
  end.

End harness.

(** ** Package [ws], continued: mounts and commands *)

Module wsCommands.

(** *** The SSHFS manager *)

(** [SSHFSManager]: the mount point of each mounted agent. *)
Record SSHFSManager : Type := mkSSHFSManager {
  baseDir : string;
  mounts : gmap string string
}.

Section sshfs.

(** [filepath.Join] of two elements. *)
Variable Join : string → string → string.

(** [Mount].  [mkdir] is the failure of [os.MkdirAll] for the mount
    point and [sshfs] that of the sshfs command, whose arguments (key,
    remote path, user) are not part of the manager's state. *)
Definition Mount (mkdir sshfs : option error)
    (vmName agentID project remotePath : string) (m : SSHFSManager)
    : result string * SSHFSManager :=
  match mounts m !! agentID with
  | Some mp => (Ok mp, m)
  | None =>
      let mountPoint := Join (baseDir m) agentID in
      match mkdir with
      | Some e => (Err (ErrWrap "creating mount point" e), m)
      | None =>
          match sshfs with
          | Some e => (Err (ErrWrap "sshfs mount failed" e), m)
          | None =>
              (Ok mountPoint,
               mkSSHFSManager (baseDir m) (<[agentID := mountPoint]> (mounts m)))
          end
      end
  end.

(** [Unmount].  [umount] is the failure of the umount command and
    [force] that of the forced unmount tried after it. *)
Definition Unmount (umount force : option error) (agentID : string)
    (m : SSHFSManager) : option error * SSHFSManager :=
  match mounts m !! agentID with
  | None => (Some (ErrExternal ("agent " +:+ agentID +:+ " is not mounted")), m)
  | Some mountPoint =>
      match umount, force with
      | Some e, Some _ => (Some (ErrWrap "unmount failed" e), m)
      | _, _ => (None, mkSSHFSManager (baseDir m) (delete agentID (mounts m)))
      end
  end.

Definition MountPoint (agentID : string) (m : SSHFSManager) : string :=
  default "" (mounts m !! agentID).

Definition IsMounted (agentID : string) (m : SSHFSManager) : bool :=
  bool_decide (is_Some (mounts m !! agentID)).

End sshfs.

(** *** The command handler *)

(** [CommandPayload]; [cmd_Args] is the raw JSON of the arguments. *)
Record CommandPayload : Type := mkCommandPayload {
  cmd_ID : string;
  cmd_Action : string;
  cmd_Args : file
}.

(** The texts of the field [Error] of a result. *)
Inductive commandError : Type :=
| InvalidArgs (e : error)          (* "invalid args: " + err.Error() *)
| AgentNotFound                    (* "agent not found" *)
| Failed (e : error)               (* err.Error() *)
| UnknownAction (action : string)  (* "unknown action: " + action *).

Record CommandResultPayload : Type := mkCommandResultPayload {
  ID : string;
  Success : bool;
  Message : string;
  Error : option commandError
}.

(** What the handler holds: the pool manager, the registry store, the
    files of the directory of routes, the SSHFS manager. *)
Record World : Type := mkWorld {
  poolMgr : pool.Manager;
  store : registry.Store;
  routes : gmap string string;
  sshfs : SSHFSManager
}.

(** What one command meets outside: the persist of a [Release], the
    removal of a route file, the persist of a [Deregister], what a
    [Dispatch] meets, and the results of the commands of a mount and of
    an unmount. *)
Record CommandEnv : Type := mkCommandEnv {
  releaseIO : io_outcome;
  removeRoute : option error;
  deregisterIO : io_outcome;
  dispatchEnv : orchestrator.DispatchEnv;
  mountMkdir : option error;
  mountSshfs : option error;
  unmountUmount : option error;
  unmountForce : option error
}.

Section CommandHandler.

Context `{Codec}.

Variable Join : string → string → string.

(** [json.Unmarshal(cmd.Args, &args)] for the struct with the one field
    [agentID]. *)
Definition unmarshalAgentArgs (args : file) : result string :=
  match args with
  | FileGarbage => Err (ErrJSON "invalid character")
  | FileJSON JNull => Ok ""
  | FileJSON (JObj o) =>
      unmarshalFields
        (λ (id : string) kv,
           if decide (kv.1 = "agentID") then unmarshalString id kv.2 else Ok id)
        "" o
  | FileJSON _ => Err (ErrJSON "cannot unmarshal into Go value of type struct")
  end.

(** The same for the arguments of a mount: [agentID] and [mountPath]. *)
Definition unmarshalMountArgs (args : file) : result (string * string) :=
  match args with
  | FileGarbage => Err (ErrJSON "invalid character")
  | FileJSON JNull => Ok ("", "")
  | FileJSON (JObj o) =>
      unmarshalFields
        (λ (a : string * string) kv,
           if decide (kv.1 = "agentID") then
             v ← unmarshalString a.1 kv.2; Ok (v, a.2)
           else if decide (kv.1 = "mountPath") then
             v ← unmarshalString a.2 kv.2; Ok (a.1, v)
           else Ok a)
        ("", "") o
  | FileJSON _ => Err (ErrJSON "cannot unmarshal into Go value of type struct")
  end.

(** The same for the arguments of a dispatch, as the request they
    become. *)
Definition unmarshalDispatchField (r : orchestrator.DispatchRequest)
    (kv : string * json) : result orchestrator.DispatchRequest :=
  let '(k, j) := kv in
  let mk := orchestrator.mkDispatchRequest in
  let p := orchestrator.req_Project r in
  let u := orchestrator.req_RepoURL r in
  let i := orchestrator.req_Issue r in
  let t := orchestrator.req_Tool r in
  let q := orchestrator.req_Prompt r in
  let b := orchestrator.req_Branch r in
  let mt := orchestrator.req_MaxTime r in
  let mk' := orchestrator.req_MaxTokens r in
  let ev := orchestrator.req_EnvVars r in
  if decide (k = "project") then
    v ← unmarshalString p j; Ok (mk v u i t q b mt mk' ev)
  else if decide (k = "repoURL") then
    v ← unmarshalString u j; Ok (mk p v i t q b mt mk' ev)
  else if decide (k = "issue") then
    v ← unmarshalString i j; Ok (mk p u v t q b mt mk' ev)
  else if decide (k = "tool") then
    v ← unmarshalString t j; Ok (mk p u i v q b mt mk' ev)
  else if decide (k = "prompt") then
    v ← unmarshalString q j; Ok (mk p u i t v b mt mk' ev)
  else if decide (k = "branch") then
    v ← unmarshalString b j; Ok (mk p u i t q v mt mk' ev)
  else if decide (k = "maxTime") then
    v ← unmarshalInt mt j; Ok (mk p u i t q b v mk' ev)
  else if decide (k = "envVars") then
    v ← orchestrator.unmarshalStringMap ev j; Ok (mk p u i t q b mt mk' v)
  else Ok r.

Definition unmarshalDispatchArgs (args : file)
    : result orchestrator.DispatchRequest :=
  let zero := orchestrator.mkDispatchRequest "" "" "" "" "" "" 0 0 ∅ in
  match args with
  | FileGarbage => Err (ErrJSON "invalid character")
  | FileJSON JNull => Ok zero
  | FileJSON (JObj o) => unmarshalFields unmarshalDispatchField zero o
  | FileJSON _ => Err (ErrJSON "cannot unmarshal into Go value of type struct")
  end.

Definition failure (cmd : CommandPayload) (e : commandError)
    : CommandResultPayload :=
  mkCommandResultPayload (cmd_ID cmd) false "" (Some e).

Definition success (cmd : CommandPayload) (message : string)
    : CommandResultPayload :=
  mkCommandResultPayload (cmd_ID cmd) true message None.

(** [handleKill]: release the slot of the agent, remove its route (the
    result of the removal is dropped), deregister it. *)
Definition handleKill (env : CommandEnv) (cmd : CommandPayload) (w : World)
    : CommandResultPayload * World :=
  match unmarshalAgentArgs (cmd_Args cmd) with
  | Err e => (failure cmd (InvalidArgs e), w)
  | Ok agentID =>
      match pool.GetSlot agentID (poolMgr w) with
      | None => (failure cmd AgentNotFound, w)
      | Some slot =>
          match pool.Release (releaseIO env) (pool.Name slot) (poolMgr w) with
          | (Some e, pm) =>
              (failure cmd (Failed e), mkWorld pm (store w) (routes w) (sshfs w))
          | (None, pm) =>
              (success cmd "agent killed",
               mkWorld pm
                 (registry.Deregister (deregisterIO env) agentID (store w))
                 (network.RemoveRoute (removeRoute env) agentID (routes w)).2
                 (sshfs w))
          end
      end
  end.

(** [handleDispatch].  [hostAddr] is the one the orchestrator holds. *)
Definition handleDispatch (env : CommandEnv) (hostAddr : string)
    (cmd : CommandPayload) (w : World) : CommandResultPayload * World :=
  match unmarshalDispatchArgs (cmd_Args cmd) with
  | Err e => (failure cmd (InvalidArgs e), w)
  | Ok req =>
      match orchestrator.Dispatch (dispatchEnv env) hostAddr req (poolMgr w) with
      | (Err e, pm) =>
          (failure cmd (Failed e), mkWorld pm (store w) (routes w) (sshfs w))
      | (Ok result, pm) =>
          (success cmd ("dispatched " +:+ orchestrator.res_AgentID result +:+
                        " to " +:+ orchestrator.res_VMName result),
           mkWorld pm (store w) (routes w) (sshfs w))
      end
  end.

Definition handleMount (env : CommandEnv) (cmd : CommandPayload) (w : World)
    : CommandResultPayload * World :=
  match unmarshalMountArgs (cmd_Args cmd) with
  | Err e => (failure cmd (InvalidArgs e), w)
  | Ok (agentID, mountPath) =>
      match pool.GetSlot agentID (poolMgr w) with
      | None => (failure cmd AgentNotFound, w)
      | Some slot =>
          match Mount Join (mountMkdir env) (mountSshfs env) (pool.Name slot)
                      agentID (pool.Project slot) mountPath (sshfs w) with
          | (Err e, m) =>
              (failure cmd (Failed e), mkWorld (poolMgr w) (store w) (routes w) m)
          | (Ok mountPoint, m) =>
              (success cmd ("mounted at " +:+ mountPoint),
               mkWorld (poolMgr w) (store w) (routes w) m)
          end
      end
  end.

Definition handleUnmount (env : CommandEnv) (cmd : CommandPayload) (w : World)
    : CommandResultPayload * World :=
  match unmarshalAgentArgs (cmd_Args cmd) with
  | Err e => (failure cmd (InvalidArgs e), w)
  | Ok agentID =>
      match Unmount (unmountUmount env) (unmountForce env) agentID (sshfs w) with
      | (Some e, m) =>
          (failure cmd (Failed e), mkWorld (poolMgr w) (store w) (routes w) m)
      | (None, m) =>
          (success cmd "unmounted", mkWorld (poolMgr w) (store w) (routes w) m)
      end
  end.

(** [handleShell]: the answer is the name of the agent's VM. *)
Definition handleShell (cmd : CommandPayload) (w : World)
    : CommandResultPayload * World :=
  match unmarshalAgentArgs (cmd_Args cmd) with
  | Err e => (failure cmd (InvalidArgs e), w)
  | Ok agentID =>
      match pool.GetSlot agentID (poolMgr w) with
      | None => (failure cmd AgentNotFound, w)
      | Some slot => (success cmd (pool.Name slot), w)
      end
  end.

(** [Handle]: the result that is sent back to the client, and the
    world after the command. *)
Definition Handle (env : CommandEnv) (hostAddr : string) (cmd : CommandPayload)
    (w : World) : CommandResultPayload * World :=
  if decide (cmd_Action cmd = "kill") then handleKill env cmd w
  else if decide (cmd_Action cmd = "dispatch") then handleDispatch env hostAddr cmd w
  else if decide (cmd_Action cmd = "mount") then handleMount env cmd w
  else if decide (cmd_Action cmd = "unmount") then handleUnmount env cmd w
  else if decide (cmd_Action cmd = "shell") then handleShell cmd w
  else (failure cmd (UnknownAction (cmd_Action cmd)), w).

End CommandHandler.

End wsCommands.

(** ** Package [ws], continued: the send queue of a client *)

Module wsClient.

(** [Client.Send]: a message is queued unless the queue, a channel of
    capacity 256, is full. *)
Definition Send (msg : string) (queue : list string) : list string :=
  if decide (length queue < 256)%nat then queue ++ [msg] else queue.

Definition LF : Ascii.ascii := Ascii.ascii_of_nat 10.

(** One turn of [writePump] on a message, when the connection gives a
    writer: the text frame written, from the message received and those
    queued behind it when the length of the queue is read.  [None]: the
    queue is empty, nothing is written. *)
Definition writeFrame (queue : list string) : option string :=
  match queue with
  | [] => None
  | message :: queued =>
      Some (foldl (λ w next, w +:+ String LF next) message queued)
  end.

End wsClient.

(** ** The monitor: reading the frames (ws-client.ts) *)

Module monitor.

(** [raw.split("\n")], on the bytes of the frame; the result is never
    empty. *)
Fixpoint split (sep : Ascii.ascii) (raw : string) : list string :=
  match raw with
  | EmptyString => [EmptyString]
  | String c rest =>
      if decide (c = sep) then EmptyString :: split sep rest
      else match split sep rest with
           | [] => [String c EmptyString]
           | first :: others => String c first :: others
           end
  end.

(** The white space and line terminators that [trim] removes, as UTF-8:
    one byte, two bytes (U+00A0) or three. *)
Definition space1 (b : N) : bool :=
  bool_decide (b ∈ [9; 10; 11; 12; 13; 32]%N).

Definition space2 (b c : N) : bool := bool_decide (b = 194 ∧ c = 160)%N.

Definition space3 (b c d : N) : bool :=
  bool_decide ((b = 225 ∧ c = 154 ∧ d = 128)
               ∨ (b = 226 ∧ c = 128 ∧ (128 ≤ d ≤ 138 ∨ d = 168 ∨ d = 169 ∨ d = 175))
               ∨ (b = 226 ∧ c = 129 ∧ d = 159)
               ∨ (b = 227 ∧ c = 128 ∧ d = 128)
               ∨ (b = 239 ∧ c = 187 ∧ d = 191))%N.

(** [m.trim()] is the empty string: [m] is white space only. *)
Fixpoint blankBytes (l : list N) : bool :=
  match l with
  | [] => true
  | b :: l1 =>
      if space1 b then blankBytes l1
      else match l1 with
           | [] => false
           | c :: l2 =>
               if space2 b c then blankBytes l2
               else match l2 with
                    | [] => false
                    | d :: l3 => if space3 b c d then blankBytes l3 else false
                    end
           end
  end.

Definition blank (m : string) : bool :=
  blankBytes (Ascii.N_of_ascii <$> String.list_ascii_of_string m).

(** [raw.split("\n").filter((m) => m.trim())]. *)
Definition messages (raw : string) : list string :=
  filter (λ m, blank m = false) (split wsClient.LF raw).

(** The envelopes that the message handler passes on from one frame:
    [JSON.parse] of each message in turn, up to the first that throws,
    which ends the handling of the frame. *)
Fixpoint parsed {E} (parse : string → option E) (msgs : list string) : list E :=
  match msgs with
  | [] => []
  | msg :: rest =>
      match parse msg with
      | None => []
      | Some env => env :: parsed parse rest
      end
  end.

Definition onFrame {E} (parse : string → option E) (raw : string) : list E :=
  parsed parse (messages raw).

(** A message that survives the split: no line feed in it, and not
    white space only. *)
Definition oneLine (m : string) : Prop :=
  (wsClient.LF ∉ String.list_ascii_of_string m) ∧ blank m = false.

End monitor.

(** ** The daemon [agentd]: registration and kill over HTTP *)

Module agentd.
Import wsCommands.

Definition StatusInternalServerError : Z := 500.

Section routes.

Context `{Codec}.

(** POST /register of the registration server as [main] sets it up: the
    callback writes the route of the agent, and its error is logged
    only.  [mk] and [wr] are the failures of the write. *)
Definition register (tw : network.TraefikWriter) (now1 now2 : Time)
    (io : io_outcome) (mk : option error) (wr : option (error * option string))
    (reqBody : file) (w : World) : registry.Response * World :=
  match registry.handleRegister true now1 now2 io reqBody (store w) with
  | (resp, s, Some reg) =>
      (resp,
       mkWorld (poolMgr w) s (network.WriteRoute tw mk wr reg (routes w)).2
         (sshfs w))
  | (resp, s, None) => (resp, mkWorld (poolMgr w) s (routes w) (sshfs w))
  end.

(** POST /agents/{id}/kill: the status code, the error of the body if it
    is one, and what is left. *)
Definition kill (env : CommandEnv) (agentID : string) (w : World)
    : Z * option commandError * World :=
  match pool.GetSlot agentID (poolMgr w) with
  | None => (registry.StatusNotFound, Some AgentNotFound, w)
  | Some slot =>
      match pool.Release (releaseIO env) (pool.Name slot) (poolMgr w) with
      | (Some e, pm) =>
          (StatusInternalServerError, Some (Failed e),
           mkWorld pm (store w) (routes w) (sshfs w))
      | (None, pm) =>
          (registry.StatusOK, None,
           mkWorld pm
             (registry.Deregister (deregisterIO env) agentID (store w))
             (network.RemoveRoute (removeRoute env) agentID (routes w)).2
             (sshfs w))
      end
  end.

End routes.

End agentd.

(** * Properties *)

(** ** Go integers *)

Module GoProps.

Lemma wrap_id z : in_range z → wrap z = z.
Proof.
  unfold in_range, min_int, max_int, wrap. intros H.
  rewrite Z.mod_small by lia. lia.
Qed.

Lemma wrap_in_range z : in_range (wrap z).
Proof.
  unfold in_range, min_int, max_int, wrap.
  pose proof (Z.mod_pos_bound (z + 2 ^ 63) (2 ^ 64)). lia.
Qed.

(** The bounds of [saneSizes] and of the [int] range as literals, for
    [lia]. *)
Ltac literal_bounds :=
  let E1 := fresh "E" in
  let E2 := fresh "E" in
  assert (- 2 ^ 62 = -4611686018427387904) as E1 by reflexivity;
  assert (2 ^ 62 = 4611686018427387904) as E2 by reflexivity;
  rewrite E1, E2 in *; clear E1 E2.

Ltac int_range := unfold in_range, min_int, max_int; lia.

End GoProps.

(** ** Package [pool] *)

Module PoolProps.
Import pool GoProps.

Section props.
Context `{Codec}.

Lemma persist_slots io m : slots (persist io m).2 = slots m.
Proof. unfold persist. destruct (Save _ _ _). reflexivity. Qed.

Lemma persist_counter io m : counter (persist io m).2 = counter m.
Proof. unfold persist. destruct (Save _ _ _). reflexivity. Qed.

Lemma persist_cfg io m : cfg (persist io m).2 = cfg m.
Proof. unfold persist. destruct (Save _ _ _). reflexivity. Qed.

Lemma persist_stopped io m : stopped (persist io m).2 = stopped m.
Proof. unfold persist. destruct (Save _ _ _). reflexivity. Qed.

(** C10.  [GetSlot x] finds the first slot, in table order, whose name or
    agent ID is [x]; it finds one exactly when such a slot exists. *)
Theorem GetSlot_by_name_or_agent (x : string) (m : Manager) :
  (∀ s, GetSlot x m = Some s ↔
        ∃ i, slots m !! i = Some s ∧ (Name s = x ∨ AgentID s = x) ∧
             ∀ j s', slots m !! j = Some s' → (j < i)%nat →
                     ¬ (Name s' = x ∨ AgentID s' = x)) ∧
  (is_Some (GetSlot x m) ↔ ∃ s, s ∈ slots m ∧ (Name s = x ∨ AgentID s = x)) ∧
  (GetSlot x m = None ↔ ∀ s, s ∈ slots m → Name s ≠ x ∧ AgentID s ≠ x).
Proof.
  unfold GetSlot. split_and!.
  - intros s. split.
    + destruct (list_find _ _) as [[i s']|] eqn:E; simpl; [|done].
      intros [= ->]. apply list_find_Some in E. exists i. done.
    + intros (i & Hi & HP & Hmin).
      assert (list_find (λ s, Name s = x ∨ AgentID s = x) (slots m) = Some (i, s)) as ->.
      { apply list_find_Some. done. }
      done.
  - rewrite fmap_is_Some. split.
    + intros [[i s] (Hi & HP & _)%list_find_Some]. exists s. split; [|done].
      eapply list_elem_of_lookup_2; done.
    + intros (s & Hs & HP). eapply list_find_elem_of; done.
  - rewrite fmap_None, list_find_None, Forall_forall. split.
    + intros Hn s Hs. specialize (Hn s Hs). tauto.
    + intros Hn s Hs. specialize (Hn s Hs). tauto.
Qed.

(** C2.  [Claim] takes the first idle slot in table order: that slot
    becomes active and carries the agent ID, the project and the claim
    time, every other slot is as before, and the claimed slot is what the
    call returns.  The call fails exactly when no slot is idle, and then
    leaves the manager as it was. *)
Theorem Claim_first_idle (now : Time) (getVMIP : string → result string)
    (io : io_outcome) (agentID project : string) (m : Manager) :
  let r := Claim now getVMIP io agentID project m in
  (is_err r.1 = true ↔ ∀ s, s ∈ slots m → State s ≠ SlotIdle) ∧
  (is_err r.1 = true → r = (Err ErrNoWarmVMs, m)) ∧
  (∀ i s, slots m !! i = Some s → State s = SlotIdle →
          (∀ j s', slots m !! j = Some s' → (j < i)%nat → State s' ≠ SlotIdle) →
     ∃ c, r.1 = Ok c ∧ slots r.2 !! i = Some c ∧
          State c = SlotActive ∧ AgentID c = agentID ∧ Project c = project ∧
          ClaimedAt c = now ∧
          Name c = Name s ∧ Tool c = Tool s ∧ Branch c = Branch s ∧
          Issue c = Issue s ∧ CreatedAt c = CreatedAt s ∧
          VMIP c = match getVMIP (Name s) with Ok ip => ip | Err _ => VMIP s end ∧
          length (slots r.2) = length (slots m) ∧
          (∀ j, j ≠ i → slots r.2 !! j = slots m !! j) ∧
          counter r.2 = counter m ∧ cfg r.2 = cfg m).
Proof.
  intros r. subst r. unfold Claim.
  destruct (list_find _ _) as [[i0 s0]|] eqn:E; simpl.
  - apply list_find_Some in E as (Hi0 & Hidle & Hmin). split_and!.
    + split; [intros [=]|]. intros Hn. exfalso.
      eapply Hn; [eapply list_elem_of_lookup_2|]; done.
    + intros [=].
    + intros i s Hi Hs Hfirst.
      assert (i = i0) as ->.
      { destruct (Nat.lt_total i i0) as [Hlt|[?|Hlt]]; [|done|].
        - destruct (Hmin _ _ Hi Hlt Hs).
        - destruct (Hfirst _ _ Hi0 Hlt Hidle). }
      assert (s0 = s) as -> by congruence.
      eexists. split; [reflexivity|].
      rewrite persist_slots, persist_counter, persist_cfg. simpl.
      rewrite list_lookup_insert_eq by (eapply lookup_lt_Some; done).
      split; [done|].
      destruct (getVMIP (Name s)) as [ip|e]; simpl;
        (split_and!; try done; [by rewrite length_insert|];
         intros j Hj; by rewrite list_lookup_insert_ne).
  - apply list_find_None in E. rewrite Forall_forall in E. split_and!.
    + done.
    + done.
    + intros i s Hi Hs _. exfalso.
      eapply E; [eapply list_elem_of_lookup_2|]; done.
Qed.

(** C4, as the code has it.  [Release name] fails with the not-found
    error when no slot has that name, and then changes nothing.
    Otherwise it returns what saving the table returns, and the first
    slot of that name, whatever its state, is cold with an empty agent ID
    and project; its other fields and all other slots are as before. *)
Theorem Release_first_named_goes_cold (io : io_outcome) (name : string)
    (m : Manager) :
  let r := Release io name m in
  ((∀ s, s ∈ slots m → Name s ≠ name) → r = (Some (ErrVMNotFound name), m)) ∧
  (∀ i s, slots m !! i = Some s → Name s = name →
          (∀ j s', slots m !! j = Some s' → (j < i)%nat → Name s' ≠ name) →
     r.1 = (Save io (mkPersistentState (slots r.2) (counter m)) (disk m)).1 ∧
     slots r.2 !! i = Some (mkVMSlot (Name s) SlotCold "" "" (Tool s) (Branch s)
                                     (Issue s) (VMIP s) (CreatedAt s) (ClaimedAt s)) ∧
     length (slots r.2) = length (slots m) ∧
     (∀ j, j ≠ i → slots r.2 !! j = slots m !! j) ∧
     counter r.2 = counter m ∧ cfg r.2 = cfg m).
Proof.
  intros r. subst r. unfold Release.
  destruct (list_find _ _) as [[i0 s0]|] eqn:E.
  - apply list_find_Some in E as (Hi0 & Hname & Hmin). split.
    + intros Hn. destruct (Hn s0); [eapply list_elem_of_lookup_2|]; done.
    + intros i s Hi Hs Hfirst.
      assert (i = i0) as ->.
      { destruct (Nat.lt_total i i0) as [Hlt|[?|Hlt]]; [|done|].
        - destruct (Hmin _ _ Hi Hlt Hs).
        - destruct (Hfirst _ _ Hi0 Hlt Hname). }
      assert (s0 = s) as -> by congruence.
      rewrite persist_slots, persist_counter, persist_cfg. simpl.
      split_and!; try done.
      * unfold persist. simpl. by destruct (Save _ _ _).
      * rewrite list_lookup_insert_eq by (eapply lookup_lt_Some; done). done.
      * by rewrite length_insert.
      * intros j Hj. by rewrite list_lookup_insert_ne.
  - apply list_find_None in E. rewrite Forall_forall in E. split; [done|].
    intros i s Hi Hs _. destruct (E s); [eapply list_elem_of_lookup_2|]; done.
Qed.

(** *** What a claim and a release do to the table *)

Lemma Claim_Ok now getVMIP io agentID project m c m1 :
  Claim now getVMIP io agentID project m = (Ok c, m1) →
  ∃ i s, slots m !! i = Some s ∧ Name c = Name s ∧
         slots m1 = <[i := c]> (slots m) ∧ counter m1 = counter m.
Proof.
  unfold Claim. destruct (list_find _ _) as [[i s]|] eqn:E; [|done].
  apply list_find_Some in E as (Hi & _). intros [= <- <-].
  exists i, s. rewrite persist_slots, persist_counter. simpl.
  split_and!; [done| |done|done]. by destruct (getVMIP _).
Qed.

Lemma Release_of_unique io name m i s :
  namesUnique m → slots m !! i = Some s → Name s = name →
  slots (Release io name m).2 =
    <[i := mkVMSlot (Name s) SlotCold "" "" (Tool s) (Branch s) (Issue s)
                    (VMIP s) (CreatedAt s) (ClaimedAt s)]> (slots m).
Proof.
  intros Hu Hi Hn. unfold Release.
  destruct (list_find _ _) as [[i0 s0]|] eqn:E.
  - apply list_find_Some in E as (Hi0 & Hn0 & _).
    assert (i0 = i) as ->.
    { eapply (NoDup_lookup _ _ _ name Hu); rewrite list_lookup_fmap.
      - by rewrite Hi0; simpl; rewrite Hn0.
      - by rewrite Hi; simpl; rewrite Hn. }
    assert (s0 = s) as -> by congruence.
    by rewrite persist_slots.
  - apply list_find_None in E. rewrite Forall_forall in E.
    destruct (E s); [eapply list_elem_of_lookup_2|]; done.
Qed.

(** *** One round of [Replenish] *)

Lemma warmName_inj a b : warmName a = warmName b → a = b.
Proof.
  unfold warmName. intros Heq.
  apply (inj (String.append "warm-")) in Heq. by apply (inj pretty) in Heq.
Qed.

Lemma list_find_snoc_fresh (l : list VMSlot) (s : VMSlot) :
  Name s ∉ Name <$> l →
  list_find (λ x, Name x = Name s) (l ++ [s]) = Some (length l, s).
Proof.
  intros Hfresh. apply list_find_Some. split_and!.
  - by rewrite list_lookup_middle.
  - done.
  - intros j y Hj Hlt Hy. apply Hfresh. rewrite <- Hy.
    apply list_elem_of_fmap_2. rewrite lookup_app_l in Hj by done.
    eapply list_elem_of_lookup_2; done.
Qed.

Lemma replenishReserve_spec now io m :
  in_range (counter m + 1) →
  let r := replenishReserve now io m in
  r.1 = warmName (counter m + 1) ∧
  slots r.2 = slots m ++ [mkVMSlot (warmName (counter m + 1)) SlotCreating
                                   "" "" "" "" "" "" now 0] ∧
  counter r.2 = counter m + 1 ∧ cfg r.2 = cfg m ∧ stopped r.2 = stopped m.
Proof.
  intros Hr. unfold replenishReserve, Go.add. rewrite GoProps.wrap_id by done.
  simpl. rewrite persist_slots, persist_counter, persist_cfg, persist_stopped.
  done.
Qed.

Lemma replenishResolve_spec clone io m l s :
  slots m = l ++ [s] → Name s ∉ Name <$> l →
  let m' := replenishResolve clone (Name s) io m in
  slots m' = match clone with
             | None => l ++ [set_State SlotIdle s]
             | Some _ => l
             end ∧
  counter m' = counter m ∧ cfg m' = cfg m ∧ stopped m' = stopped m.
Proof.
  intros Hl Hfresh. unfold replenishResolve.
  rewrite persist_slots, persist_counter, persist_cfg, persist_stopped. simpl.
  rewrite Hl, list_find_snoc_fresh by done. split; [|done].
  destruct clone.
  - by rewrite (delete_middle l [] s), app_nil_r.
  - rewrite insert_app_r_alt by done. by rewrite Nat.sub_diag.
Qed.

Lemma namesFresh_round m m2 :
  namesFresh m → counter m2 = counter m + 1 →
  (∀ x, x ∈ Name <$> slots m2 →
        x ∈ Name <$> slots m ∨ x = warmName (counter m + 1)) →
  namesFresh m2.
Proof.
  intros Hfresh Hc Hsub k Hk Hin. rewrite Hc in Hk.
  destruct (Hsub _ Hin) as [Hold|Heq].
  - eapply Hfresh; [|done]. lia.
  - apply warmName_inj in Heq. lia.
Qed.

Lemma replenishRounds_S n i env m :
  replenishRounds (S n) i env m =
    if tick_done (env i) || stopped m then []
    else
      let r := replenishReserve (tick_now (env i)) (tick_io_insert (env i)) m in
      let m2 := replenishResolve (tick_clone (env i)) r.1
                                 (tick_io_resolve (env i)) r.2 in
      r.2 :: m2 :: replenishRounds n (S i) env m2.
Proof.
  simpl. by destruct (replenishReserve (tick_now (env i)) (tick_io_insert (env i)) m).
Qed.

Lemma isRound_names t before m1 m2 x :
  isRound t before m1 m2 →
  x ∈ Name <$> slots m2 →
  x ∈ Name <$> slots before ∨ x = warmName (counter before + 1).
Proof.
  intros (_ & _ & Hs2 & _). rewrite Hs2. destruct (tick_clone t); [by left|].
  rewrite fmap_app, elem_of_app. intros [?|Hx]; [by left|right].
  simpl in Hx. by apply list_elem_of_singleton in Hx.
Qed.

(** A round that is let through inserts and settles a slot, and leaves
    the names fresh for the next one. *)
Lemma replenishRounds_step env n i m :
  namesFresh m → in_range (counter m + 1) →
  if tick_done (env i) || stopped m
  then replenishRounds (S n) i env m = []
  else ∃ m1 m2,
      replenishRounds (S n) i env m =
        m1 :: m2 :: replenishRounds n (S i) env m2 ∧
      isRound (env i) m m1 m2 ∧ namesFresh m2 ∧
      stopped m2 = stopped m ∧ cfg m1 = cfg m ∧ cfg m2 = cfg m.
Proof.
  intros Hfresh Hr. rewrite replenishRounds_S.
  destruct (tick_done (env i) || stopped m); [done|]. cbv zeta.
  pose proof (replenishReserve_spec (tick_now (env i)) (tick_io_insert (env i)) m Hr)
    as (Hname & Hs1 & Hc1 & Hcfg1 & Hst1).
  rewrite Hname.
  set (m1 := (replenishReserve _ _ m).2) in *. clearbody m1.
  set (new := mkVMSlot (warmName (counter m + 1)) SlotCreating
                       "" "" "" "" "" "" (tick_now (env i)) 0) in *.
  assert (Name new ∉ Name <$> slots m) as Hnew.
  { apply Hfresh. lia. }
  pose proof (replenishResolve_spec (tick_clone (env i)) (tick_io_resolve (env i))
                m1 (slots m) new Hs1 Hnew) as (Hs2 & Hc2 & Hcfg2 & Hst2).
  simpl in Hs2, Hc2, Hcfg2, Hst2.
  set (m2 := replenishResolve _ _ _ m1) in *.
  assert (isRound (env i) m m1 m2) as Hround.
  { unfold isRound. fold new. split_and!; [done..|]. by rewrite Hc2. }
  exists m1, m2. split_and!; [done|done| |congruence|done|congruence].
  eapply namesFresh_round; [done|by rewrite Hc2|].
  intros x. exact (isRound_names _ _ _ _ x Hround).
Qed.

Lemma replenishRounds_spec env n : ∀ i m,
  namesFresh m →
  min_int ≤ counter m → counter m + Z.of_nat n ≤ max_int →
  stopped m = false →
  (∀ k, (k < n)%nat → tick_done (env (i + k)%nat) = false) →
  let hist := replenishRounds n i env m in
  length hist = (2 * n)%nat ∧
  (∀ k, (k < n)%nat → ∃ before m1 m2,
      roundStart m hist k = Some before ∧
      hist !! (2 * k)%nat = Some m1 ∧ hist !! (2 * k + 1)%nat = Some m2 ∧
      isRound (env (i + k)%nat) before m1 m2) ∧
  (∀ m', m' ∈ hist →
      (length (slots m') ≤ length (slots m) + n)%nat ∧ cfg m' = cfg m).
Proof.
  induction n as [|n IH]; intros i m Hfresh Hlo Hhi Hrun Hticks hist.
  { subst hist. simpl. split_and!; [done|intros; lia|]. by intros m' ?%elem_of_nil. }
  subst hist.
  pose proof (Hticks 0%nat ltac:(lia)) as Ht0. rewrite Nat.add_0_r in Ht0.
  assert (in_range (counter m + 1)) as Hr by (unfold in_range; lia).
  pose proof (replenishRounds_step env n i m Hfresh Hr) as Hstep.
  rewrite Ht0, Hrun in Hstep. cbn [orb] in Hstep.
  destruct Hstep as (m1 & m2 & -> & Hround & Hfresh2 & Hst2 & Hcfg1 & Hcfg2).
  pose proof Hround as (Hs1 & Hc1 & Hs2 & Hc2).
  destruct (IH (S i) m2) as (Hlen & Hrounds & Hall); [done|lia|lia|congruence|..].
  { intros k Hk. replace (S i + k)%nat with (i + S k)%nat by lia.
    apply Hticks. lia. }
  assert ((length (slots m2) ≤ length (slots m) + 1)%nat) as Hlen2.
  { rewrite Hs2. destruct (tick_clone (env i)); [lia|].
    rewrite length_app. simpl. lia. }
  split_and!.
  - simpl. rewrite Hlen. lia.
  - intros [|k] Hk.
    + exists m, m1, m2. rewrite Nat.add_0_r. done.
    + destruct (Hrounds k ltac:(lia)) as (before & r1 & r2 & Hb & H1 & H2 & Hr').
      exists before, r1, r2.
      replace (2 * S k + 1)%nat with (S (S (2 * k + 1))) by lia.
      replace (2 * S k)%nat with (S (S (2 * k))) by lia.
      replace (i + S k)%nat with (S i + k)%nat by lia.
      split_and!; [|done..].
      destruct k as [|k]; [exact Hb|]. unfold roundStart in *.
      replace (2 * S k + 1)%nat with (S (S (2 * k + 1))) by lia. exact Hb.
  - intros m' [->|[->|Hin]%elem_of_cons]%elem_of_cons.
    + split; [|done]. rewrite Hs1, length_app. simpl. lia.
    + split; [lia|congruence].
    + destruct (Hall m' Hin) as [Hl Hc]. split; [lia|congruence].
Qed.

(** What every round keeps, every state of a run has, cancelled or not. *)
Lemma replenishRounds_keeps (P : Manager → Prop) env :
  (∀ t before m1 m2,
      namesFresh before → P before → isRound t before m1 m2 → P m1 ∧ P m2) →
  ∀ n i m,
    namesFresh m → min_int ≤ counter m → counter m + Z.of_nat n ≤ max_int →
    P m → ∀ m', m' ∈ replenishRounds n i env m → P m'.
Proof.
  intros Hkeep. induction n as [|n IH]; intros i m Hfresh Hlo Hhi HP m'.
  { simpl. by intros ?%elem_of_nil. }
  assert (in_range (counter m + 1)) as Hr by (unfold in_range; lia).
  pose proof (replenishRounds_step env n i m Hfresh Hr) as Hstep.
  destruct (tick_done (env i) || stopped m).
  { rewrite Hstep. by intros ?%elem_of_nil. }
  destruct Hstep as (m1 & m2 & -> & Hround & Hfresh2 & _).
  destruct (Hkeep _ _ _ _ Hfresh HP Hround) as [HP1 HP2].
  pose proof Hround as (_ & _ & _ & Hc2).
  intros [->|[->|Hin]%elem_of_cons]%elem_of_cons; [done..|].
  eapply (IH (S i) m2); [done|lia|lia|done|done].
Qed.

(** *** A run of [Replenish] *)

Lemma idle_le_total (m : Manager) :
  0 ≤ len (filter (λ s, State s = SlotIdle) (slots m)) ≤ len (slots m).
Proof.
  unfold len.
  pose proof (length_filter (λ s, State s = SlotIdle) (slots m)). lia.
Qed.

Lemma replenishNeeded_sane m :
  saneSizes m →
  let v := Z.min (WarmSize (cfg m) - len (filter (λ s, State s = SlotIdle) (slots m)))
                 (MaxVMs (cfg m) - len (slots m)) in
  replenishNeeded m = if decide (v ≤ 0) then None else Some v.
Proof.
  intros (Hw & Hx & Hc & Hl) v. subst v. unfold replenishNeeded.
  pose proof (idle_le_total m) as Hidle.
  set (idle := len (filter _ _)) in *. set (total := len (slots m)) in *.
  literal_bounds.
  unfold Go.sub, Go.add.
  rewrite (wrap_id (WarmSize (cfg m) - idle)) by int_range.
  rewrite (wrap_id (total + _)) by int_range.
  rewrite (wrap_id (MaxVMs (cfg m) - total)) by int_range.
  repeat case_decide; try lia; f_equal; lia.
Qed.

Lemma replenishReserve_stopped now io m :
  stopped (replenishReserve now io m).2 = stopped m.
Proof. unfold replenishReserve. simpl. by rewrite persist_stopped. Qed.

Lemma replenishResolve_stopped clone name io m :
  stopped (replenishResolve clone name io m) = stopped m.
Proof. unfold replenishResolve. by rewrite persist_stopped. Qed.

Lemma replenishRounds_stopped n i env m :
  stopped m = true → replenishRounds n i env m = [].
Proof.
  intros Hst. destruct n; [done|].
  by rewrite replenishRounds_S, Hst, orb_true_r.
Qed.

Lemma replenishRounds_cut env n : ∀ i m,
  stopped m = false →
  replenishRounds n i env m = replenishRounds (roundsRun n i env) i env m.
Proof.
  induction n as [|n IH]; intros i m Hst; [done|].
  cbn [roundsRun]. destruct (tick_done (env i)) eqn:Et.
  - by rewrite replenishRounds_S, Et.
  - rewrite !replenishRounds_S, Et, Hst. cbn [orb]. cbv zeta.
    do 2 f_equal. apply IH.
    by rewrite replenishResolve_stopped, replenishReserve_stopped.
Qed.

Lemma roundsRun_le n : ∀ i env, (roundsRun n i env ≤ n)%nat.
Proof.
  induction n as [|n IH]; intros i env; simpl; [done|].
  destruct (tick_done (env i)); [lia|]. specialize (IH (S i) env). lia.
Qed.

Lemma roundsRun_not_done n : ∀ i env k,
  (k < roundsRun n i env)%nat → tick_done (env (i + k)%nat) = false.
Proof.
  induction n as [|n IH]; intros i env k; simpl; [lia|].
  destruct (tick_done (env i)) eqn:Et; [lia|]. intros Hk.
  destruct k as [|k]; [by rewrite Nat.add_0_r|].
  replace (i + S k)%nat with (S i + k)%nat by lia. apply IH. lia.
Qed.

Lemma roundsRun_all n : ∀ i env,
  (∀ k, (k < n)%nat → tick_done (env (i + k)%nat) = false) →
  roundsRun n i env = n.
Proof.
  induction n as [|n IH]; intros i env Hticks; simpl; [done|].
  pose proof (Hticks 0%nat ltac:(lia)) as Ht0. rewrite Nat.add_0_r in Ht0.
  rewrite Ht0. f_equal. apply IH. intros k Hk.
  replace (S i + k)%nat with (i + S k)%nat by lia. apply Hticks. lia.
Qed.

(** The rounds of a run of [Replenish], in a manager whose sizes are
    away from the ends of the [int] range and whose counter has not
    handed out a name of the table yet: how many there are, and what each
    does. *)
Lemma Replenish_history_rounds (env : nat → ReplenishTick) (m : Manager) :
  saneSizes m → namesFresh m →
  let idle := len (filter (λ s, State s = SlotIdle) (slots m)) in
  let total := len (slots m) in
  let n := Z.to_nat (Z.max 0 (Z.min (WarmSize (cfg m) - idle)
                                    (MaxVMs (cfg m) - total))) in
  let ran := if stopped m then 0%nat else roundsRun n 0 env in
  let hist := ReplenishHistory env m in
  (stopped m = false → (∀ k, (k < n)%nat → tick_done (env k) = false) →
      ran = n) ∧
  (ran ≤ n)%nat ∧
  length hist = (2 * ran)%nat ∧
  (∀ k, (k < ran)%nat → ∃ before m1 m2,
      roundStart m hist k = Some before ∧
      hist !! (2 * k)%nat = Some m1 ∧ hist !! (2 * k + 1)%nat = Some m2 ∧
      isRound (env k) before m1 m2) ∧
  (total = MaxVMs (cfg m) ∨ WarmSize (cfg m) ≤ idle →
      hist = [] ∧ Replenish env m = m) ∧
  (total ≤ MaxVMs (cfg m) →
      (∀ m', m' ∈ hist → len (slots m') ≤ MaxVMs (cfg m)) ∧
      len (slots (Replenish env m)) ≤ MaxVMs (cfg m)).
Proof.
  intros Hsane Hfresh idle total n ran hist.
  pose proof (replenishNeeded_sane m Hsane) as Hneeded. cbv zeta in Hneeded.
  fold idle total in Hneeded.
  pose proof (idle_le_total m) as Hidle. fold idle total in Hidle.
  destruct Hsane as (Hw & Hx & Hc & Hl). fold total in Hl.
  literal_bounds.
  assert (ran ≤ n)%nat as Hran.
  { subst ran. destruct (stopped m); [lia|apply roundsRun_le]. }
  assert (stopped m = false → (∀ k, (k < n)%nat → tick_done (env k) = false) →
          ran = n) as Hall_run.
  { intros Hst Hticks. subst ran. rewrite Hst. by apply roundsRun_all. }
  assert (hist = replenishRounds ran 0 env m) as Hhist.
  { subst hist. unfold ReplenishHistory. rewrite Hneeded. case_decide as Hv.
    - assert (n = 0%nat) as Hn0 by (subst n; lia).
      assert (ran = 0%nat) as -> by lia. done.
    - replace (Z.to_nat _) with n by (subst n; lia). subst ran.
      destruct (stopped m) eqn:Est.
      + by rewrite replenishRounds_stopped.
      + by apply replenishRounds_cut. }
  assert (stopped m = true → ran = 0%nat) as Hstop.
  { intros Hst. subst ran. by rewrite Hst. }
  destruct (decide (ran = 0%nat)) as [Hz|Hnz].
  { unfold Replenish. fold hist. split; [exact Hall_run|].
    rewrite Hhist, Hz. simpl.
    split_and!; [lia|done|intros; lia|done|].
    intros Hle. split; [by intros m' ?%elem_of_nil|done]. }
  assert (stopped m = false) as Hst.
  { destruct (stopped m); [|done]. by destruct Hnz; apply Hstop. }
  assert (Z.of_nat n = Z.min (WarmSize (cfg m) - idle) (MaxVMs (cfg m) - total))
    as Hn by (subst n; lia).
  destruct (replenishRounds_spec env ran 0 m) as (Hlen & Hrounds & Hall);
    [done|unfold min_int; lia|unfold max_int; lia|done| |].
  { intros k Hk. subst ran. rewrite Hst in Hk.
    by apply (roundsRun_not_done n 0 env k). }
  unfold Replenish. fold hist. split; [exact Hall_run|]. rewrite Hhist.
  split_and!; [done|done|exact Hrounds|intros; lia|].
  intros Hle.
  assert (∀ m', m' ∈ replenishRounds ran 0 env m →
                len (slots m') ≤ MaxVMs (cfg m)) as Hbound.
  { intros m' Hin. destruct (Hall m' Hin) as [Hl' _].
    unfold len in *. fold total in Hl'. lia. }
  split; [done|].
  destruct (last _) as [ml|] eqn:El; simpl; [|done].
  apply Hbound. eapply list_elem_of_lookup_2.
  rewrite last_lookup in El. done.
Qed.

(** *** The invariant: active iff an agent ID is set *)

Lemma activeIffAgent_sublist m m' :
  slots m' `sublist_of` slots m → activeIffAgent m → activeIffAgent m'.
Proof. intros Hsub Hinv s Hs. apply Hinv. by eapply elem_of_sublist. Qed.

Lemma activeIffAgent_insert m i s l :
  activeIffAgent m → slotOk s → l = <[i := s]> (slots m) →
  ∀ x, x ∈ l → slotOk x.
Proof.
  intros Hinv Hs -> x. revert x. apply Forall_forall, Forall_insert; [|done].
  by apply Forall_forall.
Qed.

Lemma Claim_keeps now getVMIP io agentID project m :
  agentID ≠ "" → activeIffAgent m →
  activeIffAgent (Claim now getVMIP io agentID project m).2.
Proof.
  intros Hid Hinv. unfold Claim.
  destruct (list_find _ _) as [[i s]|]; [|done]. simpl.
  unfold activeIffAgent. rewrite persist_slots. simpl.
  eapply activeIffAgent_insert; [done| |done].
  unfold slotOk. by destruct (getVMIP _).
Qed.

Lemma Release_keeps io name m :
  activeIffAgent m → activeIffAgent (Release io name m).2.
Proof.
  intros Hinv. unfold Release.
  destruct (list_find _ _) as [[i s]|]; [|done].
  unfold activeIffAgent. rewrite persist_slots. simpl.
  eapply activeIffAgent_insert; [done| |done].
  unfold slotOk. simpl. split; [discriminate|done].
Qed.

Lemma Destroy_sublist io del name m :
  slots (Destroy io del name m).2 `sublist_of` slots m ∧
  counter (Destroy io del name m).2 = counter m.
Proof.
  unfold Destroy. destruct (list_find _ _) as [[i s]|]; [|done].
  destruct del; simpl; rewrite persist_slots, persist_counter; simpl;
    (split; [apply sublist_delete|done]).
Qed.

Lemma destroyAll_sublist env names : ∀ k m,
  slots (destroyAll k env names m) `sublist_of` slots m ∧
  counter (destroyAll k env names m) = counter m.
Proof.
  induction names as [|name names IH]; intros k m; simpl; [done|].
  destruct (IH (S k) (Destroy (env k).1 (env k).2 name m).2) as [Hs Hc].
  destruct (Destroy_sublist (env k).1 (env k).2 name m) as [Hs' Hc'].
  split; [by etrans|congruence].
Qed.

Lemma reconcile_sublist listing io m :
  slots (reconcile listing io m) `sublist_of` slots m ∧
  counter (reconcile listing io m) = counter m.
Proof.
  unfold reconcile. destruct listing; [|done].
  rewrite persist_slots, persist_counter. simpl.
  split; [apply sublist_filter|done].
Qed.

Lemma isRound_keeps_activeIffAgent t before m1 m2 :
  activeIffAgent before → isRound t before m1 m2 →
  activeIffAgent m1 ∧ activeIffAgent m2.
Proof.
  intros Hinv (Hs1 & _ & Hs2 & _). unfold activeIffAgent.
  rewrite Hs1, Hs2. split.
  - intros s [?|Hx%list_elem_of_singleton]%elem_of_app; [by apply Hinv|subst s].
    unfold slotOk. simpl. split; [discriminate|done].
  - destruct (tick_clone t); [done|].
    intros s [?|Hx%list_elem_of_singleton]%elem_of_app; [by apply Hinv|subst s].
    unfold slotOk. simpl. split; [discriminate|done].
Qed.

Lemma replenishNeeded_room m n :
  saneSizes m → replenishNeeded m = Some n →
  0 < n ∧ min_int ≤ counter m ∧ counter m + Z.of_nat (Z.to_nat n) ≤ max_int.
Proof.
  intros Hsane. rewrite (replenishNeeded_sane m Hsane). cbv zeta.
  pose proof (idle_le_total m) as Hidle.
  destruct Hsane as (Hw & Hx & Hc & Hl).
  literal_bounds. unfold min_int, max_int.
  case_decide; [done|]. intros [= <-]. lia.
Qed.

(** What every round keeps, a run of [Replenish] keeps. *)
Lemma Replenish_keeps (P : Manager → Prop) env m :
  (∀ t before m1 m2,
      namesFresh before → P before → isRound t before m1 m2 → P m1 ∧ P m2) →
  saneSizes m → namesFresh m → P m → P (Replenish env m).
Proof.
  intros Hkeep Hsane Hfresh HP. unfold Replenish, ReplenishHistory.
  destruct (replenishNeeded m) as [n|] eqn:En; [|done].
  destruct (replenishNeeded_room m n Hsane En) as (_ & Hlo & Hhi).
  destruct (last _) as [ml|] eqn:El; simpl; [|done].
  eapply (replenishRounds_keeps P env Hkeep); [done..|].
  eapply list_elem_of_lookup_2. rewrite last_lookup in El. done.
Qed.


(** *** Names stay unique and fresh *)

Lemma names_insert (l : list VMSlot) i s s' :
  l !! i = Some s → Name s' = Name s → Name <$> <[i := s']> l = Name <$> l.
Proof.
  intros Hi Hn. rewrite list_fmap_insert, Hn.
  apply list_insert_id. by rewrite list_lookup_fmap, Hi.
Qed.

Lemma Claim_names now getVMIP io agentID project m :
  Name <$> slots (Claim now getVMIP io agentID project m).2 = Name <$> slots m.
Proof.
  unfold Claim. destruct (list_find _ _) as [[i s]|] eqn:E; [|done]. simpl.
  apply list_find_Some in E as (Hi & _). rewrite persist_slots. simpl.
  eapply names_insert; [done|]. by destruct (getVMIP _).
Qed.

Lemma Release_names io name m :
  Name <$> slots (Release io name m).2 = Name <$> slots m.
Proof.
  unfold Release. destruct (list_find _ _) as [[i s]|] eqn:E; [|done].
  apply list_find_Some in E as (Hi & _). rewrite persist_slots. simpl.
  by eapply names_insert.
Qed.

Lemma Claim_counter now getVMIP io agentID project m :
  counter (Claim now getVMIP io agentID project m).2 = counter m.
Proof.
  unfold Claim. destruct (list_find _ _) as [[i s]|]; [|done]. simpl.
  by rewrite persist_counter.
Qed.

Lemma Release_counter io name m : counter (Release io name m).2 = counter m.
Proof.
  unfold Release. destruct (list_find _ _) as [[i s]|]; [|done].
  by rewrite persist_counter.
Qed.

Lemma names_sublist m m' :
  slots m' `sublist_of` slots m → counter m' = counter m →
  namesUnique m ∧ namesFresh m → namesUnique m' ∧ namesFresh m'.
Proof.
  intros Hsub Hc [Hu Hf]. split.
  - eapply sublist_NoDup; [done|]. by apply fmap_sublist.
  - intros k Hk Hin. rewrite Hc in Hk. apply (Hf k Hk).
    eapply elem_of_sublist; [done|]. by apply fmap_sublist.
Qed.

Lemma isRound_keeps_names t before m1 m2 :
  namesFresh before → namesUnique before ∧ namesFresh before →
  isRound t before m1 m2 →
  (namesUnique m1 ∧ namesFresh m1) ∧ (namesUnique m2 ∧ namesFresh m2).
Proof.
  intros _ [Hu Hf] Hround. pose proof Hround as (Hs1 & Hc1 & Hs2 & Hc2).
  assert (warmName (counter before + 1) ∉ Name <$> slots before) as Hnew.
  { apply Hf. lia. }
  assert (NoDup ((Name <$> slots before) ++ [warmName (counter before + 1)])) as Hnd.
  { apply NoDup_app. split_and!; [done| |apply NoDup_singleton].
    intros x Hx ->%list_elem_of_singleton. done. }
  split_and!.
  - unfold namesUnique. by rewrite Hs1, fmap_app.
  - eapply namesFresh_round; [done..|]. intros x. rewrite Hs1, fmap_app, elem_of_app.
    intros [?|Hx]; [by left|right]. simpl in Hx. by apply list_elem_of_singleton in Hx.
  - unfold namesUnique. rewrite Hs2. destruct (tick_clone t); [done|].
    by rewrite fmap_app.
  - eapply namesFresh_round; [done..|]. intros x. by eapply isRound_names.
Qed.

(** Unique and fresh names are kept by every operation, so they hold in
    every state the manager reaches from an empty table. *)
Lemma names_preserved (op : Op) (m : Manager) :
  (opReplenishes op → saneSizes m) →
  namesUnique m ∧ namesFresh m →
  namesUnique (applyOp op m) ∧ namesFresh (applyOp op m).
Proof.
  intros Hrep Hn. destruct op; simpl in *.
  - unfold namesUnique, namesFresh in *.
    by rewrite Claim_names, Claim_counter.
  - unfold namesUnique, namesFresh in *.
    by rewrite Release_names, Release_counter.
  - eapply names_sublist; [..|done]; apply Destroy_sublist.
  - apply (Replenish_keeps (λ m, namesUnique m ∧ namesFresh m)); [|tauto..].
    apply isRound_keeps_names.
  - eapply names_sublist; [..|done]; apply destroyAll_sublist.
  - done.
  - eapply names_sublist; [..|done]; apply reconcile_sublist.
Qed.

Lemma names_empty cfg d :
  namesUnique (mkManager cfg [] 0 d false) ∧
  namesFresh (mkManager cfg [] 0 d false).
Proof.
  split; [apply NoDup_nil_2|]. intros k _. simpl. apply not_elem_of_nil.
Qed.

(** X9.  In every state that a manager reaches from its first boot (an
    empty table, counter zero), under claims for agents with an ID and
    runs of [Replenish] with sizes that do not wrap: a slot is active
    exactly when it carries an agent ID, no two slots have the same name,
    and no slot is named after a counter value yet to come. *)
Lemma reachable_wellformed m :
  reachable m → activeIffAgent m ∧ namesUnique m ∧ namesFresh m.
Proof.
  induction 1 as [cfg d|op m Hreach (Hact & Hnames) Hid Hsane].
  - split; [|apply names_empty]. intros s Hs. by apply elem_of_nil in Hs.
  - split; [|by apply names_preserved].
    destruct Hnames as [Hu Hf]. destruct op; simpl in *.
    + by apply Claim_keeps.
    + by apply Release_keeps.
    + eapply activeIffAgent_sublist; [|done]. apply Destroy_sublist.
    + apply (Replenish_keeps activeIffAgent); [|by apply Hsane|done..].
      intros t before m1 m2 _. apply isRound_keeps_activeIffAgent.
    + eapply activeIffAgent_sublist; [|done]. apply destroyAll_sublist.
    + done.
    + eapply activeIffAgent_sublist; [|done]. apply reconcile_sublist.
Qed.

End props.

(** *** The state store *)

Section storeProps.
Context `{Codec}.

Lemma unmarshalFields_app {A} (step : A → string * json → result A) acc l1 l2 :
  unmarshalFields step acc (l1 ++ l2) =
    unmarshalFields step acc l1 ≫= λ acc', unmarshalFields step acc' l2.
Proof.
  revert acc. induction l1 as [|kv l1 IH]; intros acc; simpl; [done|].
  destruct (step acc kv); simpl; [apply IH|done].
Qed.

Lemma unmarshalFields_omitempty key v acc acc' rest :
  (v = "" → acc' = acc) →
  (v ≠ "" → unmarshalSlotField acc (key, JStr (utf8 v)) = Ok acc') →
  unmarshalFields unmarshalSlotField acc (omitempty key v ++ rest) =
    unmarshalFields unmarshalSlotField acc' rest.
Proof.
  intros Hempty Hset. unfold omitempty. case_decide as Hv.
  - by rewrite Hempty.
  - change (unmarshalFields unmarshalSlotField acc
              ((key, JStr (utf8 v)) :: rest) = unmarshalFields unmarshalSlotField acc' rest).
    cbn [unmarshalFields]. by rewrite Hset.
Qed.

Lemma unmarshalSlot_marshalSlot s j :
  timeRoundTrip → wfSlot s → marshalSlot s = Some j → unmarshalSlot j = Ok s.
Proof.
  intros Htime (Hn & Hst & Ha & Hp & Ht & Hb & Hi & Hip & _ & _).
  destruct s as [n st a p t b i ip c cl]. simpl in *.
  unfold marshalSlot. simpl.
  destruct (MarshalTime c) as [ct|] eqn:Ec; [|done].
  destruct (MarshalTime cl) as [clt|] eqn:Ecl; [|done]. simpl.
  intros [= <-]. rewrite Hn, Hst.
  change (unmarshalFields unmarshalSlotField
            (mkVMSlot n st "" "" "" "" "" "" 0 0)
            (omitempty "agentID" a ++ omitempty "project" p ++
             omitempty "tool" t ++ omitempty "branch" b ++
             omitempty "issue" i ++ omitempty "vmIP" ip ++
             [("createdAt", JStr ct); ("claimedAt", JStr clt)])
          = Ok (mkVMSlot n st a p t b i ip c cl)).
  rewrite (unmarshalFields_omitempty _ _ _ (mkVMSlot n st a "" "" "" "" "" 0 0));
    [|by intros -> | by intros _; simpl; rewrite Ha].
  rewrite (unmarshalFields_omitempty _ _ _ (mkVMSlot n st a p "" "" "" "" 0 0));
    [|by intros -> | by intros _; simpl; rewrite Hp].
  rewrite (unmarshalFields_omitempty _ _ _ (mkVMSlot n st a p t "" "" "" 0 0));
    [|by intros -> | by intros _; simpl; rewrite Ht].
  rewrite (unmarshalFields_omitempty _ _ _ (mkVMSlot n st a p t b "" "" 0 0));
    [|by intros -> | by intros _; simpl; rewrite Hb].
  rewrite (unmarshalFields_omitempty _ _ _ (mkVMSlot n st a p t b i "" 0 0));
    [|by intros -> | by intros _; simpl; rewrite Hi].
  rewrite (unmarshalFields_omitempty _ _ _ (mkVMSlot n st a p t b i ip 0 0));
    [|by intros -> | by intros _; simpl; rewrite Hip].
  simpl. rewrite (Htime _ _ Ec). simpl. rewrite (Htime _ _ Ecl). done.
Qed.

Lemma mapM_marshalSlot_roundtrip l :
  timeRoundTrip → Forall wfSlot l →
  ∃ js, mapM marshalSlot l = Some js ∧ mapM unmarshalSlot js = Ok l.
Proof.
  intros Htime. induction 1 as [|s l Hs Hl (js & Hm & Hu)]; simpl.
  { by exists []. }
  destruct (marshalSlot s) as [j|] eqn:Ej.
  - exists (j :: js). simpl. rewrite Hm. simpl. split; [done|].
    rewrite (unmarshalSlot_marshalSlot s j Htime Hs Ej). simpl.
    by rewrite Hu.
  - exfalso. destruct Hs as (_ & _ & _ & _ & _ & _ & _ & _ & [ct Hc] & [clt Hcl]).
    unfold marshalSlot in Ej. rewrite Hc, Hcl in Ej. done.
Qed.

(** C9.  With a [time] package whose JSON form reads back, a well-formed
    snapshot that [Save] writes without an I/O failure is what the next
    [Load] returns; and such a [Save] does not fail. *)
Theorem Save_Load_roundtrip (st : PersistentState) (disk : option file) :
  timeRoundTrip → wfState st →
  (Save IoOk st disk).1 = None ∧ Load None (Save IoOk st disk).2 = Ok st.
Proof.
  intros Htime [Hslots Hc]. destruct st as [l c]. simpl in *.
  destruct (mapM_marshalSlot_roundtrip l Htime Hslots) as (js & Hm & Hu).
  unfold Save, marshalState. simpl. rewrite Hm. simpl. split; [done|].
  rewrite Hu. simpl. by rewrite decide_True.
Qed.

End storeProps.

Lemma evalCodec_timeRoundTrip : timeRoundTrip (H := evalCodec).
Proof.
  intros t text. simpl. case_decide as Ht; [|done]. intros [= <-].
  rewrite decide_True by done. by rewrite Ht.
Qed.

(** C9 at the snapshot of the package's persistence test. *)
Lemma Save_Load_roundtrip_witness :
  let st := mkPersistentState
              [mkVMSlot "warm-1" SlotIdle "" "" "" "" "" "" 0 0;
               mkVMSlot "warm-2" SlotActive "agent-1" "" "" "" "" "" 0 0] 5 in
  (Save (H := evalCodec) IoOk st None).1 = None ∧
  Load (H := evalCodec) None (Save (H := evalCodec) IoOk st None).2 = Ok st.
Proof.
  intros st.
  apply (Save_Load_roundtrip (H := evalCodec) st None).
  - exact evalCodec_timeRoundTrip.
  - split.
    + repeat constructor; simpl; eauto.
    + vm_compute. split; discriminate.
Defined.



(** C4, as stated, fails: an idle slot is not left as it was. *)
Lemma Release_changes_idle_slot :
  let idle := mkVMSlot "warm-1" SlotIdle "" "" "" "" "" "" 0 0 in
  let m := mkManager (mkPoolConfig 1 2 "agent-master") [idle] 1 None false in
  State idle ≠ SlotActive ∧
  (Release (H := evalCodec) IoOk "warm-1" m).1 = None ∧
  slots (Release (H := evalCodec) IoOk "warm-1" m).2 = [set_State SlotCold idle] ∧
  slots (Release (H := evalCodec) IoOk "warm-1" m).2 ≠ slots m.
Proof. vm_compute. split_and!; [discriminate|reflexivity|reflexivity|discriminate]. Qed.

(** *** More about the manager *)

Section more.
Context `{Codec}.

Lemma unmarshalFields_omitempty_any {A} (step : A → string * json → result A)
    key v (acc acc' : A) rest :
  (v = "" → acc' = acc) →
  (v ≠ "" → step acc (key, JStr (utf8 v)) = Ok acc') →
  unmarshalFields step acc (omitempty key v ++ rest) =
    unmarshalFields step acc' rest.
Proof.
  intros Hempty Hset. unfold omitempty. case_decide as Hv.
  - by rewrite Hempty.
  - change (unmarshalFields step acc ((key, JStr (utf8 v)) :: rest) =
            unmarshalFields step acc' rest).
    cbn [unmarshalFields]. by rewrite Hset.
Qed.

(** X1.  [Destroy] of a name that no slot has is the not-found error and
    changes nothing.  Otherwise the first slot of that name leaves the
    table, and no other; this holds also when the deletion of the VM
    fails, which is the error returned: the record is gone first. *)
Theorem Destroy_removes_record (io : io_outcome) (del : option error)
    (name : string) (m : Manager) :
  let r := Destroy io del name m in
  ((∀ s, s ∈ slots m → Name s ≠ name) → r = (Some (ErrVMNotFound name), m)) ∧
  (∀ i s, slots m !! i = Some s → Name s = name →
          (∀ j s', slots m !! j = Some s' → (j < i)%nat → Name s' ≠ name) →
     slots r.2 = delete i (slots m) ∧
     counter r.2 = counter m ∧ cfg r.2 = cfg m ∧
     r.1 = match del with
           | Some e => Some (ErrWrap ("deleting VM " +:+ name) e)
           | None => None
           end).
Proof.
  intros r. subst r. unfold Destroy.
  destruct (list_find _ _) as [[i0 s0]|] eqn:E.
  - apply list_find_Some in E as (Hi0 & Hname & Hmin). split.
    + intros Hn. destruct (Hn s0); [eapply list_elem_of_lookup_2|]; done.
    + intros i s Hi Hs Hfirst.
      assert (i = i0) as ->.
      { destruct (Nat.lt_total i i0) as [Hlt|[?|Hlt]]; [|done|].
        - destruct (Hmin _ _ Hi Hlt Hs).
        - destruct (Hfirst _ _ Hi0 Hlt Hname). }
      destruct del; simpl; rewrite persist_slots, persist_counter, persist_cfg; done.
  - apply list_find_None in E. rewrite Forall_forall in E. split; [done|].
    intros i s Hi Hs _. destruct (E s); [eapply list_elem_of_lookup_2|]; done.
Qed.

Lemma unique_name_eq (l : list VMSlot) (x y : VMSlot) :
  NoDup (Name <$> l) → x ∈ l → y ∈ l → Name x = Name y → x = y.
Proof.
  intros Hnd [i Hi]%list_elem_of_lookup_1 [j Hj]%list_elem_of_lookup_1 Hn.
  assert (i = j) as ->.
  { eapply (NoDup_lookup _ _ _ (Name x) Hnd); rewrite list_lookup_fmap.
    - by rewrite Hi.
    - by rewrite Hj; simpl; rewrite Hn. }
  congruence.
Qed.

Lemma filter_all {A} (P : A → Prop) `{∀ x, Decision (P x)} (l : list A) :
  Forall P l → filter P l = l.
Proof.
  induction 1 as [|x l Hx Hl IH]; [done|].
  by rewrite filter_cons_True, IH.
Qed.

Lemma filter_iff_in {A} (P Q : A → Prop) `{∀ x, Decision (P x)}
    `{∀ x, Decision (Q x)} (l : list A) :
  (∀ x, x ∈ l → P x ↔ Q x) → filter P l = filter Q l.
Proof.
  induction l as [|x l IH]; intros HPQ; [done|].
  rewrite !filter_cons. rewrite IH by (intros y Hy; apply HPQ; by right).
  destruct (HPQ x) as [HP HQ]; [by left|].
  repeat case_decide; tauto.
Qed.

Lemma delete_filter_unique (l : list VMSlot) : ∀ i s,
  NoDup (Name <$> l) → l !! i = Some s →
  delete i l = filter (λ x, Name x ≠ Name s) l.
Proof.
  induction l as [|x l IH]; intros i s Hnd Hi; [done|].
  rewrite fmap_cons in Hnd. apply NoDup_cons in Hnd as [Hx Hnd].
  destruct i as [|i]; simpl in Hi.
  - injection Hi as ->. simpl. rewrite filter_cons_False by (by intros Hne).
    symmetry. apply filter_all, Forall_forall. intros y Hy Hn.
    apply Hx. rewrite <- Hn. by apply list_elem_of_fmap_2.
  - simpl. rewrite filter_cons_True.
    + f_equal. by apply IH.
    + intros Hn. apply Hx. rewrite Hn. apply list_elem_of_fmap_2.
      by eapply list_elem_of_lookup_2.
Qed.

(** Under unique names [Destroy] removes the slots of that name. *)
Lemma Destroy_unique io del name m :
  namesUnique m →
  slots (Destroy io del name m).2 = filter (λ s, Name s ≠ name) (slots m).
Proof.
  intros Hu. unfold Destroy.
  destruct (list_find _ _) as [[i s]|] eqn:E.
  - apply list_find_Some in E as (Hi & <- & _).
    rewrite <- (delete_filter_unique _ i s Hu Hi).
    destruct del; simpl; by rewrite persist_slots.
  - apply list_find_None in E. simpl. symmetry. apply filter_all.
    eapply Forall_impl; [exact E|]. done.
Qed.

Lemma destroyAll_unique env names : ∀ k m,
  namesUnique m →
  slots (destroyAll k env names m) = filter (λ s, Name s ∉ names) (slots m).
Proof.
  induction names as [|name rest IH]; intros k m Hu; simpl.
  - symmetry. apply filter_all, Forall_forall. intros s _. apply not_elem_of_nil.
  - rewrite IH.
    + rewrite Destroy_unique by done. rewrite list_filter_filter.
      apply list_filter_iff. intros s. rewrite not_elem_of_cons. tauto.
    + unfold namesUnique. eapply sublist_NoDup; [exact Hu|].
      apply fmap_sublist, Destroy_sublist.
Qed.

(** X2.  [Drain] on a table with unique names: the idle slots go, the
    others stay as they are and in their order, whatever the deletions of
    the VMs and the writes of the state file return; the counter is kept
    and the result is always nil. *)
Theorem Drain_removes_idle (env : nat → io_outcome * option error)
    (m : Manager) :
  namesUnique m →
  let r := Drain env m in
  r.1 = None ∧
  slots r.2 = filter (λ s, State s ≠ SlotIdle) (slots m) ∧
  counter r.2 = counter m ∧
  Status r.2 = (0, (Status m).1.2, (Status m).2).
Proof.
  intros Hu r. subst r. unfold Drain. simpl.
  assert (slots (destroyAll 0 env (Name <$> filter (λ s, State s = SlotIdle) (slots m)) m)
          = filter (λ s, State s ≠ SlotIdle) (slots m)) as Hs.
  { rewrite destroyAll_unique by done. apply filter_iff_in. intros s Hs. split.
    - intros Hn Hidle. apply Hn. apply list_elem_of_fmap_2.
      by apply list_elem_of_filter.
    - intros Hidle (s' & Hn & [Hidle' Hs']%list_elem_of_filter)%list_elem_of_fmap.
      assert (s = s') as -> by by eapply unique_name_eq. done. }
  split_and!; [done|exact Hs|apply destroyAll_sublist|].
  unfold Status. rewrite Hs, !list_filter_filter.
  f_equal; [f_equal|].
  - rewrite (filter_iff_in _ (λ _, False)) by (intros; tauto).
    generalize (slots m). by induction l.
  - f_equal. apply list_filter_iff. intros s. split; [tauto|].
    intros Hs'. split; [done|]. rewrite Hs'. done.
  - f_equal. apply list_filter_iff. intros s. split; [tauto|].
    intros Hs'. split; [done|]. rewrite Hs'. done.
Qed.

(** *** Status, and GetSlot after Claim and Release *)

Lemma len_filter_insert (P : VMSlot → Prop) `{∀ x, Decision (P x)}
    (l : list VMSlot) i x y :
  l !! i = Some x →
  len (filter P (<[i := y]> l)) =
    len (filter P l) - Z.b2z (bool_decide (P x)) + Z.b2z (bool_decide (P y)).
Proof.
  intros Hi. assert (i < length l)%nat as Hlt by by eapply lookup_lt_Some.
  rewrite insert_take_drop by done.
  rewrite <- (take_drop_middle l i x Hi) at 3.
  unfold len. rewrite !filter_app, !filter_cons, !length_app.
  rewrite !(bool_decide_decide (P _)).
  destruct (decide (P x)), (decide (P y)); simpl; lia.
Qed.

(** X3.  [Status] counts what [Claim] and [Release] do.  A successful
    claim moves one slot from warm to active.  A release, on a table with
    unique names, takes the named slot out of the count of its state and
    adds one to cold. *)
Theorem Status_after_Claim_and_Release (m : Manager) :
  let '(warm, active, cold) := Status m in
  (∀ now getVMIP io agentID project c m1,
      Claim now getVMIP io agentID project m = (Ok c, m1) →
      Status m1 = (warm - 1, active + 1, cold)) ∧
  (∀ io s, namesUnique m → s ∈ slots m →
      Status (Release io (Name s) m).2 =
        (warm - Z.b2z (bool_decide (State s = SlotIdle)),
         active - Z.b2z (bool_decide (State s = SlotActive)),
         cold - Z.b2z (bool_decide (State s = SlotCold)) + 1)).
Proof.
  unfold Status. split.
  - intros now getVMIP io agentID project c m1. unfold Claim.
    destruct (list_find _ _) as [[i s]|] eqn:E; [|done].
    apply list_find_Some in E as (Hi & Hidle & _). intros [= <- <-].
    rewrite persist_slots. simpl.
    rewrite !(len_filter_insert _ _ i s) by done.
    assert (∀ x, State (match getVMIP (Name s) with
                        | Ok ip => set_VMIP ip x | Err _ => x end) = State x) as Hst
      by (intros x; by destruct (getVMIP _)).
    destruct (getVMIP (Name s)); simpl; rewrite Hidle;
      rewrite ?bool_decide_true, ?bool_decide_false by done; simpl;
      by rewrite !Z.add_0_r, !Z.sub_0_r.
  - intros io s Hu [i Hi]%list_elem_of_lookup_1.
    rewrite (Release_of_unique io (Name s) m i s) by done.
    rewrite !(len_filter_insert _ _ i s) by done. simpl.
    by rewrite !Z.add_0_r.
Qed.

Lemma list_find_insert_same (P : VMSlot → Prop) `{∀ x, Decision (P x)}
    (l : list VMSlot) i x y :
  list_find P l = Some (i, x) → P y →
  list_find P (<[i := y]> l) = Some (i, y).
Proof.
  intros (Hi & Hx & Hmin)%list_find_Some Hy. apply list_find_Some.
  split_and!; [|done|].
  - rewrite list_lookup_insert_eq; [done|]. by eapply lookup_lt_Some.
  - intros j z Hj Hlt. rewrite list_lookup_insert_ne in Hj by lia.
    by eapply Hmin.
Qed.

Lemma persist_again m : persist IoOk (persist IoOk m).2 = persist IoOk m.
Proof.
  unfold persist.
  assert (∀ st d, Save IoOk st (Save IoOk st d).2 = Save IoOk st d) as Hs.
  { intros st d. unfold Save. by destruct (marshalState st). }
  specialize (Hs (mkPersistentState (slots m) (counter m)) (disk m)).
  destruct (Save IoOk _ (disk m)) as [err d]. cbn -[Save] in *. by rewrite Hs.
Qed.

(** X4.  Releasing a VM twice is releasing it once: the second call finds
    the same slot and leaves the table as the first call left it; when
    both writes of the state file go through, it also returns the same
    result and leaves the same file. *)
Theorem Release_idempotent (io1 io2 : io_outcome) (name : string)
    (m : Manager) :
  slots (Release io2 name (Release io1 name m).2).2 =
    slots (Release io1 name m).2 ∧
  Release IoOk name (Release IoOk name m).2 = Release IoOk name m.
Proof.
  assert (∀ io io', slots (Release io' name (Release io name m).2).2 =
                    slots (Release io name m).2) as Hslots.
  { intros io io'. unfold Release at 2 3.
    destruct (list_find _ (slots m)) as [[i s]|] eqn:E.
    - pose proof (proj1 (list_find_Some _ _ _ _) E) as (_ & Hn & _).
      unfold Release. rewrite persist_slots. simpl.
      rewrite (list_find_insert_same _ _ i s _ E) by done.
      rewrite persist_slots. simpl. by rewrite list_insert_insert_eq.
    - simpl. unfold Release. by rewrite E. }
  split; [apply Hslots|].
  unfold Release at 2 3.
  destruct (list_find _ (slots m)) as [[i s]|] eqn:E.
  - pose proof (proj1 (list_find_Some _ _ _ _) E) as (_ & Hn & _).
    set (m' := set_slots _ m). unfold Release. rewrite persist_slots.
    subst m'. simpl. rewrite (list_find_insert_same _ _ i s _ E) by done.
    rewrite list_insert_insert_eq. simpl.
    set (m' := set_slots _ m).
    replace (set_slots _ (persist IoOk m').2) with (persist IoOk m').2.
    + apply persist_again.
    + unfold persist. destruct (Save _ _ _). done.
  - simpl. unfold Release. by rewrite E.
Qed.

(** X5.  [GetSlot] along the life of an agent.  When no slot carries the
    agent's ID yet, as a name or as an agent ID, a successful [Claim]
    makes [GetSlot] by that ID return the claimed slot, which is then
    among the active slots; on a table with unique names, releasing that
    VM makes [GetSlot] by the ID find nothing again. *)
Theorem GetSlot_follows_Claim_and_Release (now : Time)
    (getVMIP : string → result string) (io io' : io_outcome)
    (agentID project : string) (m m1 : Manager) (c : VMSlot) :
  agentID ≠ "" →
  (∀ s, s ∈ slots m → Name s ≠ agentID ∧ AgentID s ≠ agentID) →
  Claim now getVMIP io agentID project m = (Ok c, m1) →
  GetSlot agentID m1 = Some c ∧
  c ∈ ActiveSlots m1 ∧
  (namesUnique m → GetSlot agentID (Release io' (Name c) m1).2 = None).
Proof.
  intros Hid Hnone. unfold Claim.
  destruct (list_find _ _) as [[i s]|] eqn:E; [|done].
  apply list_find_Some in E as (Hi & Hidle & _). intros [= <- <-].
  set (c := match getVMIP _ with Ok ip => _ | Err _ => _ end).
  assert (AgentID c = agentID ∧ State c = SlotActive ∧ Name c = Name s)
    as (Hca & Hcs & Hcn) by (subst c; by destruct (getVMIP _)).
  assert (i < length (slots m))%nat as Hlt by by eapply lookup_lt_Some.
  assert (<[i := c]> (slots m) !! i = Some c) as Hic
    by by rewrite list_lookup_insert_eq.
  split_and!.
  - unfold GetSlot. rewrite persist_slots. simpl.
    erewrite (proj2 (list_find_Some _ _ i c)); [done|].
    split_and!; [done|by right|].
    intros j y Hj Hji. rewrite list_lookup_insert_ne in Hj by lia.
    destruct (Hnone y) as [? ?]; [by eapply list_elem_of_lookup_2|]. tauto.
  - unfold ActiveSlots. rewrite persist_slots. simpl.
    apply list_elem_of_filter. split; [done|]. by eapply list_elem_of_lookup_2.
  - intros Hu. unfold GetSlot.
    rewrite (Release_of_unique io' (Name c) _ i c);
      [|unfold namesUnique; rewrite persist_slots; simpl;
        by erewrite names_insert|by rewrite persist_slots|done].
    rewrite persist_slots. simpl. rewrite list_insert_insert_eq.
    erewrite (proj2 (list_find_None _ _)); [done|].
    apply Forall_forall. intros y [j Hj]%list_elem_of_lookup_1.
    destruct (decide (j = i)) as [->|Hne].
    + rewrite list_lookup_insert_eq in Hj by done. injection Hj as <-. simpl.
      intros [Hn|Ha]; [|done].
      destruct (Hnone s) as [? ?]; [by eapply list_elem_of_lookup_2|]. congruence.
    + rewrite list_lookup_insert_ne in Hj by done.
      destruct (Hnone y) as [? ?]; [by eapply list_elem_of_lookup_2|]. tauto.
Qed.

(** *** What a run of [Replenish] leaves *)

Lemma replenishRounds_last env n : ∀ i m,
  namesFresh m →
  min_int ≤ counter m → counter m + Z.of_nat n ≤ max_int →
  stopped m = false →
  (∀ k, (k < n)%nat → tick_done (env (i + k)%nat) = false) →
  let m' := default m (last (replenishRounds n i env m)) in
  slots m' = slots m ++ settled n i env (counter m) ∧
  counter m' = counter m + Z.of_nat n ∧ cfg m' = cfg m.
Proof.
  induction n as [|n IH]; intros i m Hfresh Hlo Hhi Hst Hticks m'; subst m'.
  { simpl. by rewrite app_nil_r, Z.add_0_r. }
  pose proof (replenishRounds_step env n i m Hfresh) as Hstep.
  rewrite Hst, orb_false_r in Hstep.
  rewrite <- (Nat.add_0_r i), Hticks in Hstep by lia. rewrite Nat.add_0_r in Hstep.
  destruct Hstep as (m1 & m2 & Heq & (Hs1 & Hc1 & Hs2 & Hc2) & Hfresh2 & Hst2 & _ & Hcfg2);
    [unfold in_range; lia|].
  rewrite Heq.
  assert (∀ k, (k < n)%nat → tick_done (env (S i + k)%nat) = false) as Hticks'.
  { intros k Hk. replace (S i + k)%nat with (i + S k)%nat by lia.
    apply Hticks. lia. }
  assert (stopped m2 = false) as Hst2' by congruence.
  assert (min_int ≤ counter m2) as Hlo' by lia.
  assert (counter m2 + Z.of_nat n ≤ max_int) as Hhi' by lia.
  pose proof (IH (S i) m2 Hfresh2 Hlo' Hhi' Hst2' Hticks') as (Hs & Hc & Hcfg).
  assert (default m (last (m1 :: m2 :: replenishRounds n (S i) env m2)) =
          default m2 (last (replenishRounds n (S i) env m2))) as ->.
  { destruct (replenishRounds n (S i) env m2) as [|x l]; [done|].
    rewrite !last_cons_cons.
    destruct (last (x :: l)) eqn:El; [done|].
    by apply last_None in El. }
  rewrite Hs, Hc, Hcfg, Hs2, Hc2, Hcfg2. split_and!; [|lia|done].
  cbn [settled]. destruct (tick_clone (env i)); [done|].
  by rewrite <- app_assoc.
Qed.

Lemma Replenish_closed env m :
  saneSizes m → namesFresh m →
  let idle := len (filter (λ s, State s = SlotIdle) (slots m)) in
  let total := len (slots m) in
  let n := Z.to_nat (Z.max 0 (Z.min (WarmSize (cfg m) - idle)
                                    (MaxVMs (cfg m) - total))) in
  let ran := if stopped m then 0%nat else roundsRun n 0 env in
  slots (Replenish env m) = slots m ++ settled ran 0 env (counter m) ∧
  counter (Replenish env m) = counter m + Z.of_nat ran ∧
  cfg (Replenish env m) = cfg m.
Proof.
  intros Hsane Hfresh idle total n ran.
  pose proof (replenishNeeded_sane m Hsane) as Hneeded. cbv zeta in Hneeded.
  fold idle total in Hneeded.
  pose proof (idle_le_total m) as Hidle. fold idle total in Hidle.
  destruct Hsane as (Hw & Hx & Hc & Hl). fold total in Hl.
  literal_bounds.
  assert (ran ≤ n)%nat as Hran.
  { subst ran. destruct (stopped m); [lia|apply roundsRun_le]. }
  assert (ReplenishHistory env m = replenishRounds ran 0 env m) as Hhist.
  { unfold ReplenishHistory. rewrite Hneeded. case_decide as Hv.
    - assert (n = 0%nat) as Hn0 by (subst n; lia).
      assert (ran = 0%nat) as -> by lia. done.
    - replace (Z.to_nat _) with n by (subst n; lia). subst ran.
      destruct (stopped m) eqn:Est.
      + by rewrite replenishRounds_stopped.
      + by apply replenishRounds_cut. }
  unfold Replenish. rewrite Hhist.
  destruct (stopped m) eqn:Est.
  { subst ran. simpl. by rewrite app_nil_r, Z.add_0_r. }
  apply replenishRounds_last; [done|unfold min_int; lia|unfold max_int; lia|done|].
  intros k Hk. by apply (roundsRun_not_done n 0 env k).
Qed.

(** C3, as the code has it.  In a manager whose sizes are away from the
    ends of the [int] range and whose counter has not handed out a name
    of the table yet, a run of [Replenish] makes [max 0 (min (warmSize -
    idle) (maxVMs - total))] rounds: exactly that many when it is neither
    stopped nor cancelled, and otherwise the rounds that come before the
    cancellation.  Each round inserts one slot in state creating, named
    after the next counter value, and then makes that slot idle if its
    clone succeeded and removes it if the clone failed; so the run
    returns with the old table followed by one idle slot for each round
    whose clone succeeded, and with the counter advanced by the rounds
    run.  No slot is inserted when the table is full or enough slots are
    idle, and a table within [maxVMs] stays within it at every step. *)
Theorem Replenish_inserts_needed (env : nat → ReplenishTick) (m : Manager) :
  saneSizes m → namesFresh m →
  let idle := len (filter (λ s, State s = SlotIdle) (slots m)) in
  let total := len (slots m) in
  let n := Z.to_nat (Z.max 0 (Z.min (WarmSize (cfg m) - idle)
                                    (MaxVMs (cfg m) - total))) in
  let ran := if stopped m then 0%nat else roundsRun n 0 env in
  let hist := ReplenishHistory env m in
  let m' := Replenish env m in
  (stopped m = false → (∀ k, (k < n)%nat → tick_done (env k) = false) →
      ran = n) ∧
  (ran ≤ n)%nat ∧
  length hist = (2 * ran)%nat ∧
  (∀ k, (k < ran)%nat → ∃ before m1 m2,
      roundStart m hist k = Some before ∧
      hist !! (2 * k)%nat = Some m1 ∧ hist !! (2 * k + 1)%nat = Some m2 ∧
      isRound (env k) before m1 m2) ∧
  slots m' = slots m ++ settled ran 0 env (counter m) ∧
  counter m' = counter m + Z.of_nat ran ∧
  cfg m' = cfg m ∧
  (total = MaxVMs (cfg m) ∨ WarmSize (cfg m) ≤ idle → hist = [] ∧ m' = m) ∧
  (total ≤ MaxVMs (cfg m) →
      (∀ x, x ∈ hist → len (slots x) ≤ MaxVMs (cfg m)) ∧
      len (slots m') ≤ MaxVMs (cfg m)).
Proof.
  intros Hsane Hfresh idle total n ran hist m'.
  destruct (Replenish_history_rounds env m Hsane Hfresh)
    as (Hall & Hle & Hlen & Hrounds & Hnone & Hcap).
  destruct (Replenish_closed env m Hsane Hfresh) as (Hs & Hc & Hcfg).
  split_and!; done.
Qed.

Lemma settled_idle env n : ∀ i c,
  Forall (λ s, State s = SlotIdle) (settled n i env c).
Proof.
  induction n as [|n IH]; intros i c; simpl; [done|].
  apply Forall_app. split; [|apply IH]. destruct (tick_clone _); by repeat constructor.
Qed.


Lemma settled_all_cloned env n : ∀ i c,
  (∀ k, (k < n)%nat → tick_clone (env (i + k)%nat) = None) →
  length (settled n i env c) = n.
Proof.
  induction n as [|n IH]; intros i c Hall; simpl; [done|].
  rewrite <- (Nat.add_0_r i) at 1. rewrite Hall by lia. simpl. f_equal.
  apply IH. intros k Hk. replace (S i + k)%nat with (i + S k)%nat by lia.
  apply Hall. lia.
Qed.

Lemma settled_none_cloned env n : ∀ i c,
  (∀ k, (k < n)%nat → tick_clone (env (i + k)%nat) ≠ None) →
  settled n i env c = [].
Proof.
  induction n as [|n IH]; intros i c Hall; simpl; [done|].
  rewrite IH.
  - specialize (Hall 0%nat). rewrite Nat.add_0_r in Hall.
    destruct (tick_clone (env i)); [done|]. destruct Hall; [lia|done].
  - intros k Hk. replace (S i + k)%nat with (i + S k)%nat by lia.
    apply Hall. lia.
Qed.

(** X6.  The table that a run of [Replenish] returns with, for sizes that
    do not wrap and names not yet handed out: the old table, then one idle
    slot for each round whose clone succeeded, in order, named after the
    counter value of its round; the counter has advanced by the number of
    rounds run, failed clones included.  So a run that is not cancelled
    and whose clones all succeed ends with [idle + n] warm slots, which is
    [warmSize] when the cap leaves room for it; and a run whose clones all
    fail leaves the table as it was. *)
Theorem Replenish_result (env : nat → ReplenishTick) (m : Manager) :
  saneSizes m → namesFresh m →
  let idle := len (filter (λ s, State s = SlotIdle) (slots m)) in
  let total := len (slots m) in
  let n := Z.to_nat (Z.max 0 (Z.min (WarmSize (cfg m) - idle)
                                    (MaxVMs (cfg m) - total))) in
  let ran := if stopped m then 0%nat else roundsRun n 0 env in
  let m' := Replenish env m in
  slots m' = slots m ++ settled ran 0 env (counter m) ∧
  counter m' = counter m + Z.of_nat ran ∧
  cfg m' = cfg m ∧
  (stopped m = false →
   (∀ k, (k < n)%nat → tick_done (env k) = false ∧ tick_clone (env k) = None) →
     (Status m').1.1 = idle + Z.of_nat n ∧
     (idle ≤ WarmSize (cfg m) ≤ idle + (MaxVMs (cfg m) - total) →
        (Status m').1.1 = WarmSize (cfg m))) ∧
  ((∀ k, (k < ran)%nat → tick_clone (env k) ≠ None) → slots m' = slots m).
Proof.
  intros Hsane Hfresh idle total n ran m'.
  destruct (Replenish_closed env m Hsane Hfresh) as (Hs & Hc & Hcfg).
  fold idle total n ran m' in Hs, Hc, Hcfg.
  split_and!; [done..| |].
  - intros Hst Hall.
    assert (ran = n) as Hran.
    { subst ran. rewrite Hst. apply roundsRun_all. intros k Hk. by apply Hall. }
    assert ((Status m').1.1 = idle + Z.of_nat n) as Hwarm.
    { unfold Status. simpl. rewrite Hs, filter_app. unfold len.
      rewrite length_app, (filter_all _ (settled _ _ _ _)) by apply settled_idle.
      rewrite Hran, settled_all_cloned; [subst idle; unfold len; lia|].
      intros k Hk. by apply Hall. }
    split; [done|]. intros Hroom. rewrite Hwarm. subst n. lia.
  - intros Hfail. rewrite Hs, settled_none_cloned; [by rewrite app_nil_r|done].
Qed.


(** *** The state file follows the table *)








End more.

(** C3 at an empty table with [warmSize = 3] and [maxVMs = 10]: three
    rounds, and three idle slots at the end. *)
Lemma Replenish_inserts_needed_witness :
  let m := mkManager (mkPoolConfig 3 10 "agent-master") [] 0 None false in
  let env := λ _ : nat, mkTick false 0 None IoOk IoOk in
  length (ReplenishHistory (H := evalCodec) env m) = 6%nat ∧
  (λ s, (Name s, State s)) <$> slots (Replenish (H := evalCodec) env m)
    = [("warm-1", SlotIdle); ("warm-2", SlotIdle); ("warm-3", SlotIdle)].
Proof.
  intros m env.
  assert (saneSizes m) as Hsane by (vm_compute; repeat split).
  assert (namesFresh m) as Hfresh by apply names_empty.
  destruct (Replenish_inserts_needed (H := evalCodec) env m Hsane Hfresh)
    as (_ & _ & Hlen & _ & Hs & _).
  split; [exact Hlen|]. rewrite Hs. vm_compute. reflexivity.
Defined.

(** C3, as stated, fails in three ways.  A run that is cancelled before
    its second round inserts one slot where the formula gives 3.  With
    [warmSize] at the least [int] and one idle slot, the subtraction
    wraps: the formula gives 0, but two rounds run before the
    cancellation and the table, which was within [maxVMs = 2], has three
    slots.  And where the table already has a slot of the name that the
    counter gives next, that slot is the one settled: the inserted slot
    stays in state creating although its clone succeeded. *)
Lemma Replenish_not_exactly_needed :
  let tick := λ done : bool, mkTick done 0 None IoOk IoOk in
  let idle1 := mkVMSlot "warm-1" SlotIdle "" "" "" "" "" "" 0 0 in
  let cold1 := mkVMSlot "warm-1" SlotCold "" "" "" "" "" "" 0 0 in
  let m1 := mkManager (mkPoolConfig 3 10 "agent-master") [] 0 None false in
  let env1 := λ k : nat, tick (bool_decide (k = 1%nat)) in
  let m2 := mkManager (mkPoolConfig min_int 2 "agent-master") [idle1] 1 None
              false in
  let env2 := λ k : nat, tick (bool_decide (k = 2%nat)) in
  let m3 := mkManager (mkPoolConfig 1 10 "agent-master") [cold1] 0 None false in
  let env3 := λ _ : nat, tick false in
  (Z.max 0 (Z.min (3 - 0) (10 - 0)) = 3 ∧
   length (ReplenishHistory (H := evalCodec) env1 m1) = 2%nat ∧
   State <$> slots (Replenish (H := evalCodec) env1 m1) = [SlotIdle]) ∧
  (Z.max 0 (Z.min (min_int - 1) (2 - 1)) = 0 ∧
   len (slots m2) ≤ MaxVMs (cfg m2) ∧
   State <$> slots (Replenish (H := evalCodec) env2 m2)
     = [SlotIdle; SlotIdle; SlotIdle]) ∧
  (Z.max 0 (Z.min (1 - 0) (10 - 1)) = 1 ∧
   (λ s, (Name s, State s)) <$> slots (Replenish (H := evalCodec) env3 m3)
     = [("warm-1", SlotIdle); ("warm-1", SlotCreating)]).
Proof.
  intros tick idle1 cold1 m1 env1 m2 env2 m3 env3.
  split; [|split].
  - vm_compute. repeat split.
  - split; [reflexivity|]. split; [vm_compute; discriminate|].
    unfold Replenish, ReplenishHistory.
    assert (replenishNeeded m2 = Some max_int) as -> by (vm_compute; reflexivity).
    rewrite replenishRounds_cut by done.
    assert (roundsRun (Z.to_nat max_int) 0 env2 = 2%nat) as ->.
    { assert (Z.to_nat max_int = S (S (S (Z.to_nat (max_int - 3))))) as ->
        by (unfold max_int; lia).
      reflexivity. }
    vm_compute. reflexivity.
  - vm_compute. repeat split.
Qed.

(** A drain of a table with one idle and one active slot. *)
Lemma Drain_removes_idle_witness :
  let idle := mkVMSlot "warm-1" SlotIdle "" "" "" "" "" "" 0 0 in
  let busy := mkVMSlot "warm-2" SlotActive "agent-7" "p" "" "" "" "" 0 0 in
  let m := mkManager (mkPoolConfig 1 2 "agent-master") [idle; busy] 2 None false in
  let env := λ _ : nat, (IoOk, Some (ErrExternal "exit status 1")) in
  slots (Drain (H := evalCodec) env m).2 = [busy].
Proof.
  intros idle busy m env.
  refine (proj1 (proj2 (Drain_removes_idle (H := evalCodec) env m _))).
  unfold namesUnique. simpl. apply NoDup_cons. split.
  - rewrite list_elem_of_singleton. discriminate.
  - apply NoDup_singleton.
Defined.

(** A claim for agent-7 on a table with one idle slot. *)
Lemma GetSlot_follows_Claim_and_Release_witness :
  let idle := mkVMSlot "warm-1" SlotIdle "" "" "" "" "" "" 0 0 in
  let m := mkManager (mkPoolConfig 1 2 "agent-master") [idle] 1 None false in
  let r := Claim (H := evalCodec) 0 (λ _, Ok "192.168.64.5") IoOk "agent-7" "p" m in
  GetSlot "agent-7" r.2 =
    Some (mkVMSlot "warm-1" SlotActive "agent-7" "p" "" "" "" "192.168.64.5" 0 0).
Proof.
  intros idle m r.
  refine (proj1 (GetSlot_follows_Claim_and_Release (H := evalCodec) 0
                   (λ _, Ok "192.168.64.5") IoOk IoOk "agent-7" "p" m r.2 _ _ _ _)).
  - discriminate.
  - intros s Hs%list_elem_of_singleton. subst s. split; discriminate.
  - reflexivity.
Defined.

(** A run on an empty table with [warmSize = 3] whose second clone
    fails. *)
Lemma Replenish_result_witness :
  let m := mkManager (mkPoolConfig 3 10 "agent-master") [] 0 None false in
  let env := λ k : nat,
    mkTick false 0 (if decide (k = 1%nat) then Some (ErrExternal "exit status 1")
                    else None) IoOk IoOk in
  slots (Replenish (H := evalCodec) env m) =
    [mkVMSlot "warm-1" SlotIdle "" "" "" "" "" "" 0 0;
     mkVMSlot "warm-3" SlotIdle "" "" "" "" "" "" 0 0] ∧
  counter (Replenish (H := evalCodec) env m) = 3.
Proof.
  intros m env.
  pose proof (Replenish_result (H := evalCodec) env m) as Hr.
  destruct Hr as (Hs & Hc & _).
  - vm_compute. repeat split.
  - apply names_empty.
  - split; [exact Hs|exact Hc].
Defined.



(** The state after the first [Replenish] and a claim. *)
Lemma reachable_wellformed_witness :
  let boot := mkManager (mkPoolConfig 1 2 "agent-master") [] 0 None false in
  let env := λ _ : nat, mkTick false 0 None IoOk IoOk in
  let m := applyOp (H := evalCodec)
             (OpClaim 0 (λ _, Ok "192.168.64.5") IoOk "agent-7" "p")
             (applyOp (H := evalCodec) (OpReplenish env) boot) in
  activeIffAgent m ∧ namesUnique m ∧ namesFresh m.
Proof.
  intros boot env m.
  apply (reachable_wellformed (H := evalCodec) m).
  apply (reachable_op (H := evalCodec)).
  - apply (reachable_op (H := evalCodec)).
    + apply reachable_boot.
    + exact I.
    + intros _. vm_compute. repeat split.
  - simpl. discriminate.
  - intros [].
Defined.

End PoolProps.

(** ** Package [registry] *)

Module RegistryProps.
Import registry.

Section props.
Context `{Codec}.

Lemma persist_agents io s : agents (persist io s) = agents s.
Proof. unfold persist. destruct (marshalAgents _); [|done]. by destruct io. Qed.

Lemma persist_subscribers io s : subscribers (persist io s) = subscribers s.
Proof. unfold persist. destruct (marshalAgents _); [|done]. by destruct io. Qed.

Lemma notify_subscribers event s :
  subscribers (notify event s) = trySend event <$> subscribers s.
Proof. done. Qed.

Lemma notify_agents event s : agents (notify event s) = agents s.
Proof. done. Qed.

Lemma trySend_room event ch :
  (length (chan_buf ch) < chan_cap ch)%nat →
  trySend event ch = mkChan (chan_id ch) (chan_cap ch) (chan_buf ch ++ [event]).
Proof. intros Hroom. unfold trySend. by rewrite decide_True. Qed.

Lemma trySend_full event ch :
  (chan_cap ch ≤ length (chan_buf ch))%nat → trySend event ch = ch.
Proof. intros Hfull. unfold trySend. rewrite decide_False; [done|lia]. Qed.

Lemma Register_Deregister_subscribers io1 io2 a s :
  subscribers (Deregister io2 (AgentID a) (Register io1 a s)) =
    trySend (mkStoreEvent EventAgentDeregistered (AgentID a) (Some a))
      <$> (trySend (mkStoreEvent EventAgentRegistered (AgentID a) (Some a))
             <$> subscribers s).
Proof.
  unfold Deregister. cbv zeta.
  rewrite notify_subscribers, persist_subscribers.
  change (subscribers (set_agents ?a ?s)) with (subscribers s).
  unfold Register at 1 2. cbv zeta.
  rewrite notify_agents, persist_agents, notify_subscribers, persist_subscribers.
  change (agents (set_agents ?a ?s)) with a.
  change (subscribers (set_agents ?a ?s)) with (subscribers s).
  by rewrite lookup_insert_eq.
Qed.

(** C6.  [Register a] followed by [Deregister] of its ID leaves no entry
    for that ID.  Every subscriber stays subscribed; one whose queue had
    room for two events has exactly two more at the end of its queue, the
    registered event and then the deregistered event of that ID; one
    whose queue was full has its queue as it was: the events offered to
    it are dropped, and the calls return all the same. *)
Theorem Register_Deregister_events (io1 io2 : io_outcome)
    (a : AgentRegistration) (s : Store) :
  let s' := Deregister io2 (AgentID a) (Register io1 a s) in
  let registered := mkStoreEvent EventAgentRegistered (AgentID a) (Some a) in
  let deregistered := mkStoreEvent EventAgentDeregistered (AgentID a) (Some a) in
  agents s' !! AgentID a = None ∧
  length (subscribers s') = length (subscribers s) ∧
  (∀ i ch, subscribers s !! i = Some ch →
     ∃ ch', subscribers s' !! i = Some ch' ∧
       chan_id ch' = chan_id ch ∧ chan_cap ch' = chan_cap ch ∧
       ((length (chan_buf ch) + 2 ≤ chan_cap ch)%nat →
          chan_buf ch' = chan_buf ch ++ [registered; deregistered]) ∧
       ((length (chan_buf ch) + 1 = chan_cap ch)%nat →
          chan_buf ch' = chan_buf ch ++ [registered]) ∧
       ((chan_cap ch ≤ length (chan_buf ch))%nat → ch' = ch)).
Proof.
  intros s' registered deregistered. subst s'. split_and!.
  - unfold Deregister. cbv zeta. rewrite notify_agents, persist_agents.
    change (agents (set_agents ?a ?s)) with a. apply lookup_delete_eq.
  - by rewrite Register_Deregister_subscribers, !length_fmap.
  - intros i ch Hi. rewrite Register_Deregister_subscribers.
    rewrite !list_lookup_fmap, Hi. simpl. eexists. split; [done|].
    fold registered deregistered.
    destruct (decide (length (chan_buf ch) < chan_cap ch)%nat) as [Hroom|Hfull].
    + rewrite (trySend_room registered ch Hroom).
      destruct (decide (length (chan_buf ch) + 1 < chan_cap ch)%nat) as [Hroom2|Hfull2].
      * rewrite trySend_room by (simpl; rewrite length_app; simpl; lia). simpl.
        split_and!; [done|done| |intros; lia|intros; lia].
        intros _. by rewrite <- app_assoc.
      * rewrite trySend_full by (simpl; rewrite length_app; simpl; lia). simpl.
        split_and!; [done|done|intros; lia|done|intros; lia].
    + rewrite (trySend_full registered ch) by lia.
      rewrite (trySend_full deregistered ch) by lia.
      split_and!; [done|done|intros; lia|intros; lia|done].
Qed.

(** What [handleStatus] does with a body that decodes: 404 exactly when
    the agent is not registered; otherwise 200, and the stored
    registration has the reported state and is otherwise as it was. *)
Lemma handleStatus_spec io reqBody report s :
  decodeReport reqBody = Ok report →
  let r := handleStatus io reqBody s in
  (status r.1 = StatusNotFound ↔ agents s !! report_AgentID report = None) ∧
  (∀ reg, agents s !! report_AgentID report = Some reg →
     status r.1 = StatusOK ∧
     agents r.2 !! report_AgentID report =
       Some (mkAgentRegistration (AgentID reg) (VMName reg) (VMIP reg)
               (Project reg) (Tool reg) (Branch reg) (Message reg) (Ports reg)
               (report_State report) (RegisteredAt reg) (LastHeartbeat reg))).
Proof.
  intros Hdec r. subst r. unfold handleStatus, UpdateState2. rewrite Hdec.
  destruct (agents s !! report_AgentID report) as [reg|] eqn:E; simpl.
  - split; [split; [intros [=]|done]|].
    intros reg' [= <-]. split; [done|].
    rewrite persist_agents. simpl. apply lookup_insert_eq.
  - split; [done|]. done.
Qed.

(** C7, as the code has it.  For a POST /status body with an agent ID, a
    state and possibly a message and a branch: the answer is 404 exactly
    when the agent is not registered, and nothing changes then;
    otherwise the answer is 200 and the registration of the agent gets
    the given state and is otherwise as it was, message and branch
    included: the handler calls [UpdateState] with the agent ID and the
    state only, writes the message to the log and does not read the
    branch.  No other agent changes and no event is sent. *)
Theorem handleStatus_sets_state_only (io : io_outcome)
    (agentID state : string) (message branch : option string) (s : Store) :
  let reqBody :=
    FileJSON (JObj ([("agentID", JStr agentID); ("state", JStr state)]
                    ++ match message with
                       | Some text => [("message", JStr text)]
                       | None => []
                       end
                    ++ match branch with
                       | Some name => [("branch", JStr name)]
                       | None => []
                       end)) in
  let r := handleStatus io reqBody s in
  (status r.1 = StatusNotFound ↔ agents s !! agentID = None) ∧
  (agents s !! agentID = None → r.2 = s) ∧
  (∀ reg, agents s !! agentID = Some reg →
     status r.1 = StatusOK ∧
     agents r.2 =
       <[agentID :=
           mkAgentRegistration (AgentID reg) (VMName reg) (VMIP reg)
             (Project reg) (Tool reg) (Branch reg) (Message reg) (Ports reg)
             state (RegisteredAt reg) (LastHeartbeat reg)]> (agents s) ∧
     subscribers r.2 = subscribers s).
Proof.
  intros reqBody r.
  assert (∃ text, decodeReport reqBody = Ok (mkStatusReport agentID state text))
    as [text Hdec].
  { subst reqBody. destruct message as [text|], branch as [name|]; by eexists. }
  subst r. unfold handleStatus, UpdateState2. rewrite Hdec.
  cbn [report_AgentID report_State].
  destruct (agents s !! agentID) as [reg|] eqn:E; cbn.
  - split_and!; [by split|done|]. intros reg' [= <-].
    by rewrite persist_agents, persist_subscribers.
  - split_and!; done.
Qed.

End props.

(** C7, as stated, fails at the request of the package's own status
    test with a branch added: the agent is registered, the answer is 200
    and the state is stored, but neither the message nor the branch of
    the request is in the stored registration. *)
Lemma handleStatus_ignores_message_and_branch :
  let reg := mkAgentRegistration "agent-1" "" "" "" "" "" "" [] "registered" 0 0 in
  let s := Register (H := evalCodec) IoOk reg NewStore in
  let reqBody := FileJSON (JObj [("agentID", JStr "agent-1");
                                 ("state", JStr "running");
                                 ("message", JStr "Executing claude-code");
                                 ("branch", JStr "agent/p/agent-1")]) in
  let r := handleStatus (H := evalCodec) IoOk reqBody s in
  status r.1 = StatusOK ∧
  State <$> agents r.2 !! "agent-1" = Some "running" ∧
  Message <$> agents r.2 !! "agent-1" = Some "" ∧
  Branch <$> agents r.2 !! "agent-1" = Some "" ∧
  Message <$> agents r.2 !! "agent-1" ≠ Some "Executing claude-code" ∧
  Branch <$> agents r.2 !! "agent-1" ≠ Some "agent/p/agent-1".
Proof. vm_compute. split_and!; (reflexivity || discriminate). Qed.

(** *** The registry file, the endpoints, the subscribers *)

Import PoolProps.

Section loadProps.
Context `{Codec}.

Lemma unmarshalPorts_roundtrip (ports : list Z) :
  Forall in_range ports → mapM (unmarshalInt 0) (JNum <$> ports) = Ok ports.
Proof.
  induction 1 as [|z l Hz Hl IH]; [done|]. simpl.
  rewrite decide_True by done. simpl.
  change (list_fmap Z json JNum l) with (JNum <$> l). by rewrite IH.
Qed.

Lemma unmarshalRegistration_marshalRegistration r j :
  pool.timeRoundTrip → wfRegistration r → marshalRegistration r = Some j →
  unmarshalRegistration j = Ok (Some r).
Proof.
  intros Htime (Ha & Hn & Hip & Hp & Ht & Hb & Hm & Hs & Hports & _ & _).
  destruct r as [a n ip p t b m ports s reg hb]. simpl in *.
  unfold marshalRegistration. simpl.
  destruct (MarshalTime reg) as [rt|] eqn:Er; [|done].
  destruct (MarshalTime hb) as [ht|] eqn:Eh; [|done]. simpl.
  intros [= <-]. rewrite Ha, Hn, Hip, Hp, Ht, Hs.
  unfold unmarshalRegistration.
  simpl.
  rewrite (unmarshalFields_omitempty_any _ _ _ _
             (mkAgentRegistration a n ip p t b "" [] "" 0 0));
    [|by intros -> | by intros _; simpl; rewrite Hb].
  rewrite (unmarshalFields_omitempty_any _ _ _ _
             (mkAgentRegistration a n ip p t b m [] "" 0 0));
    [|by intros -> | by intros _; simpl; rewrite Hm].
  pose proof (unmarshalPorts_roundtrip ports Hports) as Hpr.
  destruct ports as [|z ports]; simpl.
  - by rewrite (Htime _ _ Er), (Htime _ _ Eh).
  - simpl in Hpr. rewrite Hpr. simpl.
    by rewrite (Htime _ _ Er), (Htime _ _ Eh).
Qed.

Lemma foldl_insert_lookup_gen {A B} (f : A → B) (l : list (string * A)) :
  ∀ (acc : gmap string B) k,
  NoDup l.*1 →
  foldl (λ acc kv, <[kv.1 := f kv.2]> acc) acc l !! k =
    match (list_to_map l : gmap string A) !! k with
    | Some v => Some (f v)
    | None => acc !! k
    end.
Proof.
  induction l as [|[k' v'] l IH]; intros acc k Hnd; simpl; [done|].
  apply NoDup_cons in Hnd as [Hk' Hnd]. rewrite IH by done.
  destruct (decide (k = k')) as [->|Hne].
  - rewrite lookup_insert_eq.
    rewrite (not_elem_of_list_to_map_1 _ k') by done.
    by rewrite lookup_insert_eq.
  - rewrite !lookup_insert_ne by done. done.
Qed.

Lemma unmarshalAgents_fields (l : list (string * AgentRegistration)) :
  pool.timeRoundTrip →
  (∀ kv, kv ∈ l → utf8 kv.1 = kv.1 ∧ wfRegistration kv.2) →
  ∃ kvs,
    mapM (λ kv, j ← marshalRegistration kv.2; Some (utf8 kv.1, j)) l = Some kvs ∧
    ∀ acc : gmap string (option AgentRegistration),
      unmarshalFields
        (λ (acc : gmap string (option AgentRegistration)) kv,
           v ← unmarshalRegistration kv.2; Ok (<[kv.1 := v]> acc)) acc kvs =
      Ok (foldl (λ acc kv, <[kv.1 := Some kv.2]> acc) acc l).
Proof.
  intros Htime. induction l as [|[k r] l IH]; intros Hwf.
  { by exists []. }
  destruct IH as (kvs & Hm & Hu); [intros kv Hkv; apply Hwf; by right|].
  destruct (Hwf (k, r)) as [Hk Hr]; [by left|]. simpl in Hk, Hr.
  destruct (marshalRegistration r) as [j|] eqn:Ej.
  - exists ((k, j) :: kvs). simpl. rewrite Ej. simpl. rewrite Hm, Hk. simpl.
    split; [done|]. intros acc.
    rewrite (unmarshalRegistration_marshalRegistration r j Htime Hr Ej). simpl.
    apply Hu.
  - exfalso. destruct Hr as (_ & _ & _ & _ & _ & _ & _ & _ & _ & [rt Hrt] & [ht Hht]).
    unfold marshalRegistration in Ej. rewrite Hrt, Hht in Ej. done.
Qed.

(** X10.  The registry file reads back.  With a [time] package whose JSON
    form reads back, a store whose agents JSON can carry and whose
    [persist] meets no I/O failure leaves a file from which [load] returns
    those agents, each under its key; with no file, [load] returns no
    agent. *)
Theorem persist_load_roundtrip (s : Store) :
  pool.timeRoundTrip → wfAgents (agents s) →
  load None (disk (persist IoOk s)) = Ok (Some <$> agents s) ∧
  load None None = Ok ∅.
Proof.
  intros Htime Hwf. split; [|done].
  destruct (unmarshalAgents_fields (map_to_list (agents s)) Htime)
    as (kvs & Hm & Hu).
  { intros [k r] Hkr%elem_of_map_to_list. by apply Hwf. }
  unfold persist, marshalAgents. rewrite Hm. simpl. rewrite Hu. f_equal.
  apply map_eq. intros k.
  rewrite (foldl_insert_lookup_gen Some) by apply NoDup_fst_map_to_list.
  rewrite list_to_map_to_list, lookup_fmap, lookup_empty.
  by destruct (agents s !! k).
Qed.

End loadProps.

Section serverProps.
Context `{Codec}.

Lemma Register_agents io reg s :
  agents (Register io reg s) = <[AgentID reg := reg]> (agents s).
Proof. unfold Register. by rewrite notify_agents, persist_agents. Qed.

Lemma Deregister_agents io agentID s :
  agents (Deregister io agentID s) = delete agentID (agents s).
Proof. unfold Deregister. by rewrite notify_agents, persist_agents. Qed.

(** X11.  The life of an agent over HTTP.  A register request that decodes
    is answered with 200; the agent is then in the store under its ID,
    with the request's fields, state registered and the two readings of
    the clock, and that registration is what the server's callback gets.
    A status report for the agent is then answered with 200, and after a
    deregister request for it (200, also when repeated) with 404.  A
    register or deregister body that does not decode is answered with 400
    and changes nothing. *)
Theorem http_agent_lifecycle (hasCallback : bool) (now1 now2 : Time)
    (io1 io2 io3 : io_outcome) (body1 body2 body3 : file)
    (req : RegisterRequest) (report : statusReport) (s : Store) :
  decodeRegisterRequest body1 = Ok req →
  decodeDeregisterRequest body2 = Ok (req_AgentID req) →
  decodeReport body3 = Ok report →
  report_AgentID report = req_AgentID req →
  let reg := mkAgentRegistration (req_AgentID req) (req_VMName req)
               (req_VMIP req) (req_Project req) (req_Tool req) "" ""
               (req_Ports req) "registered" now1 now2 in
  let r1 := handleRegister hasCallback now1 now2 io1 body1 s in
  let s1 := r1.1.2 in
  let r2 := handleDeregister io2 body2 s1 in
  status r1.1.1 = StatusOK ∧
  Get (req_AgentID req) s1 = Some reg ∧
  r1.2 = (if hasCallback then Some reg else None) ∧
  status (handleStatus io3 body3 s1).1 = StatusOK ∧
  status r2.1 = StatusOK ∧
  Get (req_AgentID req) r2.2 = None ∧
  status (handleStatus io3 body3 r2.2).1 = StatusNotFound ∧
  status (handleDeregister io2 body2 r2.2).1 = StatusOK ∧
  agents (handleDeregister io2 body2 r2.2).2 = agents r2.2 ∧
  (∀ bad e, decodeRegisterRequest bad = Err e →
        handleRegister hasCallback now1 now2 io1 bad s =
          (mkResponse StatusBadRequest (BodyRegister false (Some e)), s, None)) ∧
  (∀ bad e, decodeDeregisterRequest bad = Err e →
        handleDeregister io2 bad s =
          (mkResponse StatusBadRequest (BodyRegister false (Some e)), s)).
Proof.
  intros Hreg Hdereg Hrep Hid reg r1 s1 r2.
  subst r2 s1 r1. unfold handleRegister, handleDeregister.
  rewrite Hreg, Hdereg. simpl. fold reg.
  assert (agents (Register io1 reg s) !! req_AgentID req = Some reg) as Hget.
  { rewrite Register_agents. simpl. by rewrite lookup_insert_eq. }
  assert (agents (Deregister io2 (req_AgentID req) (Register io1 reg s))
            !! req_AgentID req = None) as Hgone.
  { rewrite Deregister_agents. by rewrite lookup_delete_eq. }
  split_and!; try done.
  - pose proof (handleStatus_spec io3 body3 report (Register io1 reg s) Hrep)
      as [_ Hok].
    rewrite Hid in Hok. by destruct (Hok reg Hget) as [-> _].
  - pose proof (handleStatus_spec io3 body3 report
                  (Deregister io2 (req_AgentID req) (Register io1 reg s)) Hrep)
      as [Hnf _].
    rewrite Hid in Hnf. by apply Hnf.
  - rewrite !persist_agents. simpl. rewrite ?persist_agents. simpl.
    by rewrite delete_delete_eq.
  - intros bad e Hbad. unfold handleRegister. by rewrite Hbad.
  - intros bad e Hbad. unfold handleDeregister. by rewrite Hbad.
Qed.

(** X12.  [UpdateState] with the four arguments.  For an agent that is not
    registered it returns the error and changes nothing: no write, no
    event.  For a registered agent it sets the state and the heartbeat,
    sets the message and the branch only when the given ones are not
    empty, keeps every other field and every other agent, and offers one
    agent.updated event for that ID to each subscriber, which a subscriber
    with a full queue does not get.  So a message, once set, stays through
    later updates that give none. *)
Theorem UpdateState_sets_state (now : Time) (io : io_outcome)
    (agentID state message branch : string) (s : Store) :
  let r := UpdateState now io agentID state message branch s in
  (agents s !! agentID = None → r = (Some (ErrNotRegistered agentID), s)) ∧
  (∀ reg, agents s !! agentID = Some reg →
     r.1 = None ∧
     agents r.2 =
       <[agentID :=
           mkAgentRegistration (AgentID reg) (VMName reg) (VMIP reg)
             (Project reg) (Tool reg)
             (if decide (branch = "") then Branch reg else branch)
             (if decide (message = "") then Message reg else message)
             (Ports reg) state (RegisteredAt reg) now]> (agents s) ∧
     length (subscribers r.2) = length (subscribers s) ∧
     (∀ i ch, subscribers s !! i = Some ch →
        ∃ ch', subscribers r.2 !! i = Some ch' ∧
          chan_id ch' = chan_id ch ∧ chan_cap ch' = chan_cap ch ∧
          ((length (chan_buf ch) < chan_cap ch)%nat →
             ∃ ev, chan_buf ch' = chan_buf ch ++ [ev] ∧
                   EventType ev = EventAgentUpdated ∧
                   EventAgentID ev = agentID) ∧
          ((chan_cap ch ≤ length (chan_buf ch))%nat → ch' = ch)) ∧
     (∀ now' io' state',
        message ≠ "" →
        Message <$> agents (UpdateState now' io' agentID state' "" "" r.2).2
                      !! agentID = Some message)).
Proof.
  intros r. subst r. unfold UpdateState. split.
  - by intros ->.
  - intros reg Hreg. rewrite Hreg. cbn [fst snd].
    rewrite notify_agents, persist_agents, notify_subscribers, persist_subscribers.
    cbn [agents subscribers set_agents]. split_and!.
    + done.
    + f_equal. f_equal; by repeat case_decide.
    + by rewrite length_fmap.
    + intros i ch Hch. exists (trySend (mkStoreEvent EventAgentUpdated agentID
        (Some (mkAgentRegistration (AgentID reg) (VMName reg) (VMIP reg)
                 (Project reg) (Tool reg)
                 (if decide (branch ≠ "") then branch else Branch reg)
                 (if decide (message ≠ "") then message else Message reg)
                 (Ports reg) state (RegisteredAt reg) now))) ch).
      rewrite list_lookup_fmap, Hch. simpl. split; [done|].
      unfold trySend. case_decide as Hroom; simpl.
      * split_and!; [done..| |intros; lia]. intros _. by eexists.
      * split_and!; [done..|intros; lia|done].
    + intros now' io' state' Hmsg.
      rewrite lookup_insert_eq. cbn [snd].
      rewrite notify_agents, persist_agents. cbn [agents set_agents].
      rewrite lookup_insert_eq. simpl. by rewrite decide_True.
Qed.

End serverProps.

Section subsProps.
Context `{Codec}.

Lemma list_find_chan_fresh (l : list chan) (ch : chan) :
  (∀ x, x ∈ l → chan_id x ≠ chan_id ch) →
  list_find (λ sub, chan_id sub = chan_id ch) (l ++ [ch]) = Some (length l, ch).
Proof.
  intros Hfresh. apply list_find_Some. split_and!.
  - by rewrite list_lookup_middle.
  - done.
  - intros j y Hj Hlt. rewrite lookup_app_l in Hj by done.
    apply Hfresh. by eapply list_elem_of_lookup_2.
Qed.

Lemma notify_subsOk event io a s :
  subsOk s → subsOk (notify event (persist io (set_agents a s))).
Proof.
  intros [Hnd Hold]. unfold subsOk.
  assert (next_chan (notify event (persist io (set_agents a s))) = next_chan s)
    as -> by (unfold notify, persist; simpl; by repeat case_match).
  rewrite notify_subscribers, persist_subscribers. simpl.
  assert (∀ ch, chan_id (trySend event ch) = chan_id ch) as Hid
    by (intros ch; unfold trySend; by case_decide).
  split.
  - rewrite <- list_fmap_compose.
    erewrite list_fmap_ext; [exact Hnd|]. intros i ch _. apply Hid.
  - intros ch (x & -> & Hx)%list_elem_of_fmap. rewrite Hid. by apply Hold.
Qed.

(** X13.  Subscribing and unsubscribing.  In a store whose channels are
    distinct and older than the next one, [Subscribe] returns an empty
    channel of capacity 64 that is the last subscriber, so that the next
    event is queued in it;  [Unsubscribe] of that channel gives back the
    subscribers there were before, and [Unsubscribe] of a channel that is
    not subscribed, such as one already unsubscribed, changes nothing.
    Every operation of the store keeps the channels distinct and older
    than the next one. *)
Theorem Subscribe_then_Unsubscribe (s : Store) :
  subsOk s →
  let ch := (Subscribe s).1 in
  let s1 := (Subscribe s).2 in
  chan_buf ch = [] ∧ chan_cap ch = 64%nat ∧
  subscribers s1 = subscribers s ++ [ch] ∧
  agents s1 = agents s ∧
  (∀ io reg, last (subscribers (Register io reg s1)) =
     Some (mkChan (chan_id ch) 64
                  [mkStoreEvent EventAgentRegistered (AgentID reg) (Some reg)])) ∧
  subscribers (Unsubscribe (chan_id ch) s1) = subscribers s ∧
  (∀ id, (∀ x, x ∈ subscribers s → chan_id x ≠ id) → Unsubscribe id s = s) ∧
  (∀ id, Unsubscribe id (Unsubscribe id s) = Unsubscribe id s) ∧
  subsOk s1 ∧ (∀ id, subsOk (Unsubscribe id s)) ∧
  (∀ io reg, subsOk (Register io reg s)) ∧
  (∀ io id, subsOk (Deregister io id s)) ∧
  (∀ now io id state message branch,
     subsOk (UpdateState now io id state message branch s).2).
Proof.
  intros [Hnd Hold] ch s1. subst ch s1. unfold Subscribe. cbn [fst snd].
  assert (∀ x, x ∈ subscribers s → chan_id x ≠ next_chan s) as Hfresh.
  { intros x Hx%Hold. lia. }
  assert (∀ id, (∀ x, x ∈ subscribers s → chan_id x ≠ id) → Unsubscribe id s = s)
    as Hnone.
  { intros id Hid. unfold Unsubscribe.
    destruct (list_find _ _) as [[i x]|] eqn:E; [|done].
    apply list_find_Some in E as (Hi & Hx & _).
    destruct (Hid x); [by eapply list_elem_of_lookup_2|done]. }
  assert (∀ id, subsOk (Unsubscribe id s)) as Hkeep.
  { intros id. unfold Unsubscribe.
    destruct (list_find _ _) as [[i x]|] eqn:E; [|done].
    split; simpl.
    - eapply sublist_NoDup; [exact Hnd|]. apply fmap_sublist, sublist_delete.
    - intros y Hy. apply Hold. eapply elem_of_sublist; [exact Hy|].
      apply sublist_delete. }
  assert (∀ id i x,
            list_find (λ sub, chan_id sub = id) (subscribers s) = Some (i, x) →
            ∀ y, y ∈ delete i (subscribers s) → chan_id y ≠ id) as Hgone.
  { intros id i x (Hi & Hx & _)%list_find_Some y Hy Hyid.
    assert (chan_id <$> subscribers s =
            take i (chan_id <$> subscribers s) ++
            id :: drop (S i) (chan_id <$> subscribers s)) as Hsplit.
    { rewrite <- Hx. symmetry. apply take_drop_middle.
      by rewrite list_lookup_fmap, Hi. }
    pose proof Hnd as Hnd'. rewrite Hsplit in Hnd'.
    apply NoDup_app in Hnd' as (_ & Hdisj & Hnd').
    apply NoDup_cons in Hnd' as [Hnotin _].
    assert (id ∈ chan_id <$> delete i (subscribers s)) as Hin.
    { rewrite <- Hyid. by apply list_elem_of_fmap_2. }
    rewrite delete_take_drop, fmap_app, fmap_take, fmap_drop in Hin.
    apply elem_of_app in Hin as [Hin|Hin]; [|done].
    apply (Hdisj id Hin). by left. }
  assert (∀ id i x,
            list_find (λ sub, chan_id sub = id) (subscribers s) = Some (i, x) →
            Unsubscribe id (set_subscribers (delete i (subscribers s)) s) =
              Unsubscribe id s) as Hnone_after.
  { intros id i x E. unfold Unsubscribe. rewrite E. simpl.
    destruct (list_find _ (delete i _)) as [[j y]|] eqn:E'; [|done].
    exfalso. apply list_find_Some in E' as (Hj & Hy & _).
    eapply (Hgone id i x E y); [by eapply list_elem_of_lookup_2|done]. }
  split_and!; try done.
  - intros io reg. unfold Register. rewrite notify_subscribers, persist_subscribers.
    simpl. rewrite fmap_app. simpl. by rewrite last_snoc.
  - unfold Unsubscribe. simpl.
    rewrite (list_find_chan_fresh _ (mkChan (next_chan s) 64 [])) by done.
    simpl. rewrite (delete_middle (subscribers s) [] _). by rewrite app_nil_r.
  - intros id. unfold Unsubscribe at 2.
    destruct (list_find _ _) as [[i x]|] eqn:E; [|done].
    by apply (Hnone_after id i x).
  - split; simpl.
    + rewrite fmap_app. apply NoDup_app. split_and!; [done| |apply NoDup_singleton].
      intros id (x & Hid & Hx)%list_elem_of_fmap Hin. simpl in Hin.
      apply list_elem_of_singleton in Hin. subst id. by apply (Hfresh x).
    + intros x [Hx| ->%list_elem_of_singleton]%elem_of_app; [|simpl; lia].
      apply Hold in Hx. lia.
  - intros io reg. by apply notify_subsOk.
  - intros io id. by apply notify_subsOk.
  - intros now io id state message branch. unfold UpdateState.
    destruct (agents s !! id); [by apply notify_subsOk|done].
Qed.

End subsProps.

(** A store with the agent of the package's tests. *)
Lemma persist_load_roundtrip_witness :
  let reg := mkAgentRegistration "agent-1" "warm-1" "192.168.64.5"
               "testproject" "claude-code" "" "" [8080] "registered" 0 0 in
  let s := Register (H := evalCodec) IoOk reg NewStore in
  load (H := evalCodec) None (disk (persist (H := evalCodec) IoOk s)) =
    Ok (Some <$> agents s).
Proof.
  intros reg s.
  refine (proj1 (persist_load_roundtrip (H := evalCodec) s _ _)).
  - exact evalCodec_timeRoundTrip.
  - intros k r. unfold s. rewrite (Register_agents (H := evalCodec)).
    simpl. intros [[<- <-]|[_ Hr]]%lookup_insert_Some.
    + split; [reflexivity|]. unfold wfRegistration. simpl.
      split_and!; try reflexivity; [|eauto|eauto].
      constructor; [vm_compute; split; discriminate|constructor].
    + by rewrite lookup_empty in Hr.
Defined.

(** The requests of the package's server tests, on an empty store. *)
Lemma http_agent_lifecycle_witness :
  let body1 := FileJSON (JObj [("agentID", JStr "agent-1");
                               ("vmName", JStr "warm-1");
                               ("vmIP", JStr "192.168.64.5");
                               ("project", JStr "testproject");
                               ("tool", JStr "claude-code");
                               ("ports", JArr [JNum 8080])]) in
  let body2 := FileJSON (JObj [("agentID", JStr "agent-1")]) in
  let body3 := FileJSON (JObj [("agentID", JStr "agent-1");
                               ("state", JStr "running")]) in
  let s1 := (handleRegister (H := evalCodec) true 0 0 IoOk body1 NewStore).1.2 in
  let s2 := (handleDeregister (H := evalCodec) IoOk body2 s1).2 in
  status (handleStatus (H := evalCodec) IoOk body3 s1).1 = StatusOK ∧
  status (handleStatus (H := evalCodec) IoOk body3 s2).1 = StatusNotFound.
Proof.
  intros body1 body2 body3 s1 s2.
  pose proof (http_agent_lifecycle (H := evalCodec) true 0 0 IoOk IoOk IoOk
                body1 body2 body3
                (mkRegisterRequest "agent-1" "warm-1" "192.168.64.5"
                   "testproject" "claude-code" [8080])
                (mkStatusReport "agent-1" "running" "") NewStore
                eq_refl eq_refl eq_refl eq_refl)
    as (_ & _ & _ & Hok & _ & _ & Hnf & _).
  split; [exact Hok|exact Hnf].
Defined.

(** The store as [NewStore] makes it. *)
Lemma Subscribe_then_Unsubscribe_witness :
  let ch := (Subscribe NewStore).1 in
  subscribers (Unsubscribe (chan_id ch) (Subscribe NewStore).2) = [].
Proof.
  intros ch.
  refine (proj1 (proj2 (proj2 (proj2 (proj2 (proj2
            (Subscribe_then_Unsubscribe (H := evalCodec) NewStore _))))))).
  split.
  - exact (NoDup_nil_2 (A := nat)).
  - intros x Hx. by apply elem_of_nil in Hx.
Defined.

End RegistryProps.

(** ** Package [ws] *)

Module WsProps.
Import ws.

Lemma started_token_agent (l : list (nat * string)) tok a a' :
  NoDup (fst <$> l) → (tok, a) ∈ l → (tok, a') ∈ l → a = a'.
Proof.
  induction l as [|[t b] l IH]; simpl; intros Hnd H1 H2.
  { by apply elem_of_nil in H1. }
  apply NoDup_cons in Hnd as [Hnotin Hnd].
  apply elem_of_cons in H1 as [E1|H1]; apply elem_of_cons in H2 as [E2|H2];
    simplify_eq.
  - done.
  - destruct Hnotin. by apply (list_elem_of_fmap_2 fst _ (t, a')).
  - destruct Hnotin. by apply (list_elem_of_fmap_2 fst _ (t, a)).
  - by apply IH.
Qed.

Lemma addClient_nonempty (c : nat) (cs : gset nat) : {[c]} ∪ cs ≠ ∅.
Proof.
  intros Hempty. assert (c ∈ ({[c]} ∪ cs)) as Hin.
  { apply elem_of_union. left. by apply elem_of_singleton. }
  rewrite Hempty in Hin. by apply not_elem_of_empty in Hin.
Qed.

Lemma streamsInv_new : streamsInv NewLogStreamManager.
Proof.
  unfold streamsInv. simpl. split_and!.
  - intros a st. by rewrite lookup_empty.
  - intros tok a Hin. by apply elem_of_nil in Hin.
  - intros tok Hin. by apply not_elem_of_empty in Hin.
  - apply NoDup_nil_2.
Qed.

Lemma Subscribe_keeps pm a c m :
  streamsInv m → streamsInv (Subscribe pm a c m).
Proof.
  intros (Hrec & Hst & Hcan & Hnd). unfold Subscribe.
  destruct (streams m !! a) as [st|] eqn:Ea.
  - destruct (Hrec a st Ea) as (Hid & Hne & Hlive & Hin).
    unfold streamsInv. simpl. split_and!; [| |done|done].
    + intros a' st'. rewrite lookup_insert. case_decide as Haa.
      * subst a'. intros [= <-]. simpl. split_and!; [done|apply addClient_nonempty|done|done].
      * apply Hrec.
    + intros tok a' Hin'. destruct (Hst tok a' Hin') as [Hlt [Hc|(st' & Hs' & Ht')]].
      * split; [done|by left].
      * split; [done|right]. destruct (decide (a = a')) as [->|Hne'].
        -- rewrite lookup_insert_eq. eexists. split; [done|]. simpl. congruence.
        -- rewrite lookup_insert_ne by done. eauto.
  - destruct (pool.GetSlot a pm) as [slot|]; [|done].
    unfold streamsInv. simpl. split_and!.
    + intros a' st'. rewrite lookup_insert. case_decide as Haa.
      * subst a'. intros [= <-]. simpl. split_and!; [done|apply addClient_nonempty| |].
        -- intros Hc%Hcan. lia.
        -- apply elem_of_app. right. by apply list_elem_of_singleton.
      * intros Hs'. destruct (Hrec a' st' Hs') as (?&?&?&?).
        split_and!; [done..|]. apply elem_of_app. by left.
    + intros tok a' [Hin'|Hin']%elem_of_app.
      * destruct (Hst tok a' Hin') as [Hlt [Hc|(st' & Hs' & Ht')]].
        -- split; [lia|by left].
        -- split; [lia|right]. destruct (decide (a = a')) as [->|Hne'].
           ++ congruence.
           ++ rewrite lookup_insert_ne by done. eauto.
      * apply list_elem_of_singleton in Hin' as [= -> ->]. split; [lia|right].
        rewrite lookup_insert_eq. eexists. split; done.
    + intros tok Hc%Hcan. lia.
    + rewrite fmap_app. apply NoDup_app. split_and!; [done| |apply NoDup_singleton].
      intros tok Hin' Heq%list_elem_of_singleton. simpl in Heq. subst tok.
      apply list_elem_of_fmap in Hin' as ([t b] & Ht & Hin'). simpl in Ht. subst t.
      destruct (Hst _ _ Hin') as [Hlt _]. lia.
Qed.

Lemma Unsubscribe_keeps a c m :
  streamsInv m → streamsInv (Unsubscribe a c m).
Proof.
  intros (Hrec & Hst & Hcan & Hnd). unfold Unsubscribe.
  destruct (streams m !! a) as [st|] eqn:Ea; [|done].
  destruct (Hrec a st Ea) as (Hid & Hne & Hlive & Hin).
  cbv zeta. case_decide as Hsize.
  - unfold streamsInv. simpl. split_and!; [| | |done].
    + intros a' st'. rewrite lookup_delete. case_decide as Haa; [done|].
      intros Hs'. destruct (Hrec a' st' Hs') as (?&?&Hlive'&Hin').
      split_and!; [done|done| |done].
      rewrite elem_of_union, elem_of_singleton. intros [Heq|?]; [|done].
      rewrite Heq in Hin'. by destruct (started_token_agent _ _ _ _ Hnd Hin Hin').
    + intros tok a' Hin'. destruct (Hst tok a' Hin') as [Hlt [Hc|(st' & Hs' & Ht')]].
      * split; [done|left]. apply elem_of_union. by right.
      * split; [done|]. destruct (decide (a = a')) as [->|Hne'].
        -- left. apply elem_of_union. left. apply elem_of_singleton. congruence.
        -- right. rewrite lookup_delete_ne by done. eauto.
    + intros tok [Heq%elem_of_singleton|Hc]%elem_of_union; [|by apply Hcan].
      subst tok. by destruct (Hst _ _ Hin).
  - unfold streamsInv. simpl. split_and!; [| |done|done].
    + intros a' st'. rewrite lookup_insert. case_decide as Haa.
      * subst a'. intros [= <-]. simpl. split_and!; [done| |done|done].
        intros Hempty. apply Hsize. unfold removeClient. simpl.
        rewrite Hempty. apply size_empty.
      * apply Hrec.
    + intros tok a' Hin'. destruct (Hst tok a' Hin') as [Hlt [Hc|(st' & Hs' & Ht')]].
      * split; [done|by left].
      * split; [done|right]. destruct (decide (a = a')) as [->|Hne'].
        -- rewrite lookup_insert_eq. eexists. split; [done|]. simpl. congruence.
        -- rewrite lookup_insert_ne by done. eauto.
Qed.

Lemma UnsubscribeAll_keeps c m :
  streamsInv m → streamsInv (UnsubscribeAll c m).
Proof.
  unfold UnsubscribeAll. generalize (map_to_list (streams m)). intros l.
  revert m. induction l as [|kv l IH]; intros m Hinv; simpl; [done|].
  apply IH. by apply Unsubscribe_keeps.
Qed.

Lemma StopAll_keeps m : streamsInv m → streamsInv (StopAll m).
Proof.
  intros (Hrec & Hst & Hcan & Hnd). unfold StopAll, streamsInv. simpl.
  assert (∀ a st, streams m !! a = Some st →
            cancel st ∈ (list_to_set (cancel <$> (snd <$> map_to_list (streams m)))
                          : gset nat)) as Hall.
  { intros a st Hs. apply elem_of_list_to_set, list_elem_of_fmap.
    exists st. split; [done|]. apply list_elem_of_fmap. exists (a, st).
    split; [done|]. by apply elem_of_map_to_list. }
  split_and!; [| | |done].
  - intros a st. by rewrite lookup_empty.
  - intros tok a Hin. destruct (Hst tok a Hin) as [Hlt [Hc|(st & Hs & <-)]].
    + split; [done|left]. apply elem_of_union. by right.
    + split; [done|left]. apply elem_of_union. left. by eapply Hall.
  - intros tok [Hin|Hc]%elem_of_union; [|by apply Hcan].
    apply elem_of_list_to_set, list_elem_of_fmap in Hin as (st & -> & Hin).
    apply list_elem_of_fmap in Hin as ([a st'] & -> & Hin). simpl.
    apply elem_of_map_to_list in Hin.
    destruct (Hrec a st' Hin) as (_ & _ & _ & Hin'). by destruct (Hst _ _ Hin').
Qed.

Lemma applyOp_keeps op m : streamsInv m → streamsInv (applyOp op m).
Proof.
  destruct op; simpl.
  - apply Subscribe_keeps.
  - apply Unsubscribe_keeps.
  - apply UnsubscribeAll_keeps.
  - apply StopAll_keeps.
Qed.

Lemma run_keeps ops : streamsInv (run ops).
Proof.
  unfold run. generalize streamsInv_new. generalize NewLogStreamManager.
  induction ops as [|op ops IH]; intros m Hinv; simpl; [done|].
  apply IH. by apply applyOp_keeps.
Qed.

Lemma length_all_equal {A} (l : list A) (x : A) :
  NoDup l → x ∈ l → (∀ y, y ∈ l → y = x) → length l = 1%nat.
Proof.
  intros Hnd Hin Hall. destruct l as [|y [|z l]]; [|done|].
  - by apply elem_of_nil in Hin.
  - assert (y = x) as -> by (apply Hall; left).
    assert (z = x) as -> by (apply Hall; right; left).
    apply NoDup_cons in Hnd as [Hnotin _]. destruct Hnotin. left.
Qed.

(** An agent has one live log-tail task when it has a stream on record,
    and none otherwise. *)
Lemma liveStreams_count m a :
  streamsInv m →
  length (liveStreams m a) = if streams m !! a is Some _ then 1%nat else 0%nat.
Proof.
  intros (Hrec & Hst & Hcan & Hnd). unfold liveStreams.
  assert (∀ p, p ∈ filter (λ p, p.2 = a ∧ p.1 ∉ cancelled m) (started m) →
               ∃ st, streams m !! a = Some st ∧ p = (cancel st, a)) as Hshape.
  { intros [tok b] [[Hb Hlive] Hin]%list_elem_of_filter. simpl in *. subst b.
    destruct (Hst tok a Hin) as [_ [Hc|(st & Hs & Ht)]]; [done|].
    exists st. by rewrite Ht. }
  destruct (streams m !! a) as [st|] eqn:Ea.
  - destruct (Hrec a st Ea) as (_ & _ & Hlive & Hin).
    apply (length_all_equal _ (cancel st, a)).
    + apply NoDup_filter. by eapply NoDup_fmap_1.
    + apply list_elem_of_filter. done.
    + intros p Hp. destruct (Hshape p Hp) as (st' & [= <-] & ->). done.
  - destruct (filter _ _) as [|p l]; [done|].
    destruct (Hshape p) as (st & Hs & _); [left|done].
Qed.

Lemma tokensKept_refl m : tokensKept m m.
Proof. split; [done|]. intros a. by destruct (streams m !! a). Qed.

Lemma tokensKept_trans m1 m2 m3 :
  tokensKept m1 m2 → tokensKept m2 m3 → tokensKept m1 m3.
Proof.
  intros [Hc12 H12] [Hc23 H23]. split; [by etrans|].
  intros a. specialize (H12 a). specialize (H23 a).
  destruct (streams m1 !! a) as [st1|].
  - destruct (streams m2 !! a) as [st2|].
    + destruct (streams m3 !! a); congruence.
    + rewrite H23. by apply Hc23.
  - by rewrite H12 in H23.
Qed.

Lemma Unsubscribe_tokensKept a c m : tokensKept m (Unsubscribe a c m).
Proof.
  unfold Unsubscribe. destruct (streams m !! a) as [st|] eqn:Ea;
    [|apply tokensKept_refl].
  cbv zeta. case_decide; split; simpl.
  - apply union_subseteq_r.
  - intros a'. destruct (decide (a = a')) as [<-|Hne].
    + rewrite Ea, lookup_delete_eq. apply elem_of_union. left.
      by apply elem_of_singleton.
    + rewrite lookup_delete_ne by done. by destruct (streams m !! a').
  - done.
  - intros a'. destruct (decide (a = a')) as [<-|Hne].
    + by rewrite Ea, lookup_insert_eq.
    + rewrite lookup_insert_ne by done. by destruct (streams m !! a').
Qed.

Lemma foldl_Unsubscribe_tokensKept c (l : list (string * logStream)) :
  ∀ m0 m, tokensKept m0 m →
          tokensKept m0 (foldl (λ acc kv, Unsubscribe kv.1 c acc) m l).
Proof.
  induction l as [|kv l IH]; intros m0 m Hk; simpl; [done|].
  apply IH. eapply tokensKept_trans; [done|]. apply Unsubscribe_tokensKept.
Qed.

Lemma UnsubscribeAll_tokensKept c m : tokensKept m (UnsubscribeAll c m).
Proof. apply foldl_Unsubscribe_tokensKept, tokensKept_refl. Qed.

Lemma applyOp_emptiedAreCancelled op m :
  streamsInv m → emptiedAreCancelled m (applyOp op m).
Proof.
  intros Hinv a st Ha.
  pose proof (applyOp_keeps op m Hinv) as (Hrec' & _).
  assert (∀ st', streams (applyOp op m) !! a = Some st' → clients st' ≠ ∅) as Hne.
  { intros st' Hs'. by destruct (Hrec' a st' Hs') as (_ & ? & _). }
  assert (match streams (applyOp op m) !! a with
          | Some st' => cancel st' = cancel st
          | None => cancel st ∈ cancelled (applyOp op m)
          end) as Htok.
  { destruct op as [pm a' c|a' c|c|]; simpl.
    - unfold Subscribe. destruct (streams m !! a') as [st0|] eqn:Ea'.
      + simpl. destruct (decide (a' = a)) as [->|Hne'].
        * rewrite lookup_insert_eq. simpl. congruence.
        * rewrite lookup_insert_ne by done. by rewrite Ha.
      + destruct (pool.GetSlot a' pm); [|by rewrite Ha]. simpl.
        rewrite lookup_insert_ne by congruence. by rewrite Ha.
    - destruct (Unsubscribe_tokensKept a' c m) as [_ Hk].
      specialize (Hk a). by rewrite Ha in Hk.
    - destruct (UnsubscribeAll_tokensKept c m) as [_ Hk].
      specialize (Hk a). by rewrite Ha in Hk.
    - unfold StopAll. simpl. rewrite lookup_empty. apply elem_of_union. left.
      apply elem_of_list_to_set, list_elem_of_fmap.
      exists st. split; [done|]. apply list_elem_of_fmap. exists (a, st).
      split; [done|]. by apply elem_of_map_to_list. }
  destruct (streams (applyOp op m) !! a) as [st'|]; [|done].
  split; [done|]. by apply Hne.
Qed.

(** [UnsubscribeAll] does what its name says: afterwards the client is in
    no stream. *)
Lemma Unsubscribe_lookup_ne a a' c m :
  a ≠ a' → streams (Unsubscribe a c m) !! a' = streams m !! a'.
Proof.
  intros Hne. unfold Unsubscribe. destruct (streams m !! a); [|done].
  cbv zeta. case_decide; simpl.
  - by rewrite lookup_delete_ne.
  - by rewrite lookup_insert_ne.
Qed.

Lemma Unsubscribe_lookup_eq a c m st :
  streams (Unsubscribe a c m) !! a = Some st → c ∉ clients st.
Proof.
  unfold Unsubscribe. destruct (streams m !! a) as [st0|] eqn:Ea.
  - cbv zeta. case_decide; simpl.
    + by rewrite lookup_delete_eq.
    + rewrite lookup_insert_eq. intros [= <-]. simpl.
      rewrite elem_of_difference, elem_of_singleton. tauto.
  - by rewrite Ea.
Qed.

Lemma foldl_Unsubscribe_removes c (l : list (string * logStream)) : ∀ m,
  (∀ a st, streams m !! a = Some st → c ∈ clients st → a ∈ l.*1) →
  ∀ a st, streams (foldl (λ acc kv, Unsubscribe kv.1 c acc) m l) !! a = Some st →
          c ∉ clients st.
Proof.
  induction l as [|kv l IH]; intros m Hcover; simpl.
  - intros a st Hs Hc. by apply (not_elem_of_nil a), (Hcover a st).
  - apply IH. intros a st Hs Hc.
    destruct (decide (kv.1 = a)) as [<-|Hne].
    + by destruct (Unsubscribe_lookup_eq _ _ _ _ Hs).
    + rewrite Unsubscribe_lookup_ne in Hs by done.
      pose proof (Hcover a st Hs Hc) as Hin. simpl in Hin.
      apply elem_of_cons in Hin as [Heq|Hin]; [congruence|done].
Qed.

Lemma UnsubscribeAll_removes c m a st :
  streams (UnsubscribeAll c m) !! a = Some st → c ∉ clients st.
Proof.
  apply foldl_Unsubscribe_removes. intros a' st' Hs _.
  apply list_elem_of_fmap. exists (a', st'). split; [done|].
  by apply elem_of_map_to_list.
Qed.

(** C8.  After any sequence of [Subscribe], [Unsubscribe],
    [UnsubscribeAll] and [StopAll] calls: an agent has at most one live
    log-tail task, exactly one when it has a stream on record and none
    otherwise; every stream on record has a client and a token that is not
    cancelled; and after whatever call comes next, each stream is still on
    record under the same token with a client, or its token is cancelled
    and its record is deleted. *)
Theorem logstreams_refcounted (ops : list Op) :
  let m := run ops in
  (∀ agent, length (liveStreams m agent) =
              if streams m !! agent is Some _ then 1%nat else 0%nat) ∧
  (∀ agent st, streams m !! agent = Some st →
     clients st ≠ ∅ ∧ cancel st ∉ cancelled m) ∧
  (∀ op, emptiedAreCancelled m (applyOp op m)).
Proof.
  intros m. pose proof (run_keeps ops) as Hinv. fold m in Hinv. split_and!.
  - intros agent. by apply liveStreams_count.
  - intros agent st Hs. destruct Hinv as (Hrec & _).
    by destruct (Hrec agent st Hs) as (_ & ? & ? & _).
  - intros op. by apply applyOp_emptiedAreCancelled.
Qed.

(** *** More about the log streams *)

Lemma size_zero_empty (X : gset nat) : size X = 0%nat ↔ X = ∅.
Proof. rewrite size_empty_iff. by unfold_leibniz. Qed.

Lemma Unsubscribe_lookup a c m a' :
  streams (Unsubscribe a c m) !! a' =
    if decide (a' = a) then streams m !! a ≫= afterLeave c
    else streams m !! a'.
Proof.
  unfold Unsubscribe, afterLeave.
  destruct (streams m !! a) as [st|] eqn:Est.
  - simpl. destruct (decide (a' = a)) as [->|Hne].
    + case_decide as Hsz; simpl.
      * rewrite decide_True by by apply size_zero_empty.
        by rewrite lookup_delete_eq.
      * rewrite decide_False by (by rewrite <- size_zero_empty).
        by rewrite lookup_insert_eq.
    + case_decide; simpl; [by rewrite lookup_delete_ne|by rewrite lookup_insert_ne].
  - destruct (decide (a' = a)) as [->|Hne]; [by rewrite Est|done].
Qed.

Lemma Unsubscribe_cancelled a c m tok :
  tok ∈ cancelled (Unsubscribe a c m) ↔
  tok ∈ cancelled m ∨
  ∃ st, streams m !! a = Some st ∧ afterLeave c st = None ∧ cancel st = tok.
Proof.
  unfold Unsubscribe, afterLeave.
  destruct (streams m !! a) as [st|] eqn:Est.
  - case_decide as Hsz; simpl.
    + rewrite elem_of_union, elem_of_singleton. split.
      * intros [->|?]; [|by left]. right. exists st.
        rewrite decide_True by by apply size_zero_empty. done.
      * intros [?|(st' & [= <-] & _ & <-)]; [by right|by left].
    + split; [by left|]. intros [?|(st' & [= <-] & Hl & _)]; [done|].
      rewrite decide_False in Hl by (by rewrite <- size_zero_empty). done.
  - split; [by left|]. by intros [?|(st' & [=] & _)].
Qed.

Lemma foldl_Unsubscribe_spec c (l : list (string * logStream)) : ∀ m,
  NoDup l.*1 →
  let m' := foldl (λ acc kv, Unsubscribe kv.1 c acc) m l in
  (∀ a, streams m' !! a =
          if decide (a ∈ l.*1) then streams m !! a ≫= afterLeave c
          else streams m !! a) ∧
  (∀ tok, tok ∈ cancelled m' ↔
          tok ∈ cancelled m ∨
          ∃ a st, a ∈ l.*1 ∧ streams m !! a = Some st ∧
                  afterLeave c st = None ∧ cancel st = tok) ∧
  started m' = started m ∧ next_token m' = next_token m.
Proof.
  induction l as [|[a0 st0] l IH]; intros m Hnd m'; subst m'.
  { simpl. split_and!; [done| |done..]. intros tok. split; [by left|].
    intros [?|(a & st & Ha%elem_of_nil & _)]; done. }
  simpl in Hnd. apply NoDup_cons in Hnd as [Hnotin Hnd]. simpl.
  destruct (IH (Unsubscribe a0 c m) Hnd) as (Hs & Hc & Hst & Hnt).
  split_and!.
  - intros a. rewrite Hs, Unsubscribe_lookup.
    destruct (decide (a = a0)) as [->|Hne].
    + rewrite decide_False by done. rewrite decide_True by by left. done.
    + destruct (decide (a ∈ l.*1)) as [Hin|Hin].
      * by rewrite decide_True by by right.
      * rewrite decide_False; [done|]. by intros [?|?]%elem_of_cons.
  - intros tok. rewrite Hc, Unsubscribe_cancelled. split.
    + intros [[?|(st & Hst0 & Hl & Htok)]|(a & st & Ha & Hsa & Hl & Htok)].
      * by left.
      * right. exists a0, st. split_and!; [by left|done..].
      * right. exists a, st. rewrite Unsubscribe_lookup in Hsa.
        rewrite decide_False in Hsa by (intros ->; done).
        split_and!; [by right|done..].
    + intros [?|(a & st & [->|Ha]%elem_of_cons & Hsa & Hl & Htok)].
      * by left; left.
      * left; right. by exists st.
      * right. exists a, st. rewrite Unsubscribe_lookup.
        rewrite decide_False by (intros ->; done). done.
  - rewrite Hst. unfold Unsubscribe. by repeat case_match.
  - rewrite Hnt. unfold Unsubscribe. by repeat case_match.
Qed.

(** X14.  [UnsubscribeAll], whatever the order in which the streams are
    visited: the client leaves every stream; a stream that is left without
    a client is deleted and its token cancelled, every other stream stays
    with its other clients; no other token is cancelled and no task is
    started. *)
Theorem UnsubscribeAll_leaves_every_stream (c : nat) (m : LogStreamManager) :
  let m' := UnsubscribeAll c m in
  (∀ a, streams m' !! a = streams m !! a ≫= afterLeave c) ∧
  (∀ tok, tok ∈ cancelled m' ↔
          tok ∈ cancelled m ∨
          ∃ a st, streams m !! a = Some st ∧
                  clients st ∖ {[c]} = ∅ ∧ cancel st = tok) ∧
  started m' = started m ∧ next_token m' = next_token m ∧
  UnsubscribeAll c m' = m'.
Proof.
  assert (∀ m0,
    let m' := UnsubscribeAll c m0 in
    (∀ a, streams m' !! a = streams m0 !! a ≫= afterLeave c) ∧
    (∀ tok, tok ∈ cancelled m' ↔
            tok ∈ cancelled m0 ∨
            ∃ a st, streams m0 !! a = Some st ∧
                    clients st ∖ {[c]} = ∅ ∧ cancel st = tok) ∧
    started m' = started m0 ∧ next_token m' = next_token m0) as Hspec.
  { intros m0 m'. subst m'. unfold UnsubscribeAll.
    destruct (foldl_Unsubscribe_spec c (map_to_list (streams m0)) m0)
      as (Hs & Hc & Hst & Hnt); [apply NoDup_fst_map_to_list|].
    assert (∀ a, a ∈ (map_to_list (streams m0)).*1 ↔ is_Some (streams m0 !! a))
      as Hdom.
    { intros a. rewrite list_elem_of_fmap. split.
      - intros ([a' st] & -> & Hin%elem_of_map_to_list). by exists st.
      - intros [st Hst']. exists (a, st). split; [done|].
        by apply elem_of_map_to_list. }
    split_and!; [| |done..].
    - intros a. rewrite Hs. case_decide as Hin; [done|].
      destruct (streams m0 !! a) eqn:Ea; [|done].
      destruct Hin. apply Hdom. by rewrite Ea.
    - intros tok. rewrite Hc. split.
      + intros [?|(a & st & _ & Ha & Hl & Htok)]; [by left|].
        right. exists a, st. split_and!; [done| |done].
        unfold afterLeave in Hl. by case_decide.
      + intros [?|(a & st & Ha & He & Htok)]; [by left|].
        right. exists a, st. split_and!; [|done| |done].
        * apply Hdom. by rewrite Ha.
        * unfold afterLeave. by rewrite decide_True. }
  intros m'. destruct (Hspec m) as (Hs & Hc & Hst & Hnt). fold m' in Hs, Hc, Hst, Hnt.
  split_and!; [done..|].
  destruct (Hspec m') as (Hs' & Hc' & Hst' & Hnt').
  assert (∀ a st, streams m' !! a = Some st →
                  afterLeave c st = Some st) as Hstay.
  { intros a st Ha. rewrite Hs in Ha.
    destruct (streams m !! a) as [st0|]; [|done]. simpl in Ha.
    unfold afterLeave in Ha. case_decide as He; [done|]. injection Ha as <-.
    unfold afterLeave, removeClient. simpl.
    rewrite difference_twice_L. by rewrite decide_False. }
  assert (∀ x y : LogStreamManager,
            streams x = streams y → started x = started y →
            cancelled x = cancelled y → next_token x = next_token y → x = y)
    as Heq by (intros [] []; simpl; by intros -> -> -> ->).
  apply Heq; [| congruence | | congruence].
  - apply map_eq. intros a. rewrite Hs'.
    destruct (streams m' !! a) as [st|] eqn:Ea; [|done]. simpl.
    by apply (Hstay a).
  - apply set_eq. intros tok. rewrite Hc'. split; [|by left].
    intros [?|(a & st & Ha & He & _)]; [done|].
    apply Hstay in Ha. unfold afterLeave in Ha. by rewrite decide_True in Ha.
Qed.

Lemma lookup_streams_Subscribe_new pm a c m slot :
  streams m !! a = None → pool.GetSlot a pm = Some slot →
  Subscribe pm a c m =
    mkLogStreamManager
      (<[a := mkLogStream a (pool.Name slot) (next_token m) {[c]}]> (streams m))
      (started m ++ [(next_token m, a)]) (cancelled m) (S (next_token m)).
Proof.
  intros Hnone Hslot. unfold Subscribe. rewrite Hnone, Hslot.
  unfold addClient. simpl. by rewrite (right_id_L ∅ (∪)).
Qed.

(** X15.  The life of one log stream.  A subscription for an agent that
    has no stream and no slot in the pool does nothing.  With a slot, the
    first subscription starts one task, under a new token, for the VM of
    that slot, with the subscriber as its only client; subscribing again,
    as the same client, changes nothing.  When that client unsubscribes,
    the stream is deleted and its token cancelled: the streams are the
    ones there were before, and the agent has no live task. *)
Theorem Subscribe_starts_Unsubscribe_stops (pm : pool.Manager) (a : string)
    (c : nat) (m : LogStreamManager) :
  streams m !! a = None →
  (pool.GetSlot a pm = None → Subscribe pm a c m = m) ∧
  (∀ slot, pool.GetSlot a pm = Some slot →
     let m1 := Subscribe pm a c m in
     streams m1 !! a =
       Some (mkLogStream a (pool.Name slot) (next_token m) {[c]}) ∧
     (∀ a', a' ≠ a → streams m1 !! a' = streams m !! a') ∧
     started m1 = started m ++ [(next_token m, a)] ∧
     cancelled m1 = cancelled m ∧
     (∀ pm', Subscribe pm' a c m1 = m1) ∧
     streams (Unsubscribe a c m1) = streams m ∧
     cancelled (Unsubscribe a c m1) = {[next_token m]} ∪ cancelled m ∧
     started (Unsubscribe a c m1) = started m1 ∧
     (streamsInv m → liveStreams (Unsubscribe a c m1) a = [])).
Proof.
  intros Hnone. split.
  { intros Hslot. unfold Subscribe. by rewrite Hnone, Hslot. }
  intros slot Hslot m1. subst m1.
  rewrite (lookup_streams_Subscribe_new pm a c m slot Hnone Hslot).
  set (st := mkLogStream a (pool.Name slot) (next_token m) {[c]}).
  assert (Unsubscribe a c
            (mkLogStreamManager (<[a := st]> (streams m))
               (started m ++ [(next_token m, a)]) (cancelled m)
               (S (next_token m))) =
          mkLogStreamManager (streams m) (started m ++ [(next_token m, a)])
            ({[next_token m]} ∪ cancelled m) (S (next_token m))) as Hun.
  { unfold Unsubscribe. cbn [streams]. rewrite lookup_insert_eq.
    unfold removeClient. cbn [clients st cancel started cancelled next_token].
    rewrite difference_diag_L, size_empty. rewrite decide_True by done.
    by rewrite delete_insert_id. }
  rewrite Hun. simpl. split_and!; try done.
  - by rewrite lookup_insert_eq.
  - intros a' Ha'. by rewrite lookup_insert_ne.
  - intros pm'. unfold Subscribe. simpl. rewrite lookup_insert_eq.
    unfold addClient. simpl. rewrite insert_insert_eq.
    by rewrite (idemp_L (∪)).
  - intros Hinv.
    pose proof (Unsubscribe_keeps a c _ (Subscribe_keeps pm a c m Hinv)) as Hinv'.
    pose proof (liveStreams_count _ a Hinv') as Hlen.
    rewrite (lookup_streams_Subscribe_new pm a c m slot Hnone Hslot) in Hlen.
    fold st in Hlen.
    rewrite Hun in Hlen. simpl in Hlen. rewrite Hnone in Hlen.
    by apply nil_length_inv.
Qed.

(** A first subscription, for an agent with a slot in the pool. *)
Lemma Subscribe_starts_Unsubscribe_stops_witness :
  let busy := pool.mkVMSlot "warm-1" pool.SlotActive "agent-7" "p" "" "" "" "" 0 0 in
  let pm := pool.mkManager (pool.mkPoolConfig 1 2 "agent-master")
                           [busy] 1 None false in
  let m1 := Subscribe pm "agent-7" 0 NewLogStreamManager in
  streams m1 !! "agent-7" = Some (mkLogStream "agent-7" "warm-1" 0 {[0%nat]}) ∧
  streams (Unsubscribe "agent-7" 0 m1) = ∅.
Proof.
  intros busy pm m1.
  pose proof (Subscribe_starts_Unsubscribe_stops pm "agent-7" 0
                NewLogStreamManager (lookup_empty _)) as [_ Hs].
  destruct (Hs busy eq_refl) as (H1 & _ & _ & _ & _ & H2 & _).
  split; [exact H1|exact H2].
Defined.

End WsProps.

(** ** Package [orchestrator] *)

Module OrchestratorProps.
Import orchestrator.

Section props.
Context `{Codec}.

Lemma failAfterClaim_cold env slot ctx e pm i :
  pool.namesUnique pm → pool.slots pm !! i = Some slot →
  let r := failAfterClaim env slot ctx e pm in
  r.2 = (pool.Release (releaseIO env) (pool.Name slot) pm).2 ∧
  pool.slots r.2 =
    <[i := pool.mkVMSlot (pool.Name slot) pool.SlotCold "" "" (pool.Tool slot)
             (pool.Branch slot) (pool.Issue slot) (pool.VMIP slot)
             (pool.CreatedAt slot) (pool.ClaimedAt slot)]> (pool.slots pm).
Proof.
  intros Hu Hi. simpl. split; [done|]. by apply PoolProps.Release_of_unique.
Qed.

(** C1.  In a pool whose slots have distinct names: a request that
    fails validation makes [Dispatch] return the validation error and
    leave the pool manager as it was; and when a slot was claimed and
    [Dispatch] returns an error (writing the task file, either copy into
    the VM, writing the env file or restarting the runner failed), the
    pool is what [Release] of that slot's name makes of it: the claimed
    slot is still in the table, at its place, cold and without agent ID
    or project, and every other slot is as the claim left it. *)
Theorem Dispatch_rollback (env : DispatchEnv) (hostAddr : string)
    (req : DispatchRequest) (pm : pool.Manager) :
  pool.namesUnique pm →
  let r := Dispatch env hostAddr req pm in
  (∀ e, ValidateTask (newTask env hostAddr req) = Err e →
        r = (Err (ErrWrap "invalid task" e), pm)) ∧
  (∀ task slot pm1,
      ValidateTask (newTask env hostAddr req) = Ok task →
      pool.Claim (claimedAt env) (getVMIP env) (claimIO env)
                 (newAgentID env) (req_Project req) pm = (Ok slot, pm1) →
      is_err r.1 = true →
      r.2 = (pool.Release (releaseIO env) (pool.Name slot) pm1).2 ∧
      ∃ i cold, pool.slots pm1 !! i = Some slot ∧
                pool.slots r.2 !! i = Some cold ∧
                pool.Name cold = pool.Name slot ∧
                pool.State cold = pool.SlotCold ∧
                pool.AgentID cold = "" ∧ pool.Project cold = "" ∧
                length (pool.slots r.2) = length (pool.slots pm1) ∧
                ∀ j, j ≠ i → pool.slots r.2 !! j = pool.slots pm1 !! j).
Proof.
  intros Hu r. subst r. unfold Dispatch. split.
  - intros e ->. done.
  - intros task slot pm1 -> Hclaim. rewrite Hclaim.
    destruct (PoolProps.Claim_Ok _ _ _ _ _ _ _ _ Hclaim) as (i & s & Hi & Hn & Hs1 & _).
    assert (pool.namesUnique pm1) as Hu1.
    { unfold pool.namesUnique. rewrite Hs1.
      erewrite PoolProps.names_insert; done. }
    assert (pool.slots pm1 !! i = Some slot) as Hi1.
    { rewrite Hs1. apply list_lookup_insert_eq. by eapply lookup_lt_Some. }
    assert (∀ ctx e,
      let r := failAfterClaim env slot ctx e pm1 in
      r.2 = (pool.Release (releaseIO env) (pool.Name slot) pm1).2 ∧
      ∃ i cold, pool.slots pm1 !! i = Some slot ∧
                pool.slots r.2 !! i = Some cold ∧
                pool.Name cold = pool.Name slot ∧
                pool.State cold = pool.SlotCold ∧
                pool.AgentID cold = "" ∧ pool.Project cold = "" ∧
                length (pool.slots r.2) = length (pool.slots pm1) ∧
                ∀ j, j ≠ i → pool.slots r.2 !! j = pool.slots pm1 !! j) as Hfail.
    { intros ctx e.
      destruct (failAfterClaim_cold env slot ctx e pm1 i Hu1 Hi1) as [Hrel Hcold].
      cbv zeta. split; [exact Hrel|]. rewrite Hcold.
      exists i, (pool.mkVMSlot (pool.Name slot) pool.SlotCold "" ""
                   (pool.Tool slot) (pool.Branch slot) (pool.Issue slot)
                   (pool.VMIP slot) (pool.CreatedAt slot) (pool.ClaimedAt slot)).
      split_and!; [done| |done|done|done|done| |].
      - apply list_lookup_insert_eq. by eapply lookup_lt_Some.
      - by rewrite length_insert.
      - intros j Hj. by rewrite list_lookup_insert_ne. }
    destruct (writeTask env task); [intros _; apply Hfail|].
    destruct (copyTask env); [intros _; apply Hfail|].
    destruct (writeEnv env _); [intros _; apply Hfail|].
    destruct (copyEnv env); [intros _; apply Hfail|].
    destruct (restart env); [intros _; apply Hfail|].
    simpl. intros [=].
Qed.

End props.

(** C1 where the restart of the runner fails: the claimed slot ends
    cold. *)
Lemma Dispatch_rollback_witness :
  let idle := pool.mkVMSlot "warm-1" pool.SlotIdle "" "" "" "" "" "" 0 0 in
  let pm := pool.mkManager (pool.mkPoolConfig 1 2 "agent-master")
                           [idle] 1 None false in
  let env := mkDispatchEnv 1700000000000012345 0 0 (λ _, Ok "192.168.64.5")
               IoOk (λ _, None) None (λ _, None) None
               (Some (ErrExternal "exit status 1")) IoOk in
  let req := mkDispatchRequest "p" "u" "" "claude-code" "x" "" 0 0 ∅ in
  let r := Dispatch (H := evalCodec) env "host.lima.internal:8090" req pm in
  is_err r.1 = true ∧
  ∃ i cold, pool.slots r.2 !! i = Some cold ∧
            pool.Name cold = "warm-1" ∧ pool.State cold = pool.SlotCold.
Proof.
  intros idle pm env req r.
  assert (pool.namesUnique pm) as Hu by apply NoDup_singleton.
  destruct (Dispatch_rollback (H := evalCodec) env "host.lima.internal:8090"
              req pm Hu) as [_ Hroll].
  assert (is_err r.1 = true) as Herr by (vm_compute; reflexivity).
  split; [exact Herr|].
  match eval vm_compute in
        (ValidateTask (newTask env "host.lima.internal:8090" req)) with
  | Ok ?task =>
      match eval vm_compute in
            (pool.Claim (H := evalCodec) (claimedAt env) (getVMIP env)
               (claimIO env) (newAgentID env) (req_Project req) pm) with
      | (Ok ?slot, ?pm1) =>
          destruct (Hroll task slot pm1) as (_ & i & cold & _ & Hcold & Hn & Hs & _);
            [vm_compute; reflexivity..|]
      end
  end.
  exists i, cold. split_and!; [exact Hcold|exact Hn|exact Hs].
Defined.

(** *** The monitor, validation, the task file *)

Import PoolProps.

Section monitorProps.
Context `{Codec}.

Lemma Release_map io name pm :
  pool.namesUnique pm →
  pool.slots (pool.Release io name pm).2 =
    (λ s, if decide (pool.Name s = name) then pool.released s else s) <$> pool.slots pm.
Proof.
  intros Hu.
  destruct (list_find (λ s, pool.Name s = name) (pool.slots pm)) as [[i s]|] eqn:E.
  - apply list_find_Some in E as (Hi & Hn & _).
    rewrite (Release_of_unique io name pm i s Hu Hi Hn).
    apply list_eq. intros j. rewrite list_lookup_fmap.
    destruct (decide (j = i)) as [->|Hne].
    + rewrite list_lookup_insert_eq by by eapply lookup_lt_Some.
      rewrite Hi. simpl. by rewrite decide_True.
    + rewrite list_lookup_insert_ne by done.
      destruct (pool.slots pm !! j) as [y|] eqn:Hj; [|done]. simpl.
      rewrite decide_False; [done|]. intros Hy. apply Hne.
      eapply (NoDup_lookup _ _ _ name Hu); rewrite list_lookup_fmap.
      * by rewrite Hj; simpl; rewrite Hy.
      * by rewrite Hi; simpl; rewrite Hn.
  - unfold pool.Release. rewrite E. simpl.
    apply list_find_None in E. rewrite Forall_forall in E.
    apply list_eq. intros j. rewrite list_lookup_fmap.
    destruct (pool.slots pm !! j) as [y|] eqn:Hj; [|done]. simpl.
    rewrite decide_False; [done|]. apply E. by eapply list_elem_of_lookup_2.
Qed.


Lemma Release_map_names io name pm :
  pool.namesUnique pm → pool.namesUnique (pool.Release io name pm).2.
Proof.
  intros Hu. unfold pool.namesUnique. by rewrite Release_names.
Qed.

Lemma checkEach_map env act : ∀ k pm,
  pool.namesUnique pm → NoDup (pool.Name <$> act) →
  pool.slots (checkEach k env act pm) =
    (λ s, match list_find (λ a, pool.Name a = pool.Name s) act with
          | Some (j, _) => if vmGone (env (k + j)%nat) then pool.released s else s
          | None => s
          end) <$> pool.slots pm.
Proof.
  induction act as [|slot rest IH]; intros k pm Hu Hnd.
  { simpl. by rewrite list_fmap_id. }
  rewrite fmap_cons in Hnd. apply NoDup_cons in Hnd as [Hslot Hnd].
  cbn [checkEach]. cbv zeta.
  set (pm' := match check_get (env k) with Ok _ => _ | Err _ => _ end).
  assert (pool.namesUnique pm' ∧
          pool.slots pm' =
            (λ s, if decide (pool.Name s = pool.Name slot)
                  then (if vmGone (env k) then pool.released s else s) else s)
              <$> pool.slots pm) as [Hu' Hs'].
  { subst pm'. unfold vmGone. destruct (check_get (env k)) as [status|e].
    - case_decide as Hrun.
      + rewrite bool_decide_true by done.
        split; [by apply Release_map_names|by apply Release_map].
      + rewrite bool_decide_false by (by intros Hne). split; [done|].
        rewrite <- (list_fmap_id (pool.slots pm)) at 1.
        apply list_fmap_ext. intros i s _. by case_decide.
    - split; [by apply Release_map_names|by apply Release_map]. }
  rewrite (IH (S k) pm' Hu' Hnd), Hs', <- list_fmap_compose.
  apply list_fmap_ext. intros i s _. simpl.
  destruct (decide (pool.Name s = pool.Name slot)) as [Hn|Hn].
  - rewrite decide_True by done. simpl. rewrite Nat.add_0_r.
    assert (∀ x, pool.Name x = pool.Name s →
              list_find (λ a, pool.Name a = pool.Name x) rest = None) as Hnone.
    { intros x Hx. apply list_find_None, Forall_forall. intros a Ha Hax.
      apply Hslot. rewrite <- Hn, <- Hx, <- Hax. by apply list_elem_of_fmap_2. }
    destruct (vmGone (env k)); by rewrite Hnone.
  - rewrite decide_False by done. simpl.
    destruct (list_find _ rest) as [[j a]|]; simpl; [|done].
    by replace (k + S j)%nat with (S (k + j)) by lia.
Qed.

(** X16.  [checkAgents], on a table with unique names: the active slots,
    in table order, are the rounds of the loop; the [k]-th active slot is
    released (cold, no agent, no project) when its VM is not found or not
    running in round [k], and left as it is otherwise; no other slot
    changes, and none is added or removed. *)
Theorem checkAgents_releases_gone (env : nat → CheckTick) (pm : pool.Manager) :
  pool.namesUnique pm →
  let pm' := checkAgents env pm in
  length (pool.slots pm') = length (pool.slots pm) ∧
  ∀ i s, pool.slots pm !! i = Some s →
    (pool.State s ≠ pool.SlotActive → pool.slots pm' !! i = Some s) ∧
    (∀ k, pool.ActiveSlots pm !! k = Some s →
          pool.slots pm' !! i =
            Some (if vmGone (env k) then pool.released s else s)).
Proof.
  intros Hu pm'. subst pm'. unfold checkAgents.
  assert (NoDup (pool.Name <$> pool.ActiveSlots pm)) as Hnd.
  { eapply sublist_NoDup; [exact Hu|]. apply fmap_sublist, sublist_filter. }
  rewrite checkEach_map by done. split; [by rewrite length_fmap|].
  intros i s Hi. rewrite list_lookup_fmap, Hi. simpl.
  assert (s ∈ pool.slots pm) as Hs by by eapply list_elem_of_lookup_2.
  assert (∀ a, a ∈ pool.ActiveSlots pm → pool.Name a = pool.Name s → a = s) as Hsame.
  { intros a [_ Ha]%list_elem_of_filter Hn.
    by apply (unique_name_eq (pool.slots pm)). }
  split.
  - intros Hst. destruct (list_find _ _) as [[j a]|] eqn:E; [|done].
    apply list_find_Some in E as (Hj & Hn & _).
    assert (a ∈ pool.ActiveSlots pm) as Ha by by eapply list_elem_of_lookup_2.
    rewrite (Hsame a Ha Hn) in Ha. by apply list_elem_of_filter in Ha as [? _].
  - intros k Hk. destruct (list_find _ _) as [[j a]|] eqn:E.
    + apply list_find_Some in E as (Hj & Hn & _).
      assert (j = k) as ->; [|done].
      eapply (NoDup_lookup _ _ _ (pool.Name s) Hnd); rewrite list_lookup_fmap.
      * by rewrite Hj; simpl; rewrite Hn.
      * by rewrite Hk.
    + apply list_find_None in E. rewrite Forall_forall in E.
      destruct (E s); [by eapply list_elem_of_lookup_2|done].
Qed.

End monitorProps.

(** *** Task validation *)

Lemma validTools_lookup tool :
  default false (validTools !! tool) = true ↔
  tool ∈ ["claude-code"; "opencode"; "amp"; "cline"].
Proof.
  unfold validTools. simpl.
  rewrite !elem_of_cons, elem_of_nil.
  destruct (decide (tool = "claude-code")) as [->|H1]; [by split; [left|]|].
  rewrite lookup_insert_ne by done.
  destruct (decide (tool = "opencode")) as [->|H2]; [by split; [right; left|]|].
  rewrite lookup_insert_ne by done.
  destruct (decide (tool = "amp")) as [->|H3]; [by split; [right; right; left|]|].
  rewrite lookup_insert_ne by done.
  destruct (decide (tool = "cline")) as [->|H4];
    [by split; [right; right; right; left|]|].
  rewrite lookup_insert_ne by done. rewrite lookup_empty. simpl.
  split; [done|]. intros [?|[?|[?|[?|[]]]]]; done.
Qed.

(** X17.  [ValidateTask] accepts a task exactly when it has a project, a
    repository URL and a prompt, and its tool is one of the four.  The
    accepted task has a positive time limit (30 where the given one was
    not positive) and a branch (agent/<project>/<agentID> where none was
    given), and is otherwise the given one; validating it again changes
    nothing. *)
Theorem ValidateTask_accepts_and_defaults (tc : TaskConfig) :
  (is_err (ValidateTask tc) = false ↔
     Project tc ≠ "" ∧ RepoURL tc ≠ "" ∧ Prompt tc ≠ "" ∧
     Tool tc ∈ ["claude-code"; "opencode"; "amp"; "cline"]) ∧
  (∀ tc', ValidateTask tc = Ok tc' →
     MaxTime tc' = (if decide (0 < MaxTime tc) then MaxTime tc else 30) ∧
     Branch tc' = (if decide (Branch tc ≠ "") then Branch tc
                   else "agent/" +:+ Project tc +:+ "/" +:+ AgentID tc) ∧
     0 < MaxTime tc' ∧ Branch tc' ≠ "" ∧
     AgentID tc' = AgentID tc ∧ Project tc' = Project tc ∧
     RepoURL tc' = RepoURL tc ∧ Issue tc' = Issue tc ∧ Tool tc' = Tool tc ∧
     Prompt tc' = Prompt tc ∧ MaxTokens tc' = MaxTokens tc ∧
     EnvVars tc' = EnvVars tc ∧ HostAddr tc' = HostAddr tc ∧
     DispatchedAt tc' = DispatchedAt tc ∧
     ValidateTask tc' = Ok tc').
Proof.
  pose proof (validTools_lookup (Tool tc)) as Htool.
  unfold ValidateTask.
  destruct (decide (Project tc = "")) as [Hp|Hp].
  { split; [|done]. split; [done|]. by intros (? & _). }
  destruct (decide (RepoURL tc = "")) as [Hr|Hr].
  { split; [|done]. split; [done|]. by intros (_ & ? & _). }
  destruct (decide (Prompt tc = "")) as [Hq|Hq].
  { split; [|done]. split; [done|]. by intros (_ & _ & ? & _). }
  destruct (default false (validTools !! Tool tc)) eqn:Ev; simpl.
  2:{ split; [|done]. split; [done|]. intros (_ & _ & _ & Ht).
      by apply Htool in Ht. }
  split; [split; [intros _; split_and!; [done..|by apply Htool]|done]|].
  intros tc' [= <-]. simpl.
  assert ("agent/" +:+ Project tc +:+ "/" +:+ AgentID tc ≠ "") as Hb by done.
  split_and!; try done; repeat case_decide; try done; try lia;
    by rewrite Ev.
Qed.

Lemma ValidateTask_Ok tc tc' :
  ValidateTask tc = Ok tc' →
  Tool tc ∈ ["claude-code"; "opencode"; "amp"; "cline"] ∧
  Tool tc' = Tool tc ∧ Prompt tc' = Prompt tc ∧
  MaxTime tc' = (if decide (MaxTime tc ≤ 0) then 30 else MaxTime tc).
Proof.
  unfold ValidateTask. repeat (case_decide; [done|]).
  destruct (default false (validTools !! Tool tc)) eqn:Ev; [|done]. simpl.
  intros [= <-]. simpl. split; [by apply validTools_lookup|done].
Qed.

Lemma Deadline_small (minutes : Z) :
  0 < minutes ≤ 153722867 →
  harness.Deadline minutes = minutes * harness.Minute ∧
  harness.expiredAtStart minutes = false.
Proof.
  intros Hm. unfold harness.expiredAtStart, harness.Deadline, harness.Minute.
  rewrite GoProps.wrap_id by (unfold in_range, min_int, max_int; lia). split; [done|].
  apply bool_decide_eq_false. lia.
Qed.

Lemma Deadline_wraps (minutes : Z) :
  153722867 < minutes ≤ 307445734 →
  harness.Deadline minutes = minutes * harness.Minute - 2 ^ 64 ∧
  harness.expiredAtStart minutes = true.
Proof.
  intros Hm. unfold harness.expiredAtStart, harness.Deadline, harness.Minute, wrap.
  assert ((minutes * 60000000000 + 2 ^ 63) `mod` 2 ^ 64
          = minutes * 60000000000 + 2 ^ 63 - 2 ^ 64) as ->.
  { symmetry. apply (Z.mod_unique _ _ 1); lia. }
  split; [lia|]. apply bool_decide_eq_true. lia.
Qed.

(** X18.  A task that [ValidateTask] accepts has a command: [buildCommand]
    answers one for its tool, ending in its prompt, and for any tool it
    answers nil exactly when the tool is not a valid one.  The
    constrainer made for the task holds the time limit that
    [ValidateTask] fixed.  The deadline it sets is that many minutes
    while the limit is at most 153722867 minutes; [ValidateTask] has no
    upper bound, and for a limit from there up to 307445734 minutes the
    duration has wrapped below zero, so that the context of the command
    is done from the start. *)
Theorem accepted_task_command_and_limit (tc tc' : TaskConfig) :
  ValidateTask tc = Ok tc' →
  (∃ cmd, cmd ≠ [] ∧
          harness.buildCommand (Tool tc') (Prompt tc') = cmd ++ [Prompt tc]) ∧
  (∀ tool prompt, harness.buildCommand tool prompt = [] ↔
                  default false (validTools !! tool) = false) ∧
  harness.NewConstrainer (MaxTime tc') = MaxTime tc' ∧
  harness.NewConstrainer (MaxTime tc) = MaxTime tc' ∧
  (MaxTime tc' ≤ 153722867 →
     harness.Deadline (MaxTime tc') = MaxTime tc' * harness.Minute ∧
     harness.expiredAtStart (MaxTime tc') = false) ∧
  (153722867 < MaxTime tc' ≤ 307445734 →
     harness.Deadline (MaxTime tc') = MaxTime tc' * harness.Minute - 2 ^ 64 ∧
     harness.expiredAtStart (MaxTime tc') = true).
Proof.
  intros (Htool & Ht & Hp & Hm)%ValidateTask_Ok.
  assert (0 < MaxTime tc') as Hpos.
  { rewrite Hm. case_decide; lia. }
  split_and!.
  - rewrite Ht, Hp. unfold harness.buildCommand.
    rewrite !elem_of_cons, elem_of_nil in Htool.
    destruct Htool as [->|[->|[->|[->|[]]]]]; simpl.
    + by exists ["claude"; "--dangerously-skip-permissions"; "-p"].
    + by exists ["opencode"; "run"; "--prompt"].
    + by exists ["amp"; "run"].
    + by exists ["cline"; "--task"].
  - intros tool prompt. pose proof (validTools_lookup tool) as Hl.
    rewrite !elem_of_cons, elem_of_nil in Hl.
    unfold harness.buildCommand.
    destruct (default false (validTools !! tool)).
    + destruct Hl as [Hl _]. destruct (Hl eq_refl) as [->|[->|[->|[->|[]]]]]; done.
    + destruct Hl as [_ Hl]. repeat case_decide; try done; exfalso;
        assert (false = true) as [=]; apply Hl; tauto.
  - unfold harness.NewConstrainer. by rewrite decide_False by lia.
  - by rewrite Hm.
  - intros Hle. apply Deadline_small. lia.
  - apply Deadline_wraps.
Qed.


Section dispatchProps.
Context `{Codec}.

(** X19.  [Dispatch] succeeds exactly when the task is valid, the pool has
    an idle slot, and the five steps inside the VM all succeed.  It then
    answers with the new agent ID and with the name and IP of the first
    idle slot, which is now active under that agent ID and the request's
    project; nothing else in the table changes.  With a valid task and no
    idle slot it fails on the claim and leaves the pool as it was. *)
Theorem Dispatch_success (env : DispatchEnv) (hostAddr : string)
    (req : DispatchRequest) (pm : pool.Manager) :
  let r := Dispatch env hostAddr req pm in
  let agentID := newAgentID env in
  (is_err r.1 = false ↔
     (∃ task, ValidateTask (newTask env hostAddr req) = Ok task ∧
              writeTask env task = None) ∧
     (∃ s, s ∈ pool.slots pm ∧ pool.State s = pool.SlotIdle) ∧
     copyTask env = None ∧
     writeEnv env (envContent agentID (req_Project req) hostAddr
                              (req_EnvVars req)) = None ∧
     copyEnv env = None ∧ restart env = None) ∧
  (∀ res, r.1 = Ok res →
     res_AgentID res = agentID ∧
     ∃ i s c,
       pool.slots pm !! i = Some s ∧ pool.State s = pool.SlotIdle ∧
       (∀ j s', pool.slots pm !! j = Some s' → (j < i)%nat →
                pool.State s' ≠ pool.SlotIdle) ∧
       pool.slots r.2 = <[i := c]> (pool.slots pm) ∧
       pool.counter r.2 = pool.counter pm ∧
       res_VMName res = pool.Name s ∧ res_VMIP res = pool.VMIP c ∧
       pool.Name c = pool.Name s ∧ pool.State c = pool.SlotActive ∧
       pool.AgentID c = agentID ∧ pool.Project c = req_Project req ∧
       pool.ClaimedAt c = claimedAt env) ∧
  (∀ task, ValidateTask (newTask env hostAddr req) = Ok task →
     (∀ s, s ∈ pool.slots pm → pool.State s ≠ pool.SlotIdle) →
     r = (Err (ErrWrap "claiming VM" ErrNoWarmVMs), pm)).
Proof.
  intros r agentID. subst r. unfold Dispatch. fold agentID.
  destruct (ValidateTask _) as [task|e] eqn:Ev.
  2:{ split_and!; [|done..]. split; [done|]. by intros [(t & [=] & _) _]. }
  unfold pool.Claim.
  destruct (list_find _ _) as [[i s]|] eqn:E.
  2:{ apply list_find_None in E. rewrite Forall_forall in E. split_and!.
      - split; [done|]. intros (_ & (s & Hs & Hidle) & _). by destruct (E s).
      - done.
      - done. }
  apply list_find_Some in E as (Hi & Hidle & Hmin).
  set (c := match getVMIP env _ with Ok ip => _ | Err _ => _ end).
  assert (pool.Name c = pool.Name s ∧ pool.State c = pool.SlotActive ∧
          pool.AgentID c = agentID ∧ pool.Project c = req_Project req ∧
          pool.ClaimedAt c = claimedAt env) as Hc
    by (subst c; by destruct (getVMIP env _)).
  assert (∃ s0, s0 ∈ pool.slots pm ∧ pool.State s0 = pool.SlotIdle) as Hex.
  { exists s. split; [by eapply list_elem_of_lookup_2|done]. }
  unfold failAfterClaim.
  destruct (writeTask env task) eqn:E1; simpl.
  { split_and!; [|done|]. 
    - split; [done|]. intros ((t & [= <-] & Hw) & _). congruence.
    - intros t [= <-] Hno. destruct Hex as (s0 & Hs0 & Hi0). by destruct (Hno s0). }
  destruct (copyTask env) eqn:E2; simpl.
  { split_and!; [|done|].
    - split; [done|]. by intros (_ & _ & [=] & _).
    - intros t [= <-] Hno. destruct Hex as (s0 & Hs0 & Hi0). by destruct (Hno s0). }
  destruct (writeEnv env _) eqn:E3; simpl.
  { split_and!; [|done|].
    - split; [done|]. by intros (_ & _ & _ & [=] & _).
    - intros t [= <-] Hno. destruct Hex as (s0 & Hs0 & Hi0). by destruct (Hno s0). }
  destruct (copyEnv env) eqn:E4; simpl.
  { split_and!; [|done|].
    - split; [done|]. by intros (_ & _ & _ & _ & [=] & _).
    - intros t [= <-] Hno. destruct Hex as (s0 & Hs0 & Hi0). by destruct (Hno s0). }
  destruct (restart env) eqn:E5; simpl.
  { split_and!; [|done|].
    - split; [done|]. by intros (_ & _ & _ & _ & _ & [=]).
    - intros t [= <-] Hno. destruct Hex as (s0 & Hs0 & Hi0). by destruct (Hno s0). }
  split_and!.
  - split; [|done]. intros _. split_and!; [by exists task|done..].
  - intros res [= <-]. simpl. split; [done|].
    exists i, s, c. rewrite persist_slots, persist_counter. simpl.
    destruct Hc as (? & ? & ? & ? & ?). split_and!; done.
  - intros t [= <-] Hno. destruct Hex as (s0 & Hs0 & Hi0). by destruct (Hno s0).
Qed.

End dispatchProps.

Section taskFileProps.
Context `{Codec}.

Lemma foldl_insert_lookup (l : list (string * string)) : ∀ (acc : gmap string string) k,
  NoDup l.*1 →
  foldl (λ acc kv, <[kv.1 := kv.2]> acc) acc l !! k =
    match (list_to_map l : gmap string string) !! k with
    | Some v => Some v
    | None => acc !! k
    end.
Proof.
  induction l as [|[k' v'] l IH]; intros acc k Hnd; simpl; [done|].
  apply NoDup_cons in Hnd as [Hk' Hnd]. rewrite IH by done.
  destruct (decide (k = k')) as [->|Hne].
  - rewrite lookup_insert_eq.
    rewrite (not_elem_of_list_to_map_1 _ k') by done.
    by rewrite lookup_insert_eq.
  - rewrite !lookup_insert_ne by done. done.
Qed.

Lemma unmarshalStringMap_fields (l : list (string * string))
    (acc : gmap string string) :
  (∀ kv, kv ∈ l → utf8 kv.1 = kv.1 ∧ utf8 kv.2 = kv.2) →
  unmarshalFields
    (λ (acc : gmap string string) kv,
       v ← unmarshalString "" kv.2; Ok (<[kv.1 := v]> acc)) acc
    ((λ kv, (utf8 kv.1, JStr (utf8 kv.2))) <$> l) =
  Ok (foldl (λ acc kv, <[kv.1 := kv.2]> acc) acc l).
Proof.
  revert acc. induction l as [|[k v] l IH]; intros acc Hwf; [done|].
  destruct (Hwf (k, v)) as [Hk Hv]; [by left|]. simpl in *.
  rewrite Hk, Hv. apply IH. intros kv Hkv. apply Hwf. by right.
Qed.

Lemma unmarshalStringMap_marshalStringMap (m : gmap string string) :
  (∀ k v, m !! k = Some v → utf8 k = k ∧ utf8 v = v) →
  unmarshalStringMap ∅ (marshalStringMap m) = Ok m.
Proof.
  intros Hwf. unfold marshalStringMap, unmarshalStringMap.
  pose proof (merge_sort_Permutation keyLe (map_to_list m)) as Hperm.
  rewrite unmarshalStringMap_fields.
  - f_equal. apply map_eq. intros k.
    rewrite foldl_insert_lookup.
    + rewrite (list_to_map_proper _ (map_to_list m)), list_to_map_to_list.
      * rewrite lookup_empty. by destruct (m !! k).
      * rewrite Hperm. apply NoDup_fst_map_to_list.
      * done.
    + rewrite Hperm. apply NoDup_fst_map_to_list.
  - intros [k v] Hkv. rewrite Hperm in Hkv.
    apply elem_of_map_to_list in Hkv. by apply Hwf.
Qed.

Lemma unmarshalTask_marshalTask tc j :
  pool.timeRoundTrip → wfTask tc → marshalTask tc = Some j →
  unmarshalTask (FileJSON j) = Ok tc.
Proof.
  intros Htime (Ha & Hp & Hr & Hi & Ht & Hq & Hb & Hh & Hmt & Hmk & Henv & _).
  destruct tc as [a p r i t q b mt mk ev h d]. simpl in *.
  unfold marshalTask. simpl.
  destruct (MarshalTime d) as [dt|] eqn:Ed; [|done]. simpl.
  intros [= <-]. rewrite Ha, Hp, Hr, Ht, Hq, Hb, Hh.
  change (unmarshalFields unmarshalTaskField
            (mkTaskConfig a p r "" "" "" "" 0 0 ∅ "" 0)
            (omitempty "issue" i ++
             [("tool", JStr t); ("prompt", JStr q); ("branch", JStr b);
              ("maxTime", JNum mt)] ++
             (if decide (mk = 0) then [] else [("maxTokens", JNum mk)]) ++
             (if decide (ev = ∅) then []
              else [("envVars", marshalStringMap ev)]) ++
             [("hostAddr", JStr h); ("dispatchedAt", JStr dt)])
          = Ok (mkTaskConfig a p r i t q b mt mk ev h d)).
  rewrite (unmarshalFields_omitempty_any _ _ _ _
             (mkTaskConfig a p r i "" "" "" 0 0 ∅ "" 0));
    [|by intros -> | by intros _; simpl; rewrite Hi].
  simpl. rewrite (decide_True (P := in_range mt)) by done. simpl.
  assert (unmarshalFields unmarshalTaskField
            (mkTaskConfig a p r i t q b mt mk ev "" 0)
            [("hostAddr", JStr h); ("dispatchedAt", JStr dt)]
          = Ok (mkTaskConfig a p r i t q b mt mk ev h d)) as Htail.
  { simpl. by rewrite (Htime _ _ Ed). }
  pose proof (unmarshalStringMap_marshalStringMap ev Henv) as Hm.
  unfold marshalStringMap, unmarshalStringMap in Hm.
  destruct (decide (mk = 0)) as [->|Hk]; destruct (decide (ev = ∅)) as [->|He];
    simpl; rewrite ?(decide_True (P := in_range mk)) by done; simpl;
    rewrite ?Hm; simpl; exact Htail.
Qed.

(** X20.  With a [time] package whose JSON form reads back, a task that
    JSON can carry and that [WriteTaskConfig] writes without a failure is
    the task that [ReadTaskConfig] then returns from that path, and such a
    write does not fail.  A path with no file makes [ReadTaskConfig] fail. *)
Theorem WriteTaskConfig_ReadTaskConfig_roundtrip (tc : TaskConfig)
    (cur : option file) :
  pool.timeRoundTrip → wfTask tc →
  (WriteTaskConfig None tc cur).1 = None ∧
  ReadTaskConfig None (WriteTaskConfig None tc cur).2 = Ok tc ∧
  is_err (ReadTaskConfig None None) = true.
Proof.
  intros Htime Hwf. unfold WriteTaskConfig.
  destruct (marshalTask tc) as [j|] eqn:Ej.
  - split; [done|]. split; [|done]. unfold ReadTaskConfig, snd.
    by rewrite (unmarshalTask_marshalTask tc j Htime Hwf Ej).
  - exfalso. destruct Hwf as (_ & _ & _ & _ & _ & _ & _ & _ & _ & _ & _ & [dt Hd]).
    unfold marshalTask in Ej. by rewrite Hd in Ej.
Qed.



End taskFileProps.

(** A check of a table with two active slots: the VM of the first is
    stopped, the VM of the second is running. *)
Lemma checkAgents_releases_gone_witness :
  let a1 := pool.mkVMSlot "warm-1" pool.SlotActive "agent-1" "p" "" "" "" "" 0 0 in
  let a2 := pool.mkVMSlot "warm-2" pool.SlotActive "agent-2" "p" "" "" "" "" 0 0 in
  let pm := pool.mkManager (pool.mkPoolConfig 1 3 "agent-master")
                           [a1; a2] 2 None false in
  let env := λ k : nat,
    mkCheckTick (Ok (if decide (k = 0%nat) then lima.StatusStopped
                     else lima.StatusRunning)) IoOk in
  pool.slots (checkAgents (H := evalCodec) env pm) !! 0%nat = Some (pool.released a1) ∧
  pool.slots (checkAgents (H := evalCodec) env pm) !! 1%nat = Some a2.
Proof.
  intros a1 a2 pm env.
  assert (pool.namesUnique pm) as Hu.
  { unfold pool.namesUnique. simpl. apply NoDup_cons. split.
    - rewrite list_elem_of_singleton. discriminate.
    - apply NoDup_singleton. }
  pose proof (checkAgents_releases_gone (H := evalCodec) env pm Hu) as [_ Hall].
  split.
  - exact (proj2 (Hall 0%nat a1 eq_refl) 0%nat eq_refl).
  - exact (proj2 (Hall 1%nat a2 eq_refl) 1%nat eq_refl).
Defined.

(** The task of the package's validation test; its limit becomes 30
    minutes. *)
Lemma accepted_task_command_and_limit_witness :
  let tc := mkTaskConfig "agent-1" "myproject" "https://github.com/user/repo"
              "" "claude-code" "Fix the bug" "" 0 0 ∅ "" 0 in
  let tc' := mkTaskConfig "agent-1" "myproject" "https://github.com/user/repo"
               "" "claude-code" "Fix the bug" "agent/myproject/agent-1" 30 0 ∅
               "" 0 in
  harness.NewConstrainer (MaxTime tc) = 30 ∧
  harness.Deadline 30 = 1800000000000.
Proof.
  intros tc tc'.
  destruct (accepted_task_command_and_limit tc tc' eq_refl)
    as (_ & _ & _ & Hlimit & Hsmall & _).
  split; [exact Hlimit|].
  exact (proj1 (Hsmall ltac:(simpl; lia))).
Defined.

(** The task of the package's write-and-read test, with two environment
    variables. *)
Lemma WriteTaskConfig_ReadTaskConfig_roundtrip_witness :
  let tc := mkTaskConfig "agent-1" "myproject" "https://github.com/user/repo"
              "42" "claude-code" "Fix the bug" "agent/myproject/agent-1" 30 0
              (<["B" := "2"]> (<["A" := "1"]> ∅)) "host.lima.internal:8090" 0 in
  ReadTaskConfig (H := evalCodec) None
    (WriteTaskConfig (H := evalCodec) None tc None).2 = Ok tc.
Proof.
  intros tc.
  refine (proj1 (proj2 (WriteTaskConfig_ReadTaskConfig_roundtrip
                          (H := evalCodec) tc None _ _))).
  - exact evalCodec_timeRoundTrip.
  - unfold wfTask. simpl. split_and!; try reflexivity.
    + vm_compute. split; discriminate.
    + vm_compute. split; discriminate.
    + intros k v _. split; reflexivity.
    + eauto.
Defined.

End OrchestratorProps.

(** ** Package [network] *)

Module NetworkProps.
Import network.

Lemma replaceByte_length old new s :
  String.length (replaceByte old new s) = String.length s.
Proof. induction s as [|c s IH]; simpl; [done|by rewrite IH]. Qed.

Lemma replaceByte_chars old new s c :
  In c (String.list_ascii_of_string (replaceByte old new s)) →
  (c = new ∨ (c ≠ old ∧ In c (String.list_ascii_of_string s))).
Proof.
  induction s as [|c' s IH]; simpl; [done|]. intros [Hc|Hc].
  - case_decide as Hd; [by left|]. right. split; [congruence|by left].
  - destruct (IH Hc) as [?|[? ?]]; [by left|]. right. split; [done|by right].
Qed.

Lemma replaceByte_id old new s :
  ¬ In old (String.list_ascii_of_string s) → replaceByte old new s = s.
Proof.
  induction s as [|c s IH]; simpl; [done|]. intros Hnot.
  rewrite decide_False by (intros ->; apply Hnot; by left).
  rewrite IH; [done|]. intros Hin. apply Hnot. by right.
Qed.

(** X21.  [sanitize] gives a name that is safe as a file name: it has no
    slash and no dot, so the route file [<name>.yaml] lies in the
    directory of routes itself.  It changes nothing else: the length is
    kept, a name without slash or dot is returned as it is, and sanitizing
    twice is sanitizing once. *)
Theorem sanitize_safe (s : string) :
  (∀ c, In c (String.list_ascii_of_string (sanitize s)) → c ≠ slash ∧ c ≠ dot) ∧
  String.length (sanitize s) = String.length s ∧
  (¬ In slash (String.list_ascii_of_string s) → ¬ In dot (String.list_ascii_of_string s) →
     sanitize s = s) ∧
  sanitize (sanitize s) = sanitize s.
Proof.
  assert (∀ c, In c (String.list_ascii_of_string (sanitize s)) → c ≠ slash ∧ c ≠ dot)
    as Hsafe.
  { intros c Hc. unfold sanitize in Hc.
    apply replaceByte_chars in Hc as [->|[Hs Hc]]; [done|].
    apply replaceByte_chars in Hc as [->|[Hd _]]; done. }
  split_and!; [done| | |].
  - unfold sanitize. by rewrite !replaceByte_length.
  - intros Hs Hd. unfold sanitize. by rewrite (replaceByte_id dot), replaceByte_id.
  - unfold sanitize at 1.
    rewrite (replaceByte_id dot) by (intros Hin; by destruct (Hsafe _ Hin)).
    apply replaceByte_id. intros Hin. by destruct (Hsafe _ Hin).
Qed.

(** X22.  The route files.  [WriteRoute] without a failure leaves the
    agent's route under [<sanitized ID>.yaml] and touches no other file;
    [RemoveRoute] removes that file and no other, and is no error when
    there is no such file.  So writing and then removing the route of an
    agent that had none gives back the directory as it was; and two agents
    whose IDs sanitize to the same name share one route file. *)
Theorem route_file_per_agent (tw : TraefikWriter)
    (reg : registry.AgentRegistration) (dir : gmap string string) :
  let id := registry.AgentID reg in
  let w := WriteRoute tw None None reg dir in
  w.1 = None ∧
  w.2 !! routeFile id = Some (routeConfig tw reg) ∧
  (∀ f, f ≠ routeFile id → w.2 !! f = dir !! f) ∧
  (∀ id', (RemoveRoute None id' dir).1 = None ∧
          (RemoveRoute None id' dir).2 !! routeFile id' = None ∧
          (∀ f, f ≠ routeFile id' → (RemoveRoute None id' dir).2 !! f = dir !! f) ∧
          (dir !! routeFile id' = None → RemoveRoute None id' dir = (None, dir))) ∧
  (dir !! routeFile id = None → RemoveRoute None id w.2 = (None, dir)) ∧
  (∀ id', sanitize id' = sanitize id →
          (RemoveRoute None id' w.2).2 !! routeFile id = None) ∧
  (∀ e, WriteRoute tw (Some e) None reg dir = (Some e, dir)) ∧
  (∀ e id', RemoveRoute (Some e) id' dir = (Some e, dir)).
Proof.
  intros id w. subst w id. unfold WriteRoute, RemoveRoute. simpl.
  split_and!; try done.
  - by rewrite lookup_insert_eq.
  - intros f Hf. by rewrite lookup_insert_ne.
  - intros id'. split_and!; [done| | |].
    + by rewrite lookup_delete_eq.
    + intros f Hf. by rewrite lookup_delete_ne.
    + intros Hnone. by rewrite delete_id.
  - intros Hnone. by rewrite delete_insert_id.
  - intros id' Hsame. unfold routeFile. rewrite Hsame. by rewrite lookup_delete_eq.
Qed.

End NetworkProps.

(** ** Package [ws]: mounts and commands *)

Module CommandProps.
Import wsCommands PoolProps RegistryProps.

Section sshfsProps.
Variable Join : string → string → string.

(** X23.  Mounting and unmounting.  [Mount] of a mounted agent returns its
    mount point and does nothing else, whatever the commands would return;
    [Mount] of an agent that is not mounted records [Join baseDir agentID]
    when both steps succeed and records nothing when one fails.  [Unmount]
    of an agent that is not mounted is an error; of a mounted one it
    forgets the mount unless the unmount and the forced unmount both fail.
    So a mount followed by an unmount leaves the mounts as they were. *)
Theorem Mount_then_Unmount (mkdir sshfs umount force : option error)
    (vmName agentID project remotePath : string) (m : SSHFSManager) :
  let r := Mount Join mkdir sshfs vmName agentID project remotePath m in
  (∀ mp, mounts m !! agentID = Some mp → r = (Ok mp, m)) ∧
  (mounts m !! agentID = None →
     (is_err r.1 = false ↔ mkdir = None ∧ sshfs = None) ∧
     (is_err r.1 = true → r.2 = m) ∧
     (is_err r.1 = false →
        r.1 = Ok (Join (baseDir m) agentID) ∧
        MountPoint agentID r.2 = Join (baseDir m) agentID ∧
        IsMounted agentID r.2 = true ∧
        (∀ a, a ≠ agentID → mounts r.2 !! a = mounts m !! a) ∧
        Mount Join mkdir sshfs vmName agentID project remotePath r.2 = (r.1, r.2) ∧
        ((umount = None ∨ force = None) →
           Unmount umount force agentID r.2 = (None, m))) ∧
     is_Some (Unmount umount force agentID m).1 ∧
     (Unmount umount force agentID m).2 = m) ∧
  (is_Some umount → is_Some force →
     is_Some (Unmount umount force agentID m).1 ∧
     (Unmount umount force agentID m).2 = m).
Proof.
  intros r. subst r. unfold Mount, Unmount, MountPoint, IsMounted. split_and!.
  - by intros mp ->.
  - intros Hnone. rewrite Hnone.
    destruct mkdir as [e|]; [by split_and!; [split; [|intros [[=] _]]|..]|].
    destruct sshfs as [e|]; [by split_and!; [split; [|intros [_ [=]]]|..]|].
    simpl. split_and!; try done.
    intros _. rewrite !lookup_insert_eq. simpl. split_and!; try done.
    + intros a Ha. by rewrite lookup_insert_ne.
    + intros Hok. destruct m as [bd ms]. simpl in *.
      rewrite delete_insert_id by done.
      destruct umount, force; try done. by destruct Hok.
  - intros [e He] [e' He']. subst. by destruct (mounts m !! agentID).
Qed.

End sshfsProps.

Section handlerProps.
Context `{Codec}.
Variable Join : string → string → string.

(** X24.  [handleKill].  When the arguments do not decode or no slot has
    the given ID as its name or agent ID, the command fails and nothing
    changes.  Otherwise the slot's VM is released, and the pool is what
    [Release] leaves, also when its persist fails; only when the release
    succeeded is the route file of the given ID removed and the ID
    deregistered, and the command succeeds.  A mount of the agent is never
    touched. *)
Theorem handleKill_outcomes (env : CommandEnv) (cmd : CommandPayload)
    (w : World) :
  let r := handleKill env cmd w in
  (∀ e, unmarshalAgentArgs (cmd_Args cmd) = Err e →
        r = (failure cmd (InvalidArgs e), w)) ∧
  (∀ agentID, unmarshalAgentArgs (cmd_Args cmd) = Ok agentID →
     (pool.GetSlot agentID (poolMgr w) = None →
        r = (failure cmd AgentNotFound, w)) ∧
     (∀ slot, pool.GetSlot agentID (poolMgr w) = Some slot →
        let rel := pool.Release (releaseIO env) (pool.Name slot) (poolMgr w) in
        poolMgr r.2 = rel.2 ∧
        sshfs r.2 = sshfs w ∧
        (Success r.1 = true ↔ rel.1 = None) ∧
        (∀ e, rel.1 = Some e →
           r.1 = failure cmd (Failed e) ∧
           store r.2 = store w ∧ routes r.2 = routes w) ∧
        (rel.1 = None →
           r.1 = success cmd "agent killed" ∧
           registry.Get agentID (store r.2) = None ∧
           store r.2 = registry.Deregister (deregisterIO env) agentID (store w) ∧
           (removeRoute env = None →
              routes r.2 !! network.routeFile agentID = None) ∧
           (∀ f, f ≠ network.routeFile agentID →
              routes r.2 !! f = routes w !! f)) ∧
        (pool.namesUnique (poolMgr w) →
           ∃ i, pool.slots (poolMgr w) !! i = Some slot ∧
                pool.slots (poolMgr r.2) =
                  <[i := pool.released slot]> (pool.slots (poolMgr w))))).
Proof.
  intros r. subst r. unfold handleKill. split.
  { by intros e ->. }
  intros agentID ->. split.
  { by intros ->. }
  intros slot Hslot. rewrite Hslot.
  destruct (pool.Release _ _ _) as [[e|] pm] eqn:Erel; simpl.
  - split_and!; try done.
    + by intros e' [= <-].
    + intros Hu. unfold pool.GetSlot in Hslot.
      destruct (list_find _ _) as [[i s]|] eqn:E; [|done].
      injection Hslot as ->. apply list_find_Some in E as (Hi & _).
      exists i. split; [done|].
      pose proof (Release_of_unique (releaseIO env) (pool.Name slot) (poolMgr w)
                    i slot Hu Hi eq_refl) as Hr.
      by rewrite Erel in Hr.
  - split_and!; try done.
    + intros _. split_and!; [done| |done| |].
      * unfold registry.Get. rewrite Deregister_agents. by rewrite lookup_delete_eq.
      * intros ->. simpl. by rewrite lookup_delete_eq.
      * intros f Hf. unfold network.RemoveRoute.
        destruct (removeRoute env); simpl; [done|]. by rewrite lookup_delete_ne.
    + intros Hu. unfold pool.GetSlot in Hslot.
      destruct (list_find _ _) as [[i s]|] eqn:E; [|done].
      injection Hslot as ->. apply list_find_Some in E as (Hi & _).
      exists i. split; [done|].
      pose proof (Release_of_unique (releaseIO env) (pool.Name slot) (poolMgr w)
                    i slot Hu Hi eq_refl) as Hr.
      by rewrite Erel in Hr.
Qed.

Ltac answers_done :=
  try (intros Hn; exfalso; apply Hn;
       repeat (first [apply list_elem_of_here | apply list_elem_of_further]));
  try (intros Hn1 Hn2; done).

(** X25.  [Handle], for every command.  The result carries the ID of the
    command; it is either a success with no error text or a failure with
    an error text and no message.  An action other than kill, dispatch,
    mount, unmount and shell fails and changes nothing.  Only a kill
    changes the registry and the routes, only a kill or a dispatch changes
    the pool, only a mount or an unmount changes the mounts. *)
Theorem Handle_answers (env : CommandEnv) (hostAddr : string)
    (cmd : CommandPayload) (w : World) :
  let r := Handle Join env hostAddr cmd w in
  let action := cmd_Action cmd in
  ID r.1 = cmd_ID cmd ∧
  (if Success r.1 then Error r.1 = None
   else is_Some (Error r.1) ∧ Message r.1 = "") ∧
  (action ∉ ["kill"; "dispatch"; "mount"; "unmount"; "shell"] →
     r = (failure cmd (UnknownAction action), w)) ∧
  (action ≠ "kill" → store r.2 = store w ∧ routes r.2 = routes w) ∧
  (action ≠ "kill" → action ≠ "dispatch" → poolMgr r.2 = poolMgr w) ∧
  (action ≠ "mount" → action ≠ "unmount" → sshfs r.2 = sshfs w).
Proof.
  intros r action. subst r action. unfold Handle.
  destruct (decide (cmd_Action cmd = "kill")) as [Hk|Hk].
  { rewrite Hk. unfold handleKill.
    repeat (case_match; simpl); split_and!; try done;
      answers_done. }
  destruct (decide (cmd_Action cmd = "dispatch")) as [Hd|Hd].
  { rewrite Hd. unfold handleDispatch.
    destruct (unmarshalDispatchArgs _); simpl; [|split_and!; try done;
      answers_done].
    destruct (orchestrator.Dispatch _ _ _ _) as [[res|e] pm]; simpl;
      split_and!; try done; answers_done. }
  destruct (decide (cmd_Action cmd = "mount")) as [Hm|Hm].
  { rewrite Hm. unfold handleMount.
    destruct (unmarshalMountArgs _) as [[a p]|]; simpl; [|split_and!; try done;
      answers_done].
    destruct (pool.GetSlot _ _); simpl; [|split_and!; try done;
      answers_done].
    destruct (Mount _ _ _ _ _ _ _ _) as [[mp|e] m]; simpl;
      split_and!; try done; answers_done. }
  destruct (decide (cmd_Action cmd = "unmount")) as [Hu|Hu].
  { rewrite Hu. unfold handleUnmount.
    destruct (unmarshalAgentArgs _); simpl; [|split_and!; try done;
      answers_done].
    destruct (Unmount _ _ _ _) as [[e|] m]; simpl;
      split_and!; try done; answers_done. }
  destruct (decide (cmd_Action cmd = "shell")) as [Hs|Hs].
  { rewrite Hs. unfold handleShell.
    destruct (unmarshalAgentArgs _); simpl; [|split_and!; try done;
      answers_done].
    destruct (pool.GetSlot _ _); simpl;
      split_and!; try done; answers_done. }
  simpl. split_and!; done.
Qed.

End handlerProps.
End CommandProps.

(** ** Package [harness]: the reporter and the daemon *)

Module HarnessProps.
Import harness registry RegistryProps.

Section reporterProps.

Context `{Codec}.

(** X26.  What the harness sends is what the registry reads.  [Register]
    against a server whose POST /register is [handleRegister] returns nil,
    and the agent is then in the store under its ID as written in JSON,
    with the given VM, project, tool and ports and the state registered.
    A [Report] for the agent is then answered with 200 and sets the
    agent's state, and nothing else of it. *)
Theorem Reporter_reaches_registry (hasCallback : bool) (now1 now2 : Time)
    (io1 io2 : io_outcome) (agentID vmName vmIP project tool : string)
    (ports : option (list Z)) (state message : string) (s : Store) :
  Forall in_range (default [] ports) →
  let reg := mkAgentRegistration (utf8 agentID) (utf8 vmName) (utf8 vmIP)
               (utf8 project) (utf8 tool) "" "" (default [] ports)
               "registered" now1 now2 in
  let s1 := (handleRegister hasCallback now1 now2 io1
               (FileJSON (registerPayload agentID vmName vmIP project tool ports))
               s).1.2 in
  let r2 := handleStatus io2 (FileJSON (reportPayload agentID state message)) s1 in
  harness.Register
    (λ body, Ok (status (handleRegister hasCallback now1 now2 io1
                           (FileJSON body) s).1.1))
    agentID vmName vmIP project tool ports = None ∧
  Get (utf8 agentID) s1 = Some reg ∧
  status r2.1 = StatusOK ∧
  Get (utf8 agentID) r2.2 =
    Some (mkAgentRegistration (utf8 agentID) (utf8 vmName) (utf8 vmIP)
            (utf8 project) (utf8 tool) "" "" (default [] ports)
            (utf8 state) now1 now2).
Proof.
  intros Hports reg s1 r2.
  assert (decodeRegisterRequest
            (FileJSON (registerPayload agentID vmName vmIP project tool ports))
          = Ok (mkRegisterRequest (utf8 agentID) (utf8 vmName) (utf8 vmIP)
                  (utf8 project) (utf8 tool) (default [] ports))) as Hreq.
  { cbn. destruct ports as [l|]; cbn; [|done].
    cbn in Hports. by rewrite unmarshalPorts_roundtrip. }
  assert (decodeReport (FileJSON (reportPayload agentID state message))
          = Ok (mkStatusReport (utf8 agentID) (utf8 state) (utf8 message)))
    as Hrep by done.
  assert (s1 = Register io1 reg s) as Hs1.
  { subst s1. unfold handleRegister. by rewrite Hreq. }
  assert (agents s1 !! utf8 agentID = Some reg) as Hget.
  { rewrite Hs1, Register_agents. by apply lookup_insert_eq. }
  split_and!.
  - unfold harness.Register, handleRegister. by rewrite Hreq.
  - done.
  - by destruct (proj2 (handleStatus_spec io2 _ _ s1 Hrep) reg Hget) as [? _].
  - by destruct (proj2 (handleStatus_spec io2 _ _ s1 Hrep) reg Hget) as [_ ?].
Qed.

End reporterProps.

(** The serve step of the harness: one port, then a report. *)
Lemma Reporter_reaches_registry_witness :
  let post := λ body,
    Ok (status (handleRegister (H := evalCodec) true 0 0 IoOk (FileJSON body)
                  NewStore).1.1) in
  let s1 := (handleRegister (H := evalCodec) true 0 0 IoOk
               (FileJSON (registerPayload (H := evalCodec) "agent-1" "warm-1"
                            "192.168.64.5" "p" "claude-code" (Some [3000])))
               NewStore).1.2 in
  Forall in_range [3000] ∧
  harness.Register (H := evalCodec) post "agent-1" "warm-1" "192.168.64.5"
    "p" "claude-code" (Some [3000]) = None ∧
  status (handleStatus (H := evalCodec) IoOk
            (FileJSON (reportPayload (H := evalCodec) "agent-1" "serving"
                         "Serving on port 3000"))
            s1).1 = StatusOK.
Proof.
  intros post s1.
  assert (Forall in_range [3000]) as Hports.
  { apply Forall_cons_2; [by vm_compute|apply Forall_nil_2]. }
  pose proof (Reporter_reaches_registry (H := evalCodec) true 0 0 IoOk IoOk
                "agent-1" "warm-1" "192.168.64.5" "p" "claude-code"
                (Some [3000]) "serving" "Serving on port 3000" NewStore Hports)
    as (Hreg & _ & Hok & _).
  split_and!; [exact Hports|exact Hreg|exact Hok].
Defined.

End HarnessProps.

Module DaemonProps.
Import harness.

Ltac run_iff :=
  split;
  [ intros ?; simplify_eq; try done;
    split_and!; solve [done | by left | by right | by intros ? [=]]
  | intros (? & ? & ? & ? & Hrun & ?); simplify_eq; try done;
    try (by destruct Hrun as [?|?]; simplify_eq);
    try (by exfalso; eapply Hrun) ].

Ltac run_case :=
  cbn; rewrite ?decide_True by done; rewrite ?decide_False by done; cbn;
  split_and!;
  [ repeat first [apply list_elem_of_here | apply list_elem_of_further]
  | run_iff
  | by intros [? [=]]
  | run_iff
  | split; [intros ?; simplify_eq; by eexists | by intros [? [=]]]
  | repeat constructor ].

Section runProps.

Context `{Codec}.

(** X27.  The states that one run reports are one of four sequences:
    starting and cloning, then executing once the workspace and the branch
    are there, then pushing once the tool has run, and last exactly one of
    failed and completed.  The run ends completed exactly when every step
    succeeded and the tool left with exit code 0.  Every error that [Run]
    returns has been reported as failed; a tool that leaves with another
    exit code is reported as failed too, but then [Run] returns nil, as
    whenever the branch was pushed, and report.json is written in exactly
    these runs.  Every report carries the agent ID of the task. *)
Theorem Run_reports (env : RunEnv) (task : orchestrator.TaskConfig) :
  let r := Run env task in
  let states := rep_state <$> reports r in
  states ∈ [["starting"; "cloning"; "failed"];
            ["starting"; "cloning"; "executing"; "failed"];
            ["starting"; "cloning"; "executing"; "pushing"; "failed"];
            ["starting"; "cloning"; "executing"; "pushing"; "completed"]] ∧
  (last states = Some "completed" ↔
     mkdirAll env = None ∧ gitClone env = None ∧ gitCreateBranch env = None ∧
     buildCommand (orchestrator.Tool task) (orchestrator.Prompt task) ≠ [] ∧
     (cmdRun env = None ∨ cmdRun env = Some (inl 0)) ∧ gitPush env = None) ∧
  (is_Some (runErr r) → last states = Some "failed") ∧
  (runErr r = None ↔
     mkdirAll env = None ∧ gitClone env = None ∧ gitCreateBranch env = None ∧
     buildCommand (orchestrator.Tool task) (orchestrator.Prompt task) ≠ [] ∧
     (∀ e, cmdRun env ≠ Some (inr e)) ∧ gitPush env = None) ∧
  (runErr r = None ↔ is_Some (reportFile r)) ∧
  Forall (λ x, rep_agentID x = orchestrator.AgentID task) (reports r).
Proof.
  intros r states. subst states r. unfold Run, setupWorkspace, Execute.
  destruct env as [mk cl br run el add com push].
  cbn [mkdirAll gitClone gitCreateBranch cmdRun elapsed gitPush].
  destruct mk as [e1|]; [run_case|].
  destruct cl as [e2|]; [run_case|].
  destruct br as [e3|]; [run_case|].
  destruct (buildCommand _ _) as [|c0 cs] eqn:Ecmd; [run_case|].
  destruct run as [[code|e4]|], push as [e5|];
    try destruct (decide (code = 0)) as [->|Hc]; run_case.
Qed.

End runProps.
End DaemonProps.

(** ** From the send queue to the monitor *)

Module FrameProps.
Import wsClient monitor.

Lemma split_oneLine m :
  LF ∉ String.list_ascii_of_string m → split LF m = [m].
Proof.
  induction m as [|c m IH]; cbn [split String.list_ascii_of_string]; [done|].
  intros Hnot. apply not_elem_of_cons in Hnot as [Hc Hm].
  rewrite decide_False by done. by rewrite IH.
Qed.

Lemma split_app m rest :
  LF ∉ String.list_ascii_of_string m →
  split LF (m +:+ String LF rest) = m :: split LF rest.
Proof.
  induction m as [|c m IH]; intros Hnot.
  - change ("" +:+ String LF rest) with (String LF rest).
    cbn [split]. by rewrite decide_True.
  - change (String c m +:+ String LF rest)
      with (String c (m +:+ String LF rest)).
    cbn [split String.list_ascii_of_string] in *.
    apply not_elem_of_cons in Hnot as [Hc Hm].
    rewrite decide_False by done. by rewrite IH.
Qed.

Lemma append_empty_r (a : string) : a +:+ "" = a.
Proof.
  induction a as [|c a IH]; [done|].
  unfold String.append; fold String.append. by rewrite IH.
Qed.

Lemma append_assoc (a b c : string) : (a +:+ b) +:+ c = a +:+ (b +:+ c).
Proof.
  induction a as [|x a IH]; [done|].
  unfold String.append; fold String.append. by rewrite IH.
Qed.

Lemma frame_join (m : string) (queued : list string) :
  foldl (λ w next, w +:+ String LF next) m queued
  = m +:+ foldr (λ next tail, String LF next +:+ tail) "" queued.
Proof.
  revert m. induction queued as [|x l IH]; intros m; simpl.
  - by rewrite append_empty_r.
  - rewrite IH. by rewrite append_assoc.
Qed.

Lemma split_frame (m : string) (queued : list string) :
  Forall (λ x, LF ∉ String.list_ascii_of_string x) (m :: queued) →
  split LF (foldl (λ w next, w +:+ String LF next) m queued) = m :: queued.
Proof.
  rewrite frame_join. revert m.
  induction queued as [|x l IH]; intros m Hall; simpl.
  - rewrite append_empty_r. apply split_oneLine. by inversion Hall.
  - inversion Hall as [|? ? Hm Hrest]; subst.
    change (String LF x +:+ ?t) with (String LF (x +:+ t)).
    rewrite split_app by done. f_equal. by apply IH.
Qed.

Lemma Send_all (queue msgs : list string) :
  (length queue ≤ 256)%nat →
  foldl (λ q m, Send m q) queue msgs
  = queue ++ take (256 - length queue) msgs.
Proof.
  revert queue. induction msgs as [|m l IH]; intros queue Hlen; simpl.
  - by rewrite take_nil, app_nil_r.
  - unfold Send at 2. case_decide as Hfull.
    + rewrite IH by (rewrite length_app; simpl; lia).
      rewrite length_app. simpl. rewrite <- app_assoc. simpl.
      replace (256 - length queue)%nat with (S (256 - (length queue + 1)))
        by lia.
      done.
    + rewrite IH by done.
      replace (256 - length queue)%nat with 0%nat by lia.
      by rewrite !take_0.
Qed.

Lemma parsed_length {E} (parse : string → option E) msgs i m :
  msgs !! i = Some m → parse m = None → (length (parsed parse msgs) ≤ i)%nat.
Proof.
  revert i. induction msgs as [|x l IH]; intros i Hi Hm; [done|].
  destruct i as [|i]; simpl in *.
  - injection Hi as ->. by rewrite Hm.
  - destruct (parse x); simpl; [|lia]. specialize (IH i Hi Hm). lia.
Qed.

Lemma parsed_all {E} (parse : string → option E) msgs :
  Forall (λ m, is_Some (parse m)) msgs →
  Some <$> parsed parse msgs = parse <$> msgs.
Proof.
  induction 1 as [|m l [env Hm] Hl IH]; [done|]. cbn [parsed].
  rewrite Hm, !fmap_cons. by rewrite IH, Hm.
Qed.

(** X28.  From the send queue to the monitor.  Of the messages sent to a
    client whose queue was empty, the first 256 are queued and the others
    dropped.  When no message has a line feed in it and none is white
    space only, one turn of [writePump] puts the whole queue into one
    frame, and the monitor splits that frame back into exactly these
    messages, in order.  It passes on the envelope of each when all of
    them parse; a message that does not parse hides itself and all the
    later ones of the frame. *)
Theorem frame_carries_queue {E} (parse : string → option E)
    (msgs : list string) :
  msgs ≠ [] →
  Forall oneLine msgs →
  let queue := foldl (λ q m, Send m q) [] msgs in
  queue = take 256 msgs ∧
  messages <$> writeFrame queue = Some queue ∧
  onFrame parse <$> writeFrame queue = Some (parsed parse queue) ∧
  (Forall (λ m, is_Some (parse m)) queue →
     Some <$> parsed parse queue = parse <$> queue) ∧
  (∀ i m, queue !! i = Some m → parse m = None →
     (length (parsed parse queue) ≤ i)%nat).
Proof.
  intros Hne Hall queue.
  assert (queue = take 256 msgs) as Hq.
  { subst queue. by rewrite Send_all by (simpl; lia). }
  assert (Forall oneLine queue) as Hlines.
  { rewrite Hq. by apply Forall_take. }
  assert (messages <$> writeFrame queue = Some queue) as Hmsgs.
  { destruct queue as [|m queued] eqn:E0.
    - destruct msgs; [done|]. by rewrite Hq in E0.
    - simpl. f_equal. unfold messages. rewrite split_frame.
      + clear -Hlines. induction Hlines as [|x l [_ Hx] Hl IH]; [done|].
        rewrite filter_cons_True by done. by rewrite IH.
      + eapply Forall_impl; [exact Hlines|]. by intros x [? _]. }
  split_and!; try done.
  - unfold onFrame. destruct (writeFrame queue) as [raw|]; [|done].
    simpl in *. by injection Hmsgs as ->.
  - apply parsed_all.
  - apply parsed_length.
Qed.

Lemma frame_carries_queue_witness :
  let msgs := ["{}"; " [1, 2]"; "null"] in
  let queue := foldl (λ q m, Send m q) [] msgs in
  msgs ≠ [] ∧ Forall oneLine msgs ∧
  queue = msgs ∧
  messages <$> writeFrame queue = Some msgs ∧
  onFrame (λ m, if decide (m = "null") then None else Some m)
    <$> writeFrame queue = Some ["{}"; " [1, 2]"].
Proof.
  intros msgs queue.
  assert (msgs ≠ []) as Hne by done.
  assert (Forall oneLine msgs) as Hall.
  { subst msgs.
    repeat (apply Forall_cons_2;
              [split; [apply (bool_decide_unpack _); by vm_compute
                      |by vm_compute]|]).
    apply Forall_nil_2. }
  pose proof (frame_carries_queue
                (λ m, if decide (m = "null") then None else Some m)
                msgs Hne Hall) as (Hq & Hm & Hf & _).
  split_and!; [done|done|exact Hq|exact Hm|exact Hf].
Defined.

End FrameProps.

(** ** The daemon [agentd] *)

Module AgentdProps.
Import wsCommands agentd PoolProps RegistryProps.

Section agentdProps.

Context `{Codec}.

(** X29.  An agent's registration and route, from POST /register to the
    kill.  A register request that decodes is answered with 200, leaves
    the agent in the registry and, when the write succeeds, its route file
    in place; the pool is not touched.  The kill of the API then does what
    the kill command of the WebSocket does: it leaves the same pool,
    registry, routes and mounts, answers 200 where the command succeeds,
    404 where it finds no slot and 500 where the release fails.  After a
    kill that released the slot the agent is no longer registered, and its
    route file is gone unless the removal failed. *)
Theorem register_then_kill (tw : network.TraefikWriter) (now1 now2 : Time)
    (io : io_outcome) (env : CommandEnv) (reqBody : file)
    (req : registry.RegisterRequest) (cmd : CommandPayload) (w : World) :
  registry.decodeRegisterRequest reqBody = Ok req →
  unmarshalAgentArgs (cmd_Args cmd) = Ok (registry.req_AgentID req) →
  let id := registry.req_AgentID req in
  let reg := registry.mkAgentRegistration id (registry.req_VMName req)
               (registry.req_VMIP req) (registry.req_Project req)
               (registry.req_Tool req) "" "" (registry.req_Ports req)
               "registered" now1 now2 in
  let r := register tw now1 now2 io None None reqBody w in
  let k := kill env id r.2 in
  let c := handleKill env cmd r.2 in
  registry.status r.1 = registry.StatusOK ∧
  registry.Get id (store r.2) = Some reg ∧
  routes r.2 !! network.routeFile id = Some (network.routeConfig tw reg) ∧
  poolMgr r.2 = poolMgr w ∧
  k.2 = c.2 ∧
  (k.1.1 = registry.StatusOK ↔ Success c.1 = true) ∧
  Error c.1 = k.1.2 ∧
  (k.1.1 = registry.StatusNotFound ↔ pool.GetSlot id (poolMgr w) = None) ∧
  (k.1.1 = registry.StatusOK →
     registry.Get id (store k.2) = None ∧
     (removeRoute env = None → routes k.2 !! network.routeFile id = None)) ∧
  (k.1.1 ≠ registry.StatusOK →
     registry.Get id (store k.2) = Some reg ∧
     routes k.2 !! network.routeFile id = Some (network.routeConfig tw reg)).
Proof.
  intros Hreq Hargs id reg r k c.
  assert (r = (registry.mkResponse registry.StatusOK
                 (registry.BodyRegister true None),
               mkWorld (poolMgr w) (registry.Register io reg (store w))
                 (<[network.routeFile id := network.routeConfig tw reg]>
                    (routes w))
                 (sshfs w))) as Hr.
  { subst r. unfold register, registry.handleRegister. by rewrite Hreq. }
  assert (registry.agents (store r.2) !! id = Some reg) as Hget.
  { rewrite Hr. cbn [snd store]. rewrite Register_agents.
    by apply lookup_insert_eq. }
  assert (routes r.2 !! network.routeFile id
          = Some (network.routeConfig tw reg)) as Hroute.
  { rewrite Hr. cbn [snd routes]. by apply lookup_insert_eq. }
  assert (poolMgr r.2 = poolMgr w) as Hpool by by rewrite Hr.
  split_and!; [by rewrite Hr|done|done|done|..];
    subst k c; unfold kill, handleKill; rewrite ?Hargs, ?Hpool; fold id;
    destruct (pool.GetSlot id (poolMgr w)) as [slot|] eqn:Eslot;
    try destruct (pool.Release _ _ _) as [[e|] pm] eqn:Erel; cbn;
    try done.
  all: try (split; done).
  - intros _. split.
    + unfold registry.Get. rewrite Deregister_agents. by apply lookup_delete_eq.
    + intros ->. cbn. by apply lookup_delete_eq.
Qed.

End agentdProps.

(** An agent on the slot warm-1 registers its port 3000 and is killed. *)
Lemma register_then_kill_witness :
  let active := pool.mkVMSlot "warm-1" pool.SlotActive "agent-1" "p" "" "" ""
                  "192.168.64.5" 0 0 in
  let w := mkWorld
             (pool.mkManager (pool.mkPoolConfig 1 2 "agent-master") [active] 1
                None false)
             registry.NewStore ∅ (mkSSHFSManager "/tmp/agentvm" ∅) in
  let env := mkCommandEnv IoOk None IoOk
               (orchestrator.mkDispatchEnv 0 0 0 (λ _, Ok "192.168.64.5") IoOk
                  (λ _, None) None (λ _, None) None None IoOk)
               None None None None in
  let tw := network.mkTraefikWriter "/tmp/agentvm/traefik" "localhost" true in
  let body := FileJSON (JObj [("agentID", JStr "agent-1");
                              ("vmIP", JStr "192.168.64.5");
                              ("ports", JArr [JNum 3000])]) in
  let r := register (H := evalCodec) tw 0 0 IoOk None None body w in
  let k := kill (H := evalCodec) env "agent-1" r.2 in
  is_Some (routes r.2 !! network.routeFile "agent-1") ∧
  k.1.1 = registry.StatusOK ∧
  routes k.2 !! network.routeFile "agent-1" = None ∧
  pool.State <$> pool.slots (poolMgr k.2) = [pool.SlotCold].
Proof.
  intros active w env tw body r k.
  pose proof (register_then_kill (H := evalCodec) tw 0 0 IoOk env body
                (registry.mkRegisterRequest "agent-1" "" "192.168.64.5" "" ""
                   [3000])
                (mkCommandPayload "cmd-1" "kill"
                   (FileJSON (JObj [("agentID", JStr "agent-1")])))
                w eq_refl eq_refl)
    as (_ & _ & Hroute & _ & _ & _ & _ & _ & Hok & _).
  assert (k.1.1 = registry.StatusOK) as Hk by (vm_compute; reflexivity).
  split_and!.
  - eexists. exact Hroute.
  - exact Hk.
  - by apply Hok.
  - vm_compute; reflexivity.
Defined.

End AgentdProps.
